(** * The markdown renderer of the chat message component

    A shallow embedding of [markdownToHTML] and [renderContent] of the
    chat message component, together with the part of the ECMAScript
    runtime they call: regular-expression matching,
    [String.prototype.replace], [split], [trim] and [Array.prototype.slice].

    A JavaScript string is a sequence of UTF-16 code units; a code unit is
    modelled as a number in [N], a string as [list N]. *)

From Stdlib Require Import String Ascii DecimalString NArith ZArith Arith Bool Lia List.
From Stdlib Require DecimalNat.
Import ListNotations.

Open Scope N_scope.

(** ** Strings *)

Definition jsstring := list N.

(** Literals of the source are written as Rocq strings and read byte by
    byte; every literal of the source is ASCII. *)
Definition str (s : string) : jsstring :=
  map N_of_ascii (list_ascii_of_string s).

Definition cLT : N := 60.   (* < *)
Definition cGT : N := 62.   (* > *)
Definition cNL : N := 10.   (* \n *)
Definition cCR : N := 13.   (* \r *)
Definition cPipe : N := 124.
Definition cDollar : N := 36.

(** LineTerminator of the language: LF, CR, LS, PS. *)
Definition is_line_terminator (c : N) : bool :=
  (c =? 10) || (c =? 13) || (c =? 8232) || (c =? 8233).

(** WhiteSpace of the language: TAB, VT, FF, SP, NBSP, ZWNBSP and the
    code points of category Zs. *)
Definition is_white_space (c : N) : bool :=
  (c =? 9) || (c =? 11) || (c =? 12) || (c =? 32) || (c =? 160) ||
  (c =? 5760) || ((8192 <=? c) && (c <=? 8202)) || (c =? 8239) ||
  (c =? 8287) || (c =? 12288) || (c =? 65279).

(** What [\s] matches and what [trim] strips. *)
Definition is_space (c : N) : bool := is_white_space c || is_line_terminator c.

Definition is_digit (c : N) : bool := (48 <=? c) && (c <=? 57).

Fixpoint trim_start (s : jsstring) : jsstring :=
  match s with
  | c :: s' => if is_space c then trim_start s' else s
  | [] => []
  end.

Definition trim_end (s : jsstring) : jsstring := rev (trim_start (rev s)).

(** [String.prototype.trim] *)
Definition trim (s : jsstring) : jsstring := trim_end (trim_start s).

(** [String.prototype.split] with a separator of one code unit. *)
Fixpoint split_on (sep : N) (s : jsstring) : list jsstring :=
  match s with
  | [] => [[]]
  | c :: s' =>
      if c =? sep then [] :: split_on sep s'
      else match split_on sep s' with
           | piece :: pieces => (c :: piece) :: pieces
           | [] => [[c]]
           end
  end.

(** [Array.prototype.slice(start, end)], negative indices counted from the
    end of the array. *)
Definition array_slice {A} (start stop : Z) (l : list A) : list A :=
  let len := Z.of_nat (length l) in
  let k := if (start <? 0)%Z then Z.max (len + start) 0 else Z.min start len in
  let final := if (stop <? 0)%Z then Z.max (len + stop) 0 else Z.min stop len in
  firstn (Z.to_nat (final - k)) (skipn (Z.to_nat k) l).

(** [Array.prototype.join('')] *)
Definition join_empty (l : list jsstring) : jsstring := concat l.

(** Decimal rendering of an array index inside a template literal. *)
Definition number_to_string (n : nat) : jsstring :=
  str (NilZero.string_of_uint (Nat.to_uint n)).

(** ** Regular expressions *)

Inductive class_atom : Type :=
| CChar (c : N)
| CRange (lo hi : N)
| CSpace          (* \s *)
| CNotSpace       (* \S *)
| CDigit.         (* \d *)

Inductive regex : Type :=
| Empty
| Char (c : N)
| Dot                                   (* .  *)
| Class (invert : bool) (atoms : list class_atom)
| Bol                                   (* ^  *)
| Eol                                   (* $  *)
| Seq (r1 r2 : regex)
| Alt (r1 r2 : regex)
| Quant (min : nat) (max : option nat) (greedy : bool) (r : regex)
| Group (n : nat) (r : regex).          (* n-th capturing parenthesis *)

(** The flags of a regular-expression literal.  [ignoreCase] is recorded
    only: the literals that carry [i] name no cased character ([#], [>],
    space) and no cased character canonicalizes to one of these, so the
    flag changes no match. *)
Record RegExp : Type := mkRegExp {
  source : regex;
  global : bool;
  ignoreCase : bool;
  multiline : bool
}.

Definition atom_matches (a : class_atom) (c : N) : bool :=
  match a with
  | CChar d => c =? d
  | CRange lo hi => (lo <=? c) && (c <=? hi)
  | CSpace => is_space c
  | CNotSpace => negb (is_space c)
  | CDigit => is_digit c
  end.

Definition class_matches (invert : bool) (atoms : list class_atom) (c : N) : bool :=
  xorb invert (existsb (fun a => atom_matches a c) atoms).

(** A match state: the input before the current position (nearest code
    unit first), the input from the current position on, and the captures
    recorded so far. *)
Record mstate : Type := mkState {
  before : jsstring;
  after : jsstring;
  caps : list (nat * jsstring)
}.

Definition advance (x : mstate) : mstate :=
  match after x with
  | c :: rest => mkState (c :: before x) rest (caps x)
  | [] => x
  end.

Fixpoint lookup_cap (n : nat) (cs : list (nat * jsstring)) : option jsstring :=
  match cs with
  | [] => None
  | (k, v) :: cs' => if Nat.eqb k n then Some v else lookup_cap n cs'
  end.

Definition clear_caps (ns : list nat) (cs : list (nat * jsstring)) : list (nat * jsstring) :=
  filter (fun kv => negb (existsb (Nat.eqb (fst kv)) ns)) cs.

Fixpoint group_ids (r : regex) : list nat :=
  match r with
  | Seq r1 r2 | Alt r1 r2 => group_ids r1 ++ group_ids r2
  | Quant _ _ _ r' => group_ids r'
  | Group n r' => n :: group_ids r'
  | _ => []
  end.

(** The text consumed between two states of one match. *)
Definition consumed (x y : mstate) : jsstring :=
  firstn (length (after x) - length (after y)) (after x).

Definition at_bol (ml : bool) (x : mstate) : bool :=
  match before x with
  | [] => true
  | c :: _ => ml && is_line_terminator c
  end.

Definition at_eol (ml : bool) (x : mstate) : bool :=
  match after x with
  | [] => true
  | c :: _ => ml && is_line_terminator c
  end.

Definition cont := mstate -> option mstate.
Definition matcher := mstate -> cont -> option mstate.

Definition or_else (a : option mstate) (b : unit -> option mstate) : option mstate :=
  match a with
  | Some z => Some z
  | None => b tt
  end.

(** RepeatMatcher of the language specification.  An iteration that
    consumes nothing once [min] is reached is rejected, so every call
    either lowers [min] or shortens the remaining input: [fuel] bounds
    their sum and is never exhausted. *)
Fixpoint repeat_matcher (mr : matcher) (ids : list nat) (fuel : nat)
    (min : nat) (max : option nat) (greedy : bool) (x : mstate) (c : cont)
    : option mstate :=
  match fuel with
  | O => None
  | S fuel' =>
      match max with
      | Some O => c x
      | _ =>
          let d : cont := fun y =>
            if Nat.eqb min 0 && Nat.eqb (length (after y)) (length (after x))
            then None
            else repeat_matcher mr ids fuel' (Nat.pred min) (option_map Nat.pred max) greedy y c in
          let xr := mkState (before x) (after x) (clear_caps ids (caps x)) in
          if negb (Nat.eqb min 0) then mr xr d
          else if greedy then or_else (mr xr d) (fun _ => c x)
          else or_else (c x) (fun _ => mr xr d)
      end
  end.

(** The backtracking matcher: [m ml r x c] matches [r] at state [x] and
    hands every way of doing so, in priority order, to the continuation
    [c] until one succeeds. *)
Fixpoint m (ml : bool) (r : regex) (x : mstate) (c : cont) {struct r} : option mstate :=
  match r with
  | Empty => c x
  | Char ch =>
      match after x with
      | a :: _ => if a =? ch then c (advance x) else None
      | [] => None
      end
  | Dot =>
      match after x with
      | a :: _ => if is_line_terminator a then None else c (advance x)
      | [] => None
      end
  | Class inv atoms =>
      match after x with
      | a :: _ => if class_matches inv atoms a then c (advance x) else None
      | [] => None
      end
  | Bol => if at_bol ml x then c x else None
  | Eol => if at_eol ml x then c x else None
  | Seq r1 r2 => m ml r1 x (fun y => m ml r2 y c)
  | Alt r1 r2 => or_else (m ml r1 x c) (fun _ => m ml r2 x c)
  | Quant min max greedy r' =>
      repeat_matcher (m ml r') (group_ids r') (S (min + length (after x)))
        min max greedy x c
  | Group n r' =>
      m ml r' x (fun y => c (mkState (before y) (after y) ((n, consumed x y) :: caps y)))
  end.

(** One match attempt at a fixed position. *)
Definition match_at (re : RegExp) (bef aft : jsstring) : option mstate :=
  m (multiline re) (source re) (mkState bef aft []) (fun y => Some y).

(** The captures of a successful match, one entry per capturing
    parenthesis, in order. *)
Definition captures_of (re : RegExp) (y : mstate) : list (option jsstring) :=
  map (fun n => lookup_cap n (caps y)) (seq 1 (length (group_ids (source re)))).

(** ** [String.prototype.replace] *)

Definition digit_value (c : N) : nat := N.to_nat (c - 48).

Definition capture_text (captures : list (option jsstring)) (index : nat) : jsstring :=
  match nth_error captures (index - 1) with
  | Some (Some s) => s
  | _ => []
  end.

(** GetSubstitution: the expansion of a replacement string.  [pre] is the
    subject before the match and [post] the subject after it. *)
Fixpoint get_substitution (matched pre post : jsstring)
    (captures : list (option jsstring)) (template : jsstring) : jsstring :=
  match template with
  | [] => []
  | c :: rest =>
      if negb (c =? 36) then c :: get_substitution matched pre post captures rest
      else
        match rest with
        | [] => [c]
        | d1 :: rest' =>
            if d1 =? 36 then 36 :: get_substitution matched pre post captures rest'
            else if d1 =? 96 then pre ++ get_substitution matched pre post captures rest'
            else if d1 =? 38 then matched ++ get_substitution matched pre post captures rest'
            else if d1 =? 39 then post ++ get_substitution matched pre post captures rest'
            else if is_digit d1 then
              let one :=
                if (1 <=? digit_value d1)%nat && (digit_value d1 <=? length captures)%nat
                then capture_text captures (digit_value d1)
                       ++ get_substitution matched pre post captures rest'
                else c :: d1 :: get_substitution matched pre post captures rest' in
              match rest' with
              | d2 :: rest'' =>
                  let index := (10 * digit_value d1 + digit_value d2)%nat in
                  if is_digit d2 && (index <=? length captures)%nat then
                    if (1 <=? index)%nat
                    then capture_text captures index
                           ++ get_substitution matched pre post captures rest''
                    else c :: d1 :: d2 :: get_substitution matched pre post captures rest''
                  else one
              | [] => one
              end
            else c :: get_substitution matched pre post captures rest
        end
  end.

(** A replacer receives the matched text, the captures, the subject
    before and after the match, and a state of its own (the variables a
    callback closes over). *)
Definition replacer (A : Type) : Type :=
  A -> jsstring -> list (option jsstring) -> jsstring -> jsstring -> A * jsstring.

Definition template_replacer (template : jsstring) : replacer unit :=
  fun _ matched captures pre post =>
    (tt, get_substitution matched pre post captures template).

(** The loop of [replace] for a literal with the [g] flag: at every
    position, left to right, one match attempt; after a match the scan
    resumes behind it ([skip] counts the matched code units still to be
    passed over), one code unit further on when the match was empty. *)
Fixpoint replace_scan {A} (re : RegExp) (f : replacer A) (acc : A)
    (bef aft : jsstring) (skip : nat) {struct aft} : A * jsstring :=
  match skip with
  | S k =>
      match aft with
      | [] => (acc, [])
      | ch :: aft' => replace_scan re f acc (ch :: bef) aft' k
      end
  | O =>
      match match_at re bef aft with
      | Some y =>
          let '(acc', rep) :=
            f acc (consumed (mkState bef aft []) y) (captures_of re y) (rev bef) (after y) in
          match aft with
          | [] => (acc', rep)
          | ch :: aft' =>
              match (length aft - length (after y))%nat with
              | O => let '(acc'', out) := replace_scan re f acc' (ch :: bef) aft' 0 in
                     (acc'', rep ++ ch :: out)
              | S k => let '(acc'', out) := replace_scan re f acc' (ch :: bef) aft' k in
                       (acc'', rep ++ out)
              end
          end
      | None =>
          match aft with
          | [] => (acc, [])
          | ch :: aft' =>
              let '(acc', out) := replace_scan re f acc (ch :: bef) aft' 0 in
              (acc', ch :: out)
          end
      end
  end.

(** [s.replace(re, f)] for [re] with the [g] flag, which every
    regular-expression [replace] of the source carries. *)
Definition replace_with {A} (re : RegExp) (f : replacer A) (acc : A) (s : jsstring)
    : A * jsstring :=
  replace_scan re f acc [] s 0.

Definition replace_fn (re : RegExp) (f : jsstring -> list (option jsstring) -> jsstring)
    (s : jsstring) : jsstring :=
  snd (replace_with re (fun _ matched captures _ _ => (tt, f matched captures)) tt s).

Definition replace_tmpl (re : RegExp) (template : jsstring) (s : jsstring) : jsstring :=
  snd (replace_with re (template_replacer template) tt s).

Fixpoint is_prefix (p s : jsstring) : bool :=
  match p, s with
  | [], _ => true
  | a :: p', b :: s' => (a =? b) && is_prefix p' s'
  | _ :: _, [] => false
  end.

(** The part of [s] before and after the first occurrence of [pat]. *)
Fixpoint find_first (pat : jsstring) (pre_rev s : jsstring) : option (jsstring * jsstring) :=
  if is_prefix pat s then Some (rev pre_rev, skipn (length pat) s)
  else match s with
       | [] => None
       | c :: s' => find_first pat (c :: pre_rev) s'
       end.

(** [s.replace(pat, replacement)] for a string [pat]: only the first
    occurrence is replaced, and the replacement string is expanded by
    GetSubstitution with no captures. *)
Definition replace_string (pat replacement : jsstring) (s : jsstring) : jsstring :=
  match find_first pat [] s with
  | Some (pre, post) => pre ++ get_substitution pat pre post [] replacement ++ post
  | None => s
  end.

(** [s.match(re)] for a literal without [g], used for its truth value:
    is there a match at some position. *)
Fixpoint regex_test (re : RegExp) (bef aft : jsstring) : bool :=
  match match_at re bef aft with
  | Some _ => true
  | None =>
      match aft with
      | [] => false
      | c :: aft' => regex_test re (c :: bef) aft'
      end
  end.

(** [s.split(re)] for a literal without capturing parentheses.  [piece]
    holds, reversed, the code units since the last separator. *)
Fixpoint split_scan (re : RegExp) (bef aft piece : jsstring) (skip : nat) {struct aft}
    : list jsstring :=
  match aft with
  | [] => [rev piece]
  | ch :: aft' =>
      match skip with
      | S k => split_scan re (ch :: bef) aft' piece k
      | O =>
          match match_at re bef aft with
          | None => split_scan re (ch :: bef) aft' (ch :: piece) 0
          | Some y =>
              match (length aft - length (after y))%nat with
              | O =>
                  match piece with
                  | [] => split_scan re (ch :: bef) aft' [ch] 0
                  | _ => rev piece :: split_scan re (ch :: bef) aft' [ch] 0
                  end
              | S k => rev piece :: split_scan re (ch :: bef) aft' [] k
              end
          end
      end
  end.

Definition regex_split (re : RegExp) (s : jsstring) : list jsstring :=
  match s with
  | [] => match match_at re [] [] with Some _ => [] | None => [[]] end
  | _ => split_scan re [] s [] 0
  end.

(** ** Notation for regular-expression literals *)

Definition Ch (a : ascii) : regex := Char (N_of_ascii a).
Definition cc (a : ascii) : class_atom := CChar (N_of_ascii a).

(** A run of literal characters. *)
Definition lit (s : string) : regex :=
  fold_right (fun c r => Seq (Char c) r) Empty (str s).

Declare Scope regex_scope.
Delimit Scope regex_scope with re.
Bind Scope regex_scope with regex.
Infix ";;" := Seq (at level 61, right associativity) : regex_scope.
Infix "<|>" := Alt (at level 62, right associativity) : regex_scope.

Definition star (r : regex) : regex := Quant 0 None true r.        (* r*  *)
Definition plus (r : regex) : regex := Quant 1 None true r.        (* r+  *)
Definition opt (r : regex) : regex := Quant 0 (Some 1%nat) true r. (* r?  *)
Definition lazy_star (r : regex) : regex := Quant 0 None false r.  (* r*? *)

Definition white : regex := Class false [CSpace].                  (* \s *)
Definition digit : regex := Class false [CDigit].                  (* \d *)
Definition any : regex := Class false [CSpace; CNotSpace].         (* [\s\S] *)

(** The double quote, which the literals below splice in. *)
Definition dq : jsstring := [34].

(** ** The converter: [markdownToHTML] *)

Module Re.
Open Scope regex_scope.

(** "/^###### (.*$)/gim" and its five shorter siblings *)
Definition heading (hashes : string) : RegExp :=
  mkRegExp (Bol ;; lit hashes ;; Ch " " ;; Group 1 (star Dot ;; Eol)) true true true.

(** "/```(.*?)\n([\s\S]*?)```/g" *)
Definition fence : RegExp :=
  mkRegExp (lit "```" ;; Group 1 (lazy_star Dot) ;; Char cNL ;;
            Group 2 (lazy_star any) ;; lit "```") true false false.

(** "/</g" and "/>/g" *)
Definition lt : RegExp := mkRegExp (Ch "<") true false false.
Definition gt : RegExp := mkRegExp (Ch ">") true false false.

(** "/^\|(.+)\|\r?\n\|( *[-:]+[-| :]* )\|\r?\n((?:\|.*\|\r?\n?)* )/gm"; the blank before
    the closing parenthesis of the second and of the third group is not
    part of the literal. *)
Definition table : RegExp :=
  mkRegExp (Bol ;; Ch "|" ;; Group 1 (plus Dot) ;; Ch "|" ;; opt (Char cCR) ;; Char cNL ;;
            Ch "|" ;;
            Group 2 (star (Ch " ") ;; plus (Class false [cc "-"; cc ":"]) ;;
                     star (Class false [cc "-"; cc "|"; cc " "; cc ":"])) ;;
            Ch "|" ;; opt (Char cCR) ;; Char cNL ;;
            Group 3 (star (Ch "|" ;; star Dot ;; Ch "|" ;; opt (Char cCR) ;; opt (Char cNL))))
           true false true.

(** "/^\> (.*$)/gim" *)
Definition blockquote : RegExp :=
  mkRegExp (Bol ;; Ch ">" ;; Ch " " ;; Group 1 (star Dot ;; Eol)) true true true.

(** "/^\s*([*-]) (.* )/gm"; the blank before the last parenthesis is not
    part of the literal. *)
Definition unordered : RegExp :=
  mkRegExp (Bol ;; star white ;; Group 1 (Class false [cc "*"; cc "-"]) ;; Ch " " ;;
            Group 2 (star Dot)) true false true.

(** "/^\s*(\d+)\. (.* )/gm"; the blank before the last parenthesis is not
    part of the literal. *)
Definition ordered : RegExp :=
  mkRegExp (Bol ;; star white ;; Group 1 (plus digit) ;; Ch "." ;; Ch " " ;;
            Group 2 (star Dot)) true false true.

(** "/<\/ul>\s*<ul>/g" and "/<\/ol>\s*<ol>/g" *)
Definition merge_ul : RegExp :=
  mkRegExp (lit "</ul>" ;; star white ;; lit "<ul>") true false false.
Definition merge_ol : RegExp :=
  mkRegExp (lit "</ol>" ;; star white ;; lit "<ol>") true false false.

(** "/\*\*(.*?)\*\*/g" *)
Definition bold : RegExp :=
  mkRegExp (lit "**" ;; Group 1 (lazy_star Dot) ;; lit "**") true false false.

(** "/\*(.*?)\*/g" *)
Definition italic : RegExp :=
  mkRegExp (Ch "*" ;; Group 1 (lazy_star Dot) ;; Ch "*") true false false.

(** "/~~(.*?)~~/g" *)
Definition strike : RegExp :=
  mkRegExp (lit "~~" ;; Group 1 (lazy_star Dot) ;; lit "~~") true false false.

(** "/`([^`]+)`/g" *)
Definition code : RegExp :=
  mkRegExp (Ch "`" ;; Group 1 (plus (Class true [cc "`"])) ;; Ch "`") true false false.

(** "/\[([^\]]+)\]\(([^)]+)\)/g" *)
Definition link : RegExp :=
  mkRegExp (Ch "[" ;; Group 1 (plus (Class true [cc "]"])) ;; Ch "]" ;; Ch "(" ;;
            Group 2 (plus (Class true [cc ")"])) ;; Ch ")") true false false.

(** "/\n\s*\n/" *)
Definition blank_lines : RegExp :=
  mkRegExp (Char cNL ;; star white ;; Char cNL) false false false.

(** "/^(<\/?(h[1-6]|ul|ol|li|blockquote|table|thead|tbody|tr|th|td|pre|code))/" *)
Definition block_tag : RegExp :=
  mkRegExp (Bol ;;
            Group 1 (Ch "<" ;; opt (Ch "/") ;;
                     Group 2 ((Ch "h" ;; Class false [CRange 49 54]) <|> lit "ul" <|> lit "ol"
                              <|> lit "li" <|> lit "blockquote" <|> lit "table"
                              <|> lit "thead" <|> lit "tbody" <|> lit "tr" <|> lit "th"
                              <|> lit "td" <|> lit "pre" <|> lit "code")))
           false false false.

(** "/\n/g" *)
Definition newline : RegExp := mkRegExp (Char cNL) true false false.

(** "/(\$\$[\s\S]*?\$\$|\$[\s\S]*?\$)/g" *)
Definition math : RegExp :=
  mkRegExp (Group 1 ((lit "$$" ;; lazy_star any ;; lit "$$")
                     <|> (Ch "$" ;; lazy_star any ;; Ch "$"))) true false false.

End Re.

(** An argument of a callback.  Every capturing parenthesis of the two
    literals that have a callback lies on every path through them, so a
    callback never receives [undefined]. *)
Definition arg (captures : list (option jsstring)) (n : nat) : jsstring :=
  capture_text captures n.

(** [code.replace(/</g, '&lt;').replace(/>/g, '&gt;')] *)
Definition escape_code (code : jsstring) : jsstring :=
  replace_tmpl Re.gt (str "&gt;") (replace_tmpl Re.lt (str "&lt;") code).

(** The callback of the fenced-code rule. *)
Definition fence_callback (matched : jsstring) (captures : list (option jsstring)) : jsstring :=
  let lang := arg captures 1 in
  let code := arg captures 2 in
  let escapedCode := escape_code code in
  str "<pre><code class=" ++ dq ++ str "language-" ++ lang ++ dq ++ str ">"
    ++ trim escapedCode ++ str "</code></pre>".

(** The callback of the table rule. *)
Definition table_callback (matched : jsstring) (captures : list (option jsstring)) : jsstring :=
  let header := arg captures 1 in
  let body := arg captures 3 in
  let headers :=
    join_empty (map (fun h => str "<th>" ++ trim h ++ str "</th>")
                    (array_slice 1 (-1) (split_on cPipe header))) in
  let rows :=
    join_empty (map (fun rowStr =>
                       let cells :=
                         join_empty (map (fun c => str "<td>" ++ trim c ++ str "</td>")
                                         (array_slice 1 (-1) (split_on cPipe rowStr))) in
                       str "<tr>" ++ cells ++ str "</tr>")
                    (split_on cNL (trim body))) in
  str "<table><thead><tr>" ++ headers ++ str "</tr></thead><tbody>" ++ rows
    ++ str "</tbody></table>".

(** The single rules, in the order of the source. *)
Definition heading_rule (level : string) (hashes : string) : jsstring -> jsstring :=
  replace_tmpl (Re.heading hashes) (str ("<h" ++ level ++ ">$1</h" ++ level ++ ">")).

Definition headings (s : jsstring) : jsstring :=
  heading_rule "1" "#" (heading_rule "2" "##" (heading_rule "3" "###"
    (heading_rule "4" "####" (heading_rule "5" "#####" (heading_rule "6" "######" s))))).

Definition fences : jsstring -> jsstring := replace_fn Re.fence fence_callback.
Definition tables : jsstring -> jsstring := replace_fn Re.table table_callback.
Definition blockquotes : jsstring -> jsstring :=
  replace_tmpl Re.blockquote (str "<blockquote>$1</blockquote>").
Definition unordered_items : jsstring -> jsstring :=
  replace_tmpl Re.unordered (str "<ul><li>$2</li></ul>").
Definition ordered_items : jsstring -> jsstring :=
  replace_tmpl Re.ordered (str "<ol><li>$2</li></ol>").
Definition merge_ul_rule : jsstring -> jsstring := replace_tmpl Re.merge_ul [].
Definition merge_ol_rule : jsstring -> jsstring := replace_tmpl Re.merge_ol [].

Definition bold_rule : jsstring -> jsstring := replace_tmpl Re.bold (str "<strong>$1</strong>").
Definition italic_rule : jsstring -> jsstring := replace_tmpl Re.italic (str "<em>$1</em>").
Definition strike_rule : jsstring -> jsstring := replace_tmpl Re.strike (str "<del>$1</del>").
Definition inline_code : jsstring -> jsstring :=
  replace_tmpl Re.code
    (str "<code class=" ++ dq
       ++ str "bg-slate-200 dark:bg-slate-900 text-amber-600 dark:text-amber-400 px-1.5 py-1 rounded text-sm font-mono"
       ++ dq ++ str ">$1</code>").
Definition links : jsstring -> jsstring :=
  replace_tmpl Re.link
    (str "<a href=" ++ dq ++ str "$2" ++ dq ++ str " target=" ++ dq ++ str "_blank" ++ dq
       ++ str " rel=" ++ dq ++ str "noopener noreferrer" ++ dq
       ++ str " class=" ++ dq ++ str "text-brand hover:underline" ++ dq ++ str ">$1</a>").

(** The callback of the paragraph pass. *)
Definition wrap_paragraph (paragraph : jsstring) : jsstring :=
  match trim paragraph with
  | [] => []
  | _ =>
      if regex_test Re.block_tag [] (trim paragraph) then paragraph
      else str "<p>" ++ replace_tmpl Re.newline (str "<br>") (trim paragraph) ++ str "</p>"
  end.

Definition paragraphs (s : jsstring) : jsstring :=
  join_empty (map wrap_paragraph (regex_split Re.blank_lines s)).

(** The four list rules: the two item rules, then the two merges. *)
Definition list_rules (s : jsstring) : jsstring :=
  merge_ol_rule (merge_ul_rule (ordered_items (unordered_items s))).

Definition block_rules (markdown : jsstring) : jsstring :=
  list_rules (blockquotes (tables (fences (headings markdown)))).

Definition inline_rules (html : jsstring) : jsstring :=
  links (inline_code (strike_rule (italic_rule (bold_rule html)))).

Definition markdownToHTML (markdown : jsstring) : jsstring :=
  paragraphs (inline_rules (block_rules markdown)).

(** ** The math shielding pass of [renderContent] *)

Definition placeholder : jsstring := str "___MATHJAX_PLACEHOLDER___".

(** [`${placeholder}${index}${placeholder}`] *)
Definition token (index : nat) : jsstring :=
  placeholder ++ number_to_string index ++ placeholder.

(** The callback of the extraction; its state is the array [mathBlocks]. *)
Definition shield : replacer (list jsstring) :=
  fun mathBlocks matched _ _ _ =>
    let index := length mathBlocks in
    (mathBlocks ++ [matched], token index).

(** The [text.replace] of the math literal with the callback above: the
    shielded text and [mathBlocks] afterwards. *)
Definition extract (text : jsstring) : jsstring * list jsstring :=
  let '(mathBlocks, textWithPlaceholders) := replace_with Re.math shield [] text in
  (textWithPlaceholders, mathBlocks).

(** The [forEach] of the restoration, from index [index] on. *)
Fixpoint restore_from (index : nat) (mathBlocks : list jsstring) (html : jsstring) : jsstring :=
  match mathBlocks with
  | [] => html
  | block :: blocks =>
      restore_from (S index) blocks (replace_string (token index) block html)
  end.

Definition restore (html : jsstring) (mathBlocks : list jsstring) : jsstring :=
  restore_from 0 mathBlocks html.

(** [renderContent]: [None] is the [null] returned for an empty text,
    otherwise the markup handed to the [div]. *)
Definition renderContent (text : jsstring) : option jsstring :=
  match text with
  | [] => None
  | _ =>
      let '(textWithPlaceholders, mathBlocks) := extract text in
      Some (restore (markdownToHTML textWithPlaceholders) mathBlocks)
  end.

(** [String.prototype.includes] *)
Fixpoint includes (pat s : jsstring) : bool :=
  is_prefix pat s ||
  match s with
  | [] => false
  | _ :: s' => includes pat s'
  end.

(** Lines joined by a line feed, for writing inputs of several lines. *)
Fixpoint lines (ls : list jsstring) : jsstring :=
  match ls with
  | [] => []
  | [l] => l
  | l :: ls' => l ++ cNL :: lines ls'
  end.

(** ** The message component around the renderer *)

(** The types of [types.ts] that the component reads. *)
Module Types.

Inductive Role : Type := user | model.

Record FileInfo : Type := mkFile {
  name : jsstring;
  dataUrl : jsstring;
  mimeType : jsstring
}.

Record Message : Type := mkMessage {
  role : Role;
  text : jsstring;
  file : option FileInfo;
  flashcards : option (list (jsstring * jsstring))
}.

End Types.

(** The properties of the component; a callback is modelled by whether
    it is given. *)
Record ChatMessageProps : Type := mkProps {
  message : Types.Message;
  isLastMessage : bool;
  isLoading : bool;
  onFollowUpClick : bool;
  onApplySchedule : bool;
  onOpenFlashcards : bool
}.

(** Truth of a string: it is not empty. *)
Definition truthy (s : jsstring) : bool :=
  match s with [] => false | _ => true end.

Definition is_model (r : Types.Role) : bool :=
  match r with Types.model => true | Types.user => false end.

Definition isUser (p : ChatMessageProps) : bool :=
  negb (is_model (Types.role (message p))).

Fixpoint string_eqb (s t : jsstring) : bool :=
  match s, t with
  | [], [] => true
  | a :: s', b :: t' => (a =? b) && string_eqb s' t'
  | _, _ => false
  end.

(** *** The typing animation *)

(** The delay before the next code unit is shown. [Typing] is the base
    speed [25 + Math.random() * 20]; a pause is a number of
    milliseconds. *)
Inductive delay : Type := Typing | Pause (ms : nat).

(** [nextChar] is [message.text[displayedText.length]]. *)
Definition typing_delay (nextChar : N) : delay :=
  if existsb (N.eqb nextChar) (str ".?!,;:") then Pause 250
  else if nextChar =? cNL then Pause 150
  else Typing.

(** What one run of the effect asks for: a new displayed text at once,
    one after a delay, or nothing. *)
Inductive update : Type :=
| SetNow (displayedText : jsstring)
| SetAfter (d : delay) (displayedText : jsstring)
| NoUpdate.

Definition shouldAnimate (p : ChatMessageProps) : bool :=
  is_model (Types.role (message p)) && isLastMessage p && isLoading p.

(** The effect of the typing animation, for the current displayed text.
    Below the length of the text [message.text[displayedText.length]] is
    always there. *)
Definition typing_effect (p : ChatMessageProps) (displayedText : jsstring) : update :=
  let text := Types.text (message p) in
  if negb (shouldAnimate p) then SetNow text
  else if (length displayedText <? length text)%nat then
    match nth_error text (length displayedText) with
    | Some nextChar =>
        SetAfter (typing_delay nextChar) (firstn (length displayedText + 1) text)
    | None => NoUpdate
    end
  else if negb (isLoading p) && negb (string_eqb displayedText text) then SetNow text
  else NoUpdate.

(** What the animation keeps between the runs of the effect: the state
    variable [displayedText], and the timer of [timeoutRef.current] as
    long as it has neither fired nor been cleared, with its delay and the
    text that its callback [typeNextChar] is to set.  The callback holds
    the [message.text] and the [displayedText] of the run that made it. *)
Record typing_state : Type := mkTyping {
  displayed : jsstring;
  timeout : option (delay * jsstring)
}.

(** What happens to a mounted component: it is rendered with the
    properties [p] and the effect runs (React runs it after a render in
    which one of its dependencies has changed, the cleanup of the run
    before it first), or the pending timer fires. *)
Inductive typing_event : Type :=
| Render (p : ChatMessageProps)
| TimerFires.

(** A run of the effect on the current state.  The cleanup of the run
    before and the first lines of this one clear the pending timer; the
    run sets the text itself only where it does not animate, and
    otherwise leaves at most a new timer. *)
Definition run_effect (p : ChatMessageProps) (st : typing_state) : typing_state :=
  match typing_effect p (displayed st) with
  | SetNow text => mkTyping text None
  | SetAfter d text => mkTyping (displayed st) (Some (d, text))
  | NoUpdate => mkTyping (displayed st) None
  end.

(** The timer fires: its callback sets the text it was made with.  A
    timer that was cleared does not fire. *)
Definition typeNextChar (st : typing_state) : typing_state :=
  match timeout st with
  | Some (_, text) => mkTyping text None
  | None => st
  end.

Definition typing_step (st : typing_state) (e : typing_event) : typing_state :=
  match e with
  | Render p => run_effect p st
  | TimerFires => typeNextChar st
  end.

(** The state after the events [evs], the first one first. *)
Definition typing_events (evs : list typing_event) (st : typing_state) : typing_state :=
  fold_left typing_step evs st.

(** [n] rounds in which nothing overtakes the timer: the effect runs with
    the properties [p], and its timer fires before the next render. *)
Fixpoint rounds (n : nat) (p : ChatMessageProps) : list typing_event :=
  match n with
  | O => []
  | S n' => Render p :: TimerFires :: rounds n' p
  end.







(** *** Reading aloud *)

(** "/\$|\\\(|\\\)|\\\[|\\\]/g" *)
Definition math_marks : RegExp :=
  mkRegExp (Alt (Ch "$")
             (Alt (Seq (Char 92) (Ch "("))
               (Alt (Seq (Char 92) (Ch ")"))
                 (Alt (Seq (Char 92) (Ch "[")) (Seq (Char 92) (Ch "]"))))))
           true false false.

Definition textToSpeak (text : jsstring) : jsstring := replace_tmpl math_marks [] text.

(** What the handler asks of the speech synthesis. *)
Inductive speech_call : Type :=
| Cancel
| Speak (utterance lang : jsstring).

(** [handleToggleSpeech]: the call made and the new [isSpeaking]. *)
Definition handleToggleSpeech (isSpeaking : bool) (p : ChatMessageProps)
    : speech_call * bool :=
  if isSpeaking then (Cancel, false)
  else (Speak (textToSpeak (Types.text (message p))) (str "vi-VN"), true).

(** *** What the component shows *)

Definition textToDisplay (p : ChatMessageProps) (displayedText : jsstring) : jsstring :=
  if isUser p then Types.text (message p) else displayedText.

Definition isTyping (p : ChatMessageProps) : bool :=
  isLastMessage p && isLoading p && is_model (Types.role (message p))
  && (0 <? length (Types.text (message p)))%nat.

(** The message is settled: not the last one, or no longer loading. *)
Definition settled (p : ChatMessageProps) : bool :=
  negb (isLastMessage p) || negb (isLoading p).

Definition isStableBotMessage (p : ChatMessageProps) : bool :=
  is_model (Types.role (message p)) && settled p.

Definition showFollowUpActions (p : ChatMessageProps) : bool :=
  negb (isUser p) && settled p && truthy (Types.text (message p)) && onFollowUpClick p.

Definition showApplyScheduleButton (p : ChatMessageProps) : bool :=
  negb (isUser p) && settled p && includes (str "|") (Types.text (message p))
  && includes (str "---") (Types.text (message p)) && onApplySchedule p.

Definition showOpenFlashcardsButton (p : ChatMessageProps) : bool :=
  negb (isUser p)
  && match Types.flashcards (message p) with
     | Some cards => (0 <? length cards)%nat
     | None => false
     end
  && onOpenFlashcards p.

(** The speaker and share buttons. *)
Definition showSpeechButtons (p : ChatMessageProps) : bool :=
  negb (isUser p) && truthy (Types.text (message p)) && settled p.

(** The component returns [null]. *)
Definition rendersNothing (p : ChatMessageProps) (displayedText : jsstring) : bool :=
  negb (truthy (textToDisplay p displayedText)) && is_model (Types.role (message p))
  && negb (isTyping p)
  && match Types.file (message p) with Some _ => false | None => true end.

(** ** The vocabulary of the statements and of their proofs *)

Definition absent (ch : N) (s : jsstring) : bool := negb (existsb (N.eqb ch) s).

Definition no_line_end (s : jsstring) : bool :=
  forallb (fun c => negb (is_line_terminator c)) s.

(** What a regular expression demands of the state it starts in: the
    assertion or the literal character it opens with. *)
Fixpoint first_ok (ml : bool) (r : regex) (x : mstate) : bool :=
  match r with
  | Char ch => match after x with a :: _ => a =? ch | [] => false end
  | Bol => at_bol ml x
  | Seq r1 r2 =>
      first_ok ml r1 x && match r1 with Bol => first_ok ml r2 x | _ => true end
  | Alt r1 r2 => first_ok ml r1 x || first_ok ml r2 x
  | Group _ r' => first_ok ml r' x
  | _ => true
  end.

(** The capturing parentheses that every match through [r] has set at
    its end. *)
Fixpoint sure_groups (r : regex) : list nat :=
  match r with
  | Seq r1 r2 =>
      filter (fun n => negb (existsb (Nat.eqb n) (group_ids r2))) (sure_groups r1)
        ++ sure_groups r2
  | Group n r' => n :: sure_groups r'
  | _ => []
  end.

(** No match begins inside [p], read in front of [q] and behind [bef]. *)
Definition quiet (re : RegExp) (bef p q : jsstring) : Prop :=
  forall p1 a p2, p = p1 ++ a :: p2 ->
    match_at re (rev p1 ++ bef) (a :: p2 ++ q) = None.

(** What a single-character item accepts. *)
Definition atom_pred (r : regex) : option (N -> bool) :=
  match r with
  | Char ch => Some (fun a => a =? ch)
  | Dot => Some (fun a => negb (is_line_terminator a))
  | Class inv atoms => Some (class_matches inv atoms)
  | _ => None
  end.

(** The order in which a greedy quantifier offers the run [l] to its
    continuation: all of it first, then one code unit less, and so on. *)
Fixpoint greedy_try (c : cont) (bef l rest : jsstring) (cs : list (nat * jsstring))
    : option mstate :=
  match l with
  | [] => c (mkState bef rest cs)
  | a :: l' =>
      or_else (greedy_try c (a :: bef) l' rest cs)
              (fun _ => c (mkState bef (l ++ rest) cs))
  end.

(** The order of a lazy quantifier: nothing first, then one code unit
    more, and so on. *)
Fixpoint lazy_try (c : cont) (bef l rest : jsstring) (cs : list (nat * jsstring))
    : option mstate :=
  match l with
  | [] => c (mkState bef rest cs)
  | a :: l' =>
      or_else (c (mkState bef (l ++ rest) cs))
              (fun _ => lazy_try c (a :: bef) l' rest cs)
  end.

(** [rest] does not go on with a code unit that [P] accepts. *)
Definition stops (P : N -> bool) (rest : jsstring) : Prop :=
  match rest with
  | [] => True
  | a :: _ => P a = false
  end.

(** A matcher hands its continuation only states that are not behind the
    one it started in, so it cannot tell two continuations that agree
    from there on. *)
Definition forward (mr : matcher) : Prop :=
  forall x c c',
    (forall y, (length (after y) <= length (after x))%nat -> c y = c' y) ->
    mr x c = mr x c'.

(** What the specification asks of the escaping, character by character:
    [<] and [>] become their entities and nothing else changes. *)
Definition escape_char (c : N) : jsstring :=
  if c =? cLT then str "&lt;" else if c =? cGT then str "&gt;" else [c].

Definition escape_spec (code : jsstring) : jsstring := flat_map escape_char code.

Inductive list_kind : Type := Unordered | Ordered.

Definition list_tag (k : list_kind) : jsstring :=
  match k with Unordered => str "ul" | Ordered => str "ol" end.

(** A list line of the input: its indentation, its marker (one of [*]
    and [-], or a run of digits) and the text of the item. *)
Record list_line : Type := mkLine {
  indent : jsstring;
  marker : jsstring;
  text : jsstring
}.

Definition line_text (k : list_kind) (it : list_line) : jsstring :=
  match k with
  | Unordered => indent it ++ marker it ++ 32 :: text it
  | Ordered => indent it ++ marker it ++ 46 :: 32 :: text it
  end.

Definition marker_ok (k : list_kind) (mk : jsstring) : bool :=
  match k, mk with
  | Unordered, [c] => (c =? 42) || (c =? 45)
  | Ordered, _ :: _ => forallb is_digit mk
  | _, _ => false
  end.

(** A line that the item rule of kind [k] reads as one item, with a text
    that brings no tag of its own. *)
Definition line_ok (k : list_kind) (it : list_line) : bool :=
  forallb is_white_space (indent it) && marker_ok k (marker it)
  && no_line_end (text it) && absent cLT (text it).

(** The characters on which a rule of the converter acts. *)
Definition markup_chars : jsstring := str "#`|<>*~[".

Definition plain (s : jsstring) : bool :=
  no_line_end s && forallb (fun ch => absent ch s) markup_chars.

(** What an item rule writes for one line. *)
Definition item_line (k : list_kind) (it : list_line) : jsstring :=
  60 :: list_tag k ++ str "><li>" ++ text it ++ str "</li></" ++ list_tag k ++ [62].

Definition item_html (it : list_line) : jsstring :=
  str "<li>" ++ text it ++ str "</li>".

(** One list element around all the items. *)
Definition list_html (k : list_kind) (items : list list_line) : jsstring :=
  60 :: list_tag k ++ 62 :: concat (map item_html items) ++ str "</" ++ list_tag k ++ [62].

Definition merge_re (k : list_kind) : RegExp :=
  match k with Unordered => Re.merge_ul | Ordered => Re.merge_ol end.

Definition merge_rule (k : list_kind) : jsstring -> jsstring :=
  match k with Unordered => merge_ul_rule | Ordered => merge_ol_rule end.

(** The lines of the item rule behind the first opening tag. *)
Fixpoint list_body (k : list_kind) (it : list_line) (its : list list_line) : jsstring :=
  item_html it ++ str "</" ++ list_tag k ++ 62 ::
  match its with
  | [] => []
  | it' :: its' => cNL :: 60 :: list_tag k ++ 62 :: list_body k it' its'
  end.

Definition line_start (bef : jsstring) : Prop :=
  match bef with
  | [] => True
  | c :: _ => is_line_terminator c = true
  end.

(** [q] is empty or begins with a line end. *)
Definition line_end (q : jsstring) : Prop :=
  stops (fun a => negb (is_line_terminator a)) q.

Definition tail_lines (ls : list jsstring) : jsstring :=
  match ls with
  | [] => []
  | _ => cNL :: lines ls
  end.

(** What reading aloud leaves out, read from left to right: every [$]
    and every backslash that one of [( ) [ ]] follows, with that
    character. *)
Fixpoint strip_marks (s : jsstring) : jsstring :=
  match s with
  | [] => []
  | a :: r =>
      if a =? 36 then strip_marks r
      else if a =? 92 then
        match r with
        | b :: r' =>
            if existsb (N.eqb b) (str "()[]") then strip_marks r' else a :: strip_marks r
        | [] => [a]
        end
      else a :: strip_marks r
  end.

(** A text of white space only. *)
Definition all_space (s : jsstring) : bool := forallb is_space s.

(** A line of plain text that does not open like a list item. *)
Definition ordinary_line (l : jsstring) : bool :=
  plain l &&
  match l with
  | c :: _ => negb (is_space c) && negb (c =? 45) && negb (is_digit c)
  | [] => false
  end.

(** What the paragraph pass writes for a code unit of the paragraph. *)
Definition line_break (c : N) : jsstring := if c =? cNL then str "<br>" else [c].

(** *** Blocks, documents, inline markup and formulas *)

Definition heading_levels : list (string * string) :=
  [("1", "#"); ("2", "##"); ("3", "###"); ("4", "####"); ("5", "#####"); ("6", "######")]%string.

Definition heading_line (hashes : string) (t : jsstring) : jsstring :=
  str hashes ++ 32 :: t.

Definition heading_html (level : string) (t : jsstring) : jsstring :=
  str "<h" ++ str level ++ 62 :: t ++ str "</h" ++ str level ++ [62].

Definition quote_line (t : jsstring) : jsstring := str "> " ++ t.

Definition quote_html (t : jsstring) : jsstring :=
  str "<blockquote>" ++ t ++ str "</blockquote>".

(** The lines of a block: text, a heading, or a quotation. *)
Inductive block_line : Type :=
  | Text (l : jsstring)
  | Heading (level hashes : string) (t : jsstring)
  | Quote (t : jsstring).

Definition line_source (b : block_line) : jsstring :=
  match b with
  | Text l => l
  | Heading _ hashes t => heading_line hashes t
  | Quote t => quote_line t
  end.

Definition line_html (b : block_line) : jsstring :=
  match b with
  | Text l => l
  | Heading level _ t => heading_html level t
  | Quote t => quote_html t
  end.

(** How a line of text opens: with a code unit that starts no block. *)
Definition opens_text (l : jsstring) : Prop :=
  match l with
  | c :: _ =>
      is_space c = false /\ is_digit c = false /\
      (c =? 35) = false /\ (c =? 62) = false /\ (c =? 60) = false /\
      (c =? 42) = false /\ (c =? 45) = false
  | [] => False
  end.

(** What a line holds while the block rules run: no line end, no bar
    and no tag. *)
Definition content_ok (t : jsstring) : Prop :=
  no_line_end t = true /\ absent cPipe t = true /\ absent cLT t = true.

Definition block_line_ok (b : block_line) : Prop :=
  match b with
  | Text l => opens_text l /\ content_ok l
  | Heading level hashes t => In (level, hashes) heading_levels /\ content_ok t
  | Quote t => content_ok t
  end.

(** What a line holds when the paragraph pass runs. *)
Definition shown_ok (b : block_line) : Prop :=
  match b with
  | Text l => opens_text l /\ no_line_end l = true
  | Heading level hashes t => In (level, hashes) heading_levels /\ no_line_end t = true
  | Quote t => no_line_end t = true
  end.

(** A line after the first [n] of the six heading rules, which run from
    six [#] down to one. *)
Definition line_after (n : nat) (b : block_line) : jsstring :=
  match b with
  | Text l => l
  | Heading level hashes t =>
      if (6 <? String.length hashes + n)%nat then heading_html level t
      else heading_line hashes t
  | Quote t => quote_line t
  end.

(** A line that opens with a code unit other than white space. *)
Definition solid (l : jsstring) : bool :=
  match l with
  | c :: _ => negb (is_space c) && no_line_end l
  | [] => false
  end.

(** What a block of text, heading and quotation lines becomes: a block
    that opens with text is one paragraph, any other is left bare. *)
Definition block_html (ls : list block_line) : jsstring :=
  match ls with
  | Text _ :: _ =>
      str "<p>" ++ flat_map line_break (trim (lines (map line_html ls))) ++ str "</p>"
  | _ => lines (map line_html ls)
  end.

(** A row of a document: a line, or nothing for an empty line. *)
Definition row_text {T A : Type} (f : T -> list A) (o : option T) : list A :=
  match o with
  | Some t => f t
  | None => []
  end.

Definition row_ok {T : Type} (ok : T -> Prop) (o : option T) : Prop :=
  match o with
  | Some t => ok t
  | None => True
  end.

(** How a line opens that neither item rule reads as an item, behind
    any run of white space. *)
Definition opens_no_item (rest : jsstring) : Prop :=
  match rest with
  | [] => True
  | c :: _ => is_space c = false /\ (c =? 42) = false /\ (c =? 45) = false /\ is_digit c = false
  end.

Definition block_openers : list jsstring :=
  [str "<h1>"; str "<h2>"; str "<h3>"; str "<h4>"; str "<h5>"; str "<h6>";
   str "<blockquote>"].

(** The line ends between two blocks: an empty line, or more. *)
Definition gap (n : nat) : jsstring := repeat cNL (2 + n).

(** A document: a first block, and further blocks, each behind a number
    of extra empty lines.  [f] writes a line. *)
Definition doc_text {T : Type} (f : T -> jsstring)
    (first : list T) (rest : list (nat * list T)) : jsstring :=
  lines (map f first) ++ flat_map (fun p => gap (fst p) ++ lines (map f (snd p))) rest.

Definition doc_rows {T : Type} (first : list T) (rest : list (nat * list T))
    : list (option T) :=
  map Some first ++ flat_map (fun p => repeat None (1 + fst p) ++ map Some (snd p)) rest.

(** A block: lines, and at least one. *)
Definition block_of {T : Type} (ok : T -> Prop) (ls : list T) : Prop :=
  ls <> [] /\ Forall ok ls.

Definition doc_html (first : list block_line) (rest : list (nat * list block_line))
    : jsstring :=
  block_html first ++ flat_map (fun p => block_html (snd p)) rest.

(** The pieces of a line: plain text and the five kinds of inline
    markup. *)
Inductive inline : Type :=
  | Plain (s : jsstring)
  | Bold (t : jsstring)
  | Italic (t : jsstring)
  | Strike (t : jsstring)
  | Code (t : jsstring)
  | Link (t url : jsstring).

Definition code_open : jsstring :=
  str "<code class=" ++ dq
    ++ str "bg-slate-200 dark:bg-slate-900 text-amber-600 dark:text-amber-400 px-1.5 py-1 rounded text-sm font-mono"
    ++ dq ++ str ">".

Definition link_attributes : jsstring :=
  str " target=" ++ dq ++ str "_blank" ++ dq
    ++ str " rel=" ++ dq ++ str "noopener noreferrer" ++ dq
    ++ str " class=" ++ dq ++ str "text-brand hover:underline" ++ dq ++ str ">".

(** A piece as it is written. *)
Definition inline_source (x : inline) : jsstring :=
  match x with
  | Plain s => s
  | Bold t => [42; 42] ++ t ++ [42; 42]
  | Italic t => [42] ++ t ++ [42]
  | Strike t => [126; 126] ++ t ++ [126; 126]
  | Code t => [96] ++ t ++ [96]
  | Link t url => [91] ++ t ++ [93; 40] ++ url ++ [41]
  end.

(** A piece as it is meant to come out. *)
Definition inline_html (x : inline) : jsstring :=
  match x with
  | Plain s => s
  | Bold t => str "<strong>" ++ t ++ str "</strong>"
  | Italic t => str "<em>" ++ t ++ str "</em>"
  | Strike t => str "<del>" ++ t ++ str "</del>"
  | Code t => code_open ++ t ++ str "</code>"
  | Link t url => str "<a href=" ++ dq ++ url ++ dq ++ link_attributes ++ t ++ str "</a>"
  end.

(** The place of the rule of a piece among the five inline rules. *)
Definition rule_index (x : inline) : nat :=
  match x with
  | Plain _ => 0
  | Bold _ => 1
  | Italic _ => 2
  | Strike _ => 3
  | Code _ => 4
  | Link _ _ => 5
  end.

(** A piece after the first [n] inline rules. *)
Definition inline_after (n : nat) (x : inline) : jsstring :=
  if (rule_index x <=? n)%nat then inline_html x else inline_source x.

Definition rich_text (f : inline -> jsstring) (xs : list inline) : jsstring :=
  concat (map f xs).

(** The text inside a piece of markup: plain, and not empty. *)
Definition marked (t : jsstring) : Prop := t <> [] /\ plain t = true.

Definition markup_ok (x : inline) : Prop :=
  match x with
  | Plain _ => True
  | Bold t | Italic t | Strike t | Code t => marked t
  | Link t url => marked t /\ absent 93 t = true /\ marked url /\ absent 41 url = true
  end.

(** Text that no inline rule reads: it holds none of the star, the
    tilde, the backquote and the opening bracket. *)
Definition inert (s : jsstring) : Prop :=
  absent 42 s = true /\ absent 126 s = true /\ absent 96 s = true /\ absent 91 s = true.

Definition piece_ok (P : jsstring -> Prop) (x : inline) : Prop :=
  match x with
  | Plain s => P s
  | _ => markup_ok x
  end.

Definition is_span (x : inline) : Prop :=
  match x with
  | Plain _ => False
  | _ => True
  end.

(** Plain text, and not empty, is what follows. *)
Definition opens_plain (xs : list inline) : Prop :=
  match xs with
  | [] => True
  | Plain (_ :: _) :: _ => True
  | _ => False
  end.

(** Pieces in a row: behind a piece of markup stands plain text, or
    nothing.  [P] is what holds of the plain text. *)
Fixpoint pieces_ok (P : jsstring -> Prop) (xs : list inline) : Prop :=
  match xs with
  | [] => True
  | x :: xs' => piece_ok P x /\ (is_span x -> opens_plain xs') /\ pieces_ok P xs'
  end.

(** What may follow a piece of markup, as a text. *)
Definition opens_calm (q : jsstring) : Prop :=
  match q with
  | [] => True
  | c :: _ => (c =? 42) = false /\ (c =? 96) = false
  end.

(** A line whose text is made of pieces. *)
Inductive rich_line : Type :=
  | RText (xs : list inline)
  | RHeading (level hashes : string) (xs : list inline)
  | RQuote (xs : list inline).

Definition with_text (f : list inline -> jsstring) (r : rich_line) : block_line :=
  match r with
  | RText xs => Text (f xs)
  | RHeading level hashes xs => Heading level hashes (f xs)
  | RQuote xs => Quote (f xs)
  end.

(** The line as it is written, and as it is meant to come out. *)
Definition raw_line : rich_line -> block_line := with_text (rich_text inline_source).
Definition cooked_line : rich_line -> block_line := with_text (rich_text inline_html).

Definition rich_source (r : rich_line) : jsstring := line_source (raw_line r).

Definition plain_text (s : jsstring) : Prop := plain s = true.

Definition rich_line_ok (r : rich_line) : Prop :=
  match r with
  | RText xs =>
      match xs with
      | Plain p :: _ => ordinary_line p = true
      | _ => False
      end /\ pieces_ok plain_text xs
  | RHeading level hashes xs => In (level, hashes) heading_levels /\ pieces_ok plain_text xs
  | RQuote xs => pieces_ok plain_text xs
  end.

(** The pieces of a line once the heading rules have run, and once the
    blockquote rule has run as well: the tags are plain pieces. *)
Definition stage_pieces (quoted : bool) (r : rich_line) : list inline :=
  match r with
  | RText xs => xs
  | RHeading level _ xs =>
      Plain (str "<h" ++ str level ++ [62]) :: xs ++ [Plain (str "</h" ++ str level ++ [62])]
  | RQuote xs =>
      if quoted then Plain (str "<blockquote>") :: xs ++ [Plain (str "</blockquote>")]
      else Plain (str "> ") :: xs
  end.

(** The pieces of rows: a line end is a plain piece. *)
Fixpoint rows_pieces (pcs : rich_line -> list inline) (rows : list (option rich_line))
    : list inline :=
  match rows with
  | [] => []
  | [o] => row_text pcs o
  | o :: rows' => row_text pcs o ++ Plain [cNL] :: rows_pieces pcs rows'
  end.

Definition rich_doc_html (first : list rich_line) (rest : list (nat * list rich_line))
    : jsstring :=
  block_html (map cooked_line first)
    ++ flat_map (fun p => block_html (map cooked_line (snd p))) rest.

(** A formula as the math literal reads it: between single dollars, or
    between double dollars. *)
Inductive math_span : Type :=
  | InlineMath (body : jsstring)
  | DisplayMath (body : jsstring).

Definition span_text (sp : math_span) : jsstring :=
  match sp with
  | InlineMath body => [36] ++ body ++ [36]
  | DisplayMath body => [36; 36] ++ body ++ [36; 36]
  end.

Definition span_ok (sp : math_span) : Prop :=
  match sp with
  | InlineMath body => body <> [] /\ absent cDollar body = true
  | DisplayMath body => absent cDollar body = true
  end.

(** A text with formulas: each formula behind a stretch of text, and a
    last stretch of text. *)
Fixpoint math_source (segs : list (jsstring * math_span)) (tail : jsstring) : jsstring :=
  match segs with
  | [] => tail
  | (t, sp) :: segs' => t ++ span_text sp ++ math_source segs' tail
  end.

(** The same text with the token of its index for each formula, the
    first index being [i]. *)
Fixpoint shielded (i : nat) (segs : list (jsstring * math_span)) (tail : jsstring)
    : jsstring :=
  match segs with
  | [] => tail
  | (t, _) :: segs' => t ++ token i ++ shielded (S i) segs' tail
  end.

(** The decimal numeral of [n], the most significant digit first: its
    last digit is the remainder of [n] by ten, the digits before it are
    the numeral of the quotient, if that is not zero.  [fuel] bounds the
    number of digits. *)
Fixpoint decimal_from (fuel n : nat) : jsstring :=
  match fuel with
  | O => []
  | S fuel' =>
      (if (n <? 10)%nat then [] else decimal_from fuel' (n / 10))
        ++ [48 + N.of_nat (n mod 10)]
  end.

Definition decimal (n : nat) : jsstring := decimal_from (S n) n.

(** The token of index [i] written out: the literal, the index in
    decimal, the literal. *)
Definition numbered_token (i : nat) : jsstring :=
  str "___MATHJAX_PLACEHOLDER___" ++ decimal i ++ str "___MATHJAX_PLACEHOLDER___".

(** The text of [segs] and [tail] with the written-out token of its
    number in the place of each formula, the first number being [i]. *)
Fixpoint numbered (i : nat) (segs : list (jsstring * math_span)) (tail : jsstring)
    : jsstring :=
  match segs with
  | [] => tail
  | (t, _) :: segs' => t ++ numbered_token i ++ numbered (S i) segs' tail
  end.

(** The characters of a numeral of the library. *)
Definition uint_chars (d : Decimal.uint) : jsstring := str (NilEmpty.string_of_uint d).

Definition seg_ok (seg : jsstring * math_span) : Prop :=
  absent cDollar (fst seg) = true /\ span_ok (snd seg).

(** No three underscores in a row: nothing in such a text reads as the
    start of a token. *)
Definition calm (s : jsstring) : bool := negb (includes (str "___") s).

(** What stands for a formula after the restoration: the body between
    single dollars. *)
Definition span_shown (sp : math_span) : jsstring :=
  match sp with
  | InlineMath body => [36] ++ body ++ [36]
  | DisplayMath body => [36] ++ body ++ [36]
  end.

Fixpoint math_shown (segs : list (jsstring * math_span)) (tail : jsstring) : jsstring :=
  match segs with
  | [] => tail
  | (t, sp) :: segs' => t ++ span_shown sp ++ math_shown segs' tail
  end.

Definition span_body (sp : math_span) : jsstring :=
  match sp with
  | InlineMath body => body
  | DisplayMath body => body
  end.

(** A body that the replacement patterns of [replace] leave alone: behind
    the opening dollar of an inline formula stands none of [&], the
    backquote and the quote. *)
Definition span_fine (sp : math_span) : Prop :=
  span_ok sp /\ calm (span_body sp) = true /\
  match sp with
  | InlineMath (c :: _) => (c =? 38) = false /\ (c =? 96) = false /\ (c =? 39) = false
  | _ => True
  end.

Definition seg_fine (seg : jsstring * math_span) : Prop :=
  absent cDollar (fst seg) = true /\ calm (fst seg) = true /\ span_fine (snd seg).

(** A text that does not end with an underscore. *)
Definition ends_calm (s : jsstring) : bool := negb (last s 0 =? 95).

(** Cells joined by a separator, as [split] takes them apart. *)
Fixpoint join_char (sep : N) (cells : list jsstring) : jsstring :=
  match cells with
  | [] => []
  | [c] => c
  | c :: cells' => c ++ sep :: join_char sep cells'
  end.

(** A row of a table as it is written: a bar before, between and behind
    the cells. *)
Definition table_row (cells : list jsstring) : jsstring :=
  [cPipe] ++ join_char cPipe cells ++ [cPipe].

Definition th (h : jsstring) : jsstring := str "<th>" ++ trim h ++ str "</th>".
Definition td (c : jsstring) : jsstring := str "<td>" ++ trim c ++ str "</td>".
Definition tr (cells : list jsstring) : jsstring :=
  str "<tr>" ++ concat (map td cells) ++ str "</tr>".

(** The cells of a row: no bar and no line end inside. *)
Definition cells_ok (cells : list jsstring) : Prop :=
  cells <> [] /\ Forall (fun c => absent cPipe c = true /\ absent cNL c = true) cells.

(** ** Worked inputs *)

Section Examples.

Example convert_empty : markdownToHTML [] = [].
Proof. reflexivity. Qed.

Example convert_title : markdownToHTML (str "# Title") = str "<h1>Title</h1>".
Proof. vm_compute. reflexivity. Qed.

Example render_empty : renderContent [] = None.
Proof. reflexivity. Qed.

End Examples.

(** ** The matcher, one step at a time *)

Section MatcherSteps.

Variable ml : bool.

Lemma m_seq r1 r2 x c : m ml (Seq r1 r2) x c = m ml r1 x (fun y => m ml r2 y c).
Proof. reflexivity. Qed.

Lemma m_alt r1 r2 x c :
  m ml (Alt r1 r2) x c = or_else (m ml r1 x c) (fun _ => m ml r2 x c).
Proof. reflexivity. Qed.

Lemma m_group n r x c :
  m ml (Group n r) x c =
  m ml r x (fun y => c (mkState (before y) (after y) ((n, consumed x y) :: caps y))).
Proof. reflexivity. Qed.

Lemma m_char ch bef a aft cs c :
  m ml (Char ch) (mkState bef (a :: aft) cs) c =
  if a =? ch then c (mkState (a :: bef) aft cs) else None.
Proof. reflexivity. Qed.

Lemma m_char_nil ch bef cs c : m ml (Char ch) (mkState bef [] cs) c = None.
Proof. reflexivity. Qed.

Lemma m_bol x c : m ml Bol x c = if at_bol ml x then c x else None.
Proof. reflexivity. Qed.

Lemma clear_caps_nil cs : clear_caps [] cs = cs.
Proof.
  unfold clear_caps. induction cs as [|kv cs IH]; simpl; [reflexivity|].
  now f_equal.
Qed.

Lemma first_ok_caps r bef aft cs cs' :
  first_ok ml r (mkState bef aft cs) = first_ok ml r (mkState bef aft cs').
Proof.
  induction r as [|ch| |inv atoms| | |r1 IH1 r2 IH2|r1 IH1 r2 IH2|mn mx g r IH|n r IH];
    simpl; try reflexivity.
  - rewrite IH1. destruct r1; try reflexivity; now rewrite IH2.
  - now rewrite IH1, IH2.
  - assumption.
Qed.

Lemma first_ok_sound r : forall x c, first_ok ml r x = false -> m ml r x c = None.
Proof.
  induction r as [|ch| |inv atoms| | |r1 IH1 r2 IH2|r1 IH1 r2 IH2|mn mx g r IH|n r IH];
    intros x c H; simpl in H; try discriminate.
  - simpl. destruct (after x) as [|a aft]; [reflexivity|]. now rewrite H.
  - simpl. now rewrite H.
  - rewrite m_seq. apply andb_false_iff in H as [H|H].
    + now apply IH1.
    + destruct r1; try discriminate.
      rewrite m_bol. destruct (at_bol ml x); [|reflexivity]. now apply IH2.
  - rewrite m_alt. apply orb_false_iff in H as [H1 H2].
    rewrite (IH1 _ _ H1). simpl. now apply IH2.
  - rewrite m_group. now apply IH.
Qed.

End MatcherSteps.

Lemma match_at_first re bef aft :
  first_ok (multiline re) (source re) (mkState bef aft []) = false ->
  match_at re bef aft = None.
Proof. intros H. unfold match_at. now apply first_ok_sound. Qed.

(** ** The scan of [replace], one position at a time *)

Section Scan.

Context {A : Type}.
Variable re : RegExp.
Variable f : replacer A.

Lemma scan_nil_none acc bef :
  match_at re bef [] = None -> replace_scan re f acc bef [] 0 = (acc, []).
Proof. intros H. simpl. now rewrite H. Qed.

Lemma scan_cons_none acc bef a aft :
  match_at re bef (a :: aft) = None ->
  replace_scan re f acc bef (a :: aft) 0 =
  (fst (replace_scan re f acc (a :: bef) aft 0),
   a :: snd (replace_scan re f acc (a :: bef) aft 0)).
Proof.
  intros H. simpl. rewrite H.
  now destruct (replace_scan re f acc (a :: bef) aft 0).
Qed.

Lemma scan_skip acc l : forall bef rest,
  replace_scan re f acc bef (l ++ rest) (length l) =
  replace_scan re f acc (rev l ++ bef) rest 0.
Proof.
  induction l as [|a l IH]; intros bef rest.
  - reflexivity.
  - simpl length. simpl app. cbn [replace_scan]. rewrite IH.
    now rewrite <- app_assoc.
Qed.

(** A match of [mt], non-empty, followed by [rest]. *)
Lemma scan_hit acc bef mt rest y :
  mt <> [] ->
  match_at re bef (mt ++ rest) = Some y ->
  after y = rest ->
  replace_scan re f acc bef (mt ++ rest) 0 =
  let r1 := f acc mt (captures_of re y) (rev bef) rest in
  let r2 := replace_scan re f (fst r1) (rev mt ++ bef) rest 0 in
  (fst r2, snd r1 ++ snd r2).
Proof.
  intros Hne Hm Hy.
  destruct mt as [|a mt]; [contradiction|].
  assert (Hc : consumed (mkState bef ((a :: mt) ++ rest) []) y = a :: mt).
  { unfold consumed. rewrite Hy. cbn [after].
    rewrite length_app.
    replace (length (a :: mt) + length rest - length rest)%nat with (length (a :: mt)) by lia.
    now rewrite firstn_app, Nat.sub_diag, firstn_all, app_nil_r. }
  assert (Hl : (length ((a :: mt) ++ rest) - length (after y))%nat = S (length mt)).
  { rewrite Hy, length_app. cbn [length]. lia. }
  cbv zeta.
  change ((a :: mt) ++ rest) with (a :: (mt ++ rest)) in *.
  cbn [replace_scan]. rewrite Hm, Hc. rewrite Hy in *.
  destruct (f acc (a :: mt) (captures_of re y) (rev bef) rest) as [acc' rep] eqn:Ef.
  rewrite Hl. rewrite scan_skip. cbn [fst snd].
  simpl rev. rewrite <- app_assoc. simpl.
  now destruct (replace_scan re f acc' (rev mt ++ a :: bef) rest 0).
Qed.

Lemma quiet_nil bef q : quiet re bef [] q.
Proof. intros p1 a p2 H. now destruct p1. Qed.

Lemma quiet_cons bef a p q :
  match_at re bef (a :: p ++ q) = None ->
  quiet re (a :: bef) p q ->
  quiet re bef (a :: p) q.
Proof.
  intros H0 Hq p1 b p2 E. destruct p1 as [|c p1]; simpl in E.
  - injection E as -> ->. exact H0.
  - injection E as -> ->. simpl. rewrite <- app_assoc. simpl.
    now apply Hq.
Qed.

Lemma quiet_app bef p1 p2 q :
  quiet re bef p1 (p2 ++ q) ->
  quiet re (rev p1 ++ bef) p2 q ->
  quiet re bef (p1 ++ p2) q.
Proof.
  revert bef. induction p1 as [|a p1 IH]; intros bef H1 H2.
  - exact H2.
  - simpl. apply quiet_cons.
    + rewrite <- app_assoc. exact (H1 [] a p1 eq_refl).
    + apply IH.
      * intros l b r E. specialize (H1 (a :: l) b r). simpl in H1.
        rewrite <- app_assoc in H1. simpl in H1. apply H1. now rewrite E.
      * simpl in H2. now rewrite <- app_assoc in H2.
Qed.

Lemma scan_quiet acc p : forall bef q,
  quiet re bef p q ->
  replace_scan re f acc bef (p ++ q) 0 =
  (fst (replace_scan re f acc (rev p ++ bef) q 0),
   p ++ snd (replace_scan re f acc (rev p ++ bef) q 0)).
Proof.
  induction p as [|a p IH]; intros bef q Hq.
  - simpl. now destruct (replace_scan re f acc bef q 0).
  - simpl app. rewrite scan_cons_none by exact (Hq [] a p eq_refl).
    rewrite IH.
    + simpl. now rewrite <- app_assoc.
    + intros p1 b p2 E. specialize (Hq (a :: p1) b p2). simpl in Hq.
      rewrite <- app_assoc in Hq. simpl in Hq. apply Hq. now rewrite E.
Qed.

(** A subject in which no match begins is left as it is. *)
Lemma scan_quiet_all acc s bef :
  quiet re bef s [] ->
  match_at re (rev s ++ bef) [] = None ->
  replace_scan re f acc bef s 0 = (acc, s).
Proof.
  intros Hq Hnil.
  rewrite <- (app_nil_r s) at 1. rewrite scan_quiet by assumption.
  rewrite scan_nil_none by assumption. simpl. now rewrite app_nil_r.
Qed.

End Scan.

(** ** Quantifiers over a single-character item *)

Section Quantifiers.

Variable ml : bool.
Variable r : regex.
Variable P : N -> bool.
Hypothesis HP : atom_pred r = Some P.

Lemma m_atom bef aft cs c :
  m ml r (mkState bef aft cs) c =
  match aft with
  | a :: aft' => if P a then c (mkState (a :: bef) aft' cs) else None
  | [] => None
  end.
Proof.
  destruct r; try discriminate; simpl in HP; injection HP as <-;
    destruct aft as [|a aft']; try reflexivity.
  simpl. now destruct (is_line_terminator a).
Qed.

Lemma atom_ids : group_ids r = [].
Proof. destruct r; try discriminate; reflexivity. Qed.

Lemma eqb_length_cons (a : N) (l : jsstring) :
  Nat.eqb (length l) (length (a :: l)) = false.
Proof. apply Nat.eqb_neq. simpl. lia. Qed.

Lemma repeat_greedy c l : forall fuel bef rest cs,
  forallb P l = true -> stops P rest ->
  (length (l ++ rest) < fuel)%nat ->
  repeat_matcher (m ml r) [] fuel 0 None true (mkState bef (l ++ rest) cs) c =
  greedy_try c bef l rest cs.
Proof.
  induction l as [|a l IH]; intros fuel bef rest cs Hl Hs Hf;
    (destruct fuel as [|fuel]; [simpl in Hf; lia|]).
  - cbn [repeat_matcher Nat.eqb negb before after caps app].
    rewrite clear_caps_nil, m_atom. simpl.
    destruct rest as [|b rest]; [reflexivity|]. simpl in Hs. now rewrite Hs.
  - simpl in Hl. apply andb_prop in Hl as [Ha Hl].
    cbn [repeat_matcher Nat.eqb negb before after caps app].
    rewrite clear_caps_nil, m_atom, Ha. cbn [after andb].
    rewrite eqb_length_cons. simpl option_map. cbn [Nat.pred].
    rewrite <- (clear_caps_nil cs) at 1.
    rewrite clear_caps_nil.
    rewrite IH by (try assumption; simpl in Hf; lia).
    reflexivity.
Qed.

Lemma repeat_lazy c l : forall fuel bef rest cs,
  forallb P l = true -> stops P rest ->
  (length (l ++ rest) < fuel)%nat ->
  repeat_matcher (m ml r) [] fuel 0 None false (mkState bef (l ++ rest) cs) c =
  lazy_try c bef l rest cs.
Proof.
  induction l as [|a l IH]; intros fuel bef rest cs Hl Hs Hf;
    (destruct fuel as [|fuel]; [simpl in Hf; lia|]).
  - cbn [repeat_matcher Nat.eqb negb before after caps app].
    rewrite clear_caps_nil, m_atom. simpl.
    destruct rest as [|b rest].
    + now destruct (c _).
    + simpl in Hs. rewrite Hs. now destruct (c _).
  - simpl in Hl. apply andb_prop in Hl as [Ha Hl].
    cbn [repeat_matcher Nat.eqb negb before after caps app].
    rewrite clear_caps_nil, m_atom, Ha. cbn [after andb].
    rewrite eqb_length_cons. simpl option_map. cbn [Nat.pred].
    rewrite IH by (try assumption; simpl in Hf; lia).
    reflexivity.
Qed.

Lemma m_star c bef l rest cs :
  forallb P l = true -> stops P rest ->
  m ml (Quant 0 None true r) (mkState bef (l ++ rest) cs) c = greedy_try c bef l rest cs.
Proof.
  intros Hl Hs. cbn [m]. rewrite atom_ids. apply repeat_greedy; try assumption.
  simpl. lia.
Qed.

Lemma m_lazy_star c bef l rest cs :
  forallb P l = true -> stops P rest ->
  m ml (Quant 0 None false r) (mkState bef (l ++ rest) cs) c = lazy_try c bef l rest cs.
Proof.
  intros Hl Hs. cbn [m]. rewrite atom_ids. apply repeat_lazy; try assumption.
  simpl. lia.
Qed.

Lemma repeat_min_step mr ids fuel k g x c :
  repeat_matcher mr ids (S fuel) (S k) None g x c =
  mr (mkState (before x) (after x) (clear_caps ids (caps x)))
     (fun y => repeat_matcher mr ids fuel k None g y c).
Proof. reflexivity. Qed.

Lemma m_plus c bef a l rest cs :
  P a = true -> forallb P l = true -> stops P rest ->
  m ml (Quant 1 None true r) (mkState bef (a :: l ++ rest) cs) c =
  greedy_try c (a :: bef) l rest cs.
Proof.
  intros Ha Hl Hs. cbn [m]. rewrite atom_ids, repeat_min_step.
  cbn [before after caps].
  rewrite clear_caps_nil, m_atom, Ha.
  apply repeat_greedy; try assumption. simpl. lia.
Qed.

Lemma m_plus_none c bef aft cs :
  stops P aft ->
  m ml (Quant 1 None true r) (mkState bef aft cs) c = None.
Proof.
  intros Hs. cbn [m]. rewrite atom_ids, repeat_min_step.
  cbn [before after caps].
  rewrite clear_caps_nil, m_atom. destruct aft as [|a aft]; [reflexivity|].
  simpl in Hs. now rewrite Hs.
Qed.

End Quantifiers.

(** The greedy quantifier takes the whole run when the continuation
    accepts there. *)
Lemma greedy_try_all c l : forall bef rest cs z,
  c (mkState (rev l ++ bef) rest cs) = Some z ->
  greedy_try c bef l rest cs = Some z.
Proof.
  induction l as [|a l IH]; intros bef rest cs z H; simpl in *.
  - exact H.
  - rewrite <- app_assoc in H. simpl in H. now rewrite (IH _ _ _ _ H).
Qed.

(** It finds nothing when the continuation refuses every length. *)
Lemma greedy_try_none c l : forall bef rest cs,
  (forall l1 l2, l = l1 ++ l2 -> c (mkState (rev l1 ++ bef) (l2 ++ rest) cs) = None) ->
  greedy_try c bef l rest cs = None.
Proof.
  induction l as [|a l IH]; intros bef rest cs H; simpl.
  - exact (H [] [] eq_refl).
  - rewrite IH.
    + simpl. exact (H [] (a :: l) eq_refl).
    + intros l1 l2 E. specialize (H (a :: l1) l2). simpl in H.
      rewrite <- app_assoc in H. apply H. now rewrite E.
Qed.

(** The lazy quantifier stops at the first length the continuation
    accepts. *)
Lemma lazy_try_first c l : forall bef rest cs,
  (forall l1 a l2, l = l1 ++ a :: l2 ->
     c (mkState (rev l1 ++ bef) (a :: l2 ++ rest) cs) = None) ->
  lazy_try c bef l rest cs = c (mkState (rev l ++ bef) rest cs).
Proof.
  induction l as [|a l IH]; intros bef rest cs H; simpl.
  - reflexivity.
  - pose proof (H [] a l eq_refl) as H0. simpl in H0. rewrite H0. simpl. rewrite IH.
    + now rewrite <- app_assoc.
    + intros l1 b l2 E. specialize (H (a :: l1) b l2). simpl in H.
      rewrite <- app_assoc in H. apply H. now rewrite E.
Qed.

(** ** Characters that a subject does not contain *)

Lemma absent_in ch s a : absent ch s = true -> In a s -> (a =? ch) = false.
Proof.
  unfold absent. intros H Hin. apply negb_true_iff in H.
  destruct (a =? ch) eqn:E; [|reflexivity].
  apply N.eqb_eq in E. subst a.
  assert (existsb (N.eqb ch) s = true); [|congruence].
  apply existsb_exists. exists ch. split; [assumption|apply N.eqb_refl].
Qed.

Lemma absent_app ch s t : absent ch (s ++ t) = absent ch s && absent ch t.
Proof. unfold absent. now rewrite existsb_app, negb_orb. Qed.

(** A literal that cannot start at a code unit other than [ch] finds no
    match in a subject without [ch]. *)
Lemma quiet_absent (re : RegExp) (ch : N) :
  (forall bef a aft, (a =? ch) = false ->
     first_ok (multiline re) (source re) (mkState bef (a :: aft) []) = false) ->
  forall bef p q, absent ch p = true -> quiet re bef p q.
Proof.
  intros Hre bef p q Hp p1 a p2 E.
  apply match_at_first, Hre. apply (absent_in ch p); [assumption|].
  subst p. apply in_or_app. right. now left.
Qed.

Lemma replace_absent {A} (re : RegExp) (f : replacer A) (ch : N) (acc : A) (s : jsstring) :
  (forall bef a aft, (a =? ch) = false ->
     first_ok (multiline re) (source re) (mkState bef (a :: aft) []) = false) ->
  (forall bef, first_ok (multiline re) (source re) (mkState bef [] []) = false) ->
  absent ch s = true ->
  replace_with re f acc s = (acc, s).
Proof.
  intros Hre Hnil Hs. unfold replace_with. apply scan_quiet_all.
  - now apply (quiet_absent re ch).
  - apply match_at_first, Hnil.
Qed.

(** ** Rules anchored at the start of a line *)

Lemma at_bol_inside ml p : forall c bef aft cs,
  is_line_terminator c = false -> no_line_end p = true ->
  at_bol ml (mkState (rev p ++ c :: bef) aft cs) = false.
Proof.
  induction p as [|a p IH]; intros c bef aft cs Hc Hp.
  - unfold at_bol. simpl. rewrite Hc. apply andb_false_r.
  - simpl in Hp. apply andb_prop in Hp as [Ha Hp]. apply negb_true_iff in Ha.
    simpl rev. rewrite <- app_assoc. simpl app. now apply IH.
Qed.

Lemma first_ok_bol ml r x : at_bol ml x = false -> first_ok ml (Seq Bol r) x = false.
Proof. intros H. simpl. now rewrite H. Qed.

Lemma no_line_end_app s t : no_line_end (s ++ t) = no_line_end s && no_line_end t.
Proof. apply forallb_app. Qed.

(** Behind a code unit that ends no line, no match of an anchored
    literal begins before the next line end. *)
Lemma quiet_inside re r c bef p q :
  source re = Seq Bol r ->
  is_line_terminator c = false -> no_line_end p = true ->
  quiet re (c :: bef) p q.
Proof.
  intros Hre Hc Hp p1 a p2 E. apply match_at_first. rewrite Hre.
  apply first_ok_bol. apply at_bol_inside; [assumption|].
  subst p. rewrite no_line_end_app in Hp. now apply andb_prop in Hp as [Hp _].
Qed.

Lemma match_at_inside re r c bef p aft :
  source re = Seq Bol r ->
  is_line_terminator c = false -> no_line_end p = true ->
  match_at re (rev p ++ c :: bef) aft = None.
Proof.
  intros Hre Hc Hp. apply match_at_first. rewrite Hre.
  apply first_ok_bol. now apply at_bol_inside.
Qed.

Lemma replace_tmpl_quiet re t s :
  quiet re [] s [] -> match_at re (rev s ++ []) [] = None -> replace_tmpl re t s = s.
Proof.
  intros Hq He. unfold replace_tmpl, replace_with. now rewrite scan_quiet_all.
Qed.

Lemma replace_fn_quiet re g s :
  quiet re [] s [] -> match_at re (rev s ++ []) [] = None -> replace_fn re g s = s.
Proof.
  intros Hq He. unfold replace_fn, replace_with. now rewrite scan_quiet_all.
Qed.

Lemma no_line_end_repeat c n :
  is_line_terminator c = false -> no_line_end (repeat c n) = true.
Proof. intros Hc. induction n; simpl; [reflexivity|]. now rewrite Hc. Qed.

(** A line of seven or more [#] and a blank: none of the six heading
    literals matches in it. *)
Lemma heading_rule_long_run level hashes n t :
  In hashes ["#"; "##"; "###"; "####"; "#####"; "######"]%string ->
  no_line_end t = true ->
  heading_rule level hashes (repeat 35 (7 + n) ++ 32 :: t) = repeat 35 (7 + n) ++ 32 :: t.
Proof.
  intros Hh Ht. unfold heading_rule.
  assert (Hl : no_line_end (repeat 35 (6 + n) ++ 32 :: t) = true).
  { rewrite no_line_end_app, no_line_end_repeat by reflexivity. simpl. exact Ht. }
  assert (H0 : match_at (Re.heading hashes) []
                 (35 :: (repeat 35 (6 + n) ++ 32 :: t) ++ []) = None).
  { simpl in Hh. decompose [or] Hh; subst; try contradiction; reflexivity. }
  change (repeat 35 (7 + n) ++ 32 :: t) with (35 :: (repeat 35 (6 + n) ++ 32 :: t)).
  revert Hl H0. generalize (repeat 35 (6 + n) ++ 32 :: t). intros tl Hl H0.
  apply replace_tmpl_quiet.
  - apply quiet_cons; [exact H0|].
    now apply (quiet_inside _ (lit hashes ;; Ch " " ;; Group 1 (star Dot ;; Eol))%re).
  - simpl rev. rewrite app_nil_r.
    now apply (match_at_inside _ (lit hashes ;; Ch " " ;; Group 1 (star Dot ;; Eol))%re).
Qed.

(** ** The fenced-code rule *)

Lemma get_substitution_plain matched pre post captures t :
  absent 36 t = true -> get_substitution matched pre post captures t = t.
Proof.
  induction t as [|c t IH]; intros H; [reflexivity|].
  unfold absent in H. cbn [existsb] in H. rewrite negb_orb in H.
  apply andb_prop in H as [Hc Ht].
  cbn [get_substitution]. rewrite N.eqb_sym in Hc. rewrite Hc. f_equal. now apply IH.
Qed.

(** A literal of one character with a replacement free of [$]. *)
Lemma replace_one_char ch g i ml t s :
  absent 36 t = true ->
  replace_tmpl (mkRegExp (Char ch) g i ml) t s
  = flat_map (fun c => if c =? ch then t else [c]) s.
Proof.
  intros Ht. unfold replace_tmpl, replace_with.
  enough (G : forall bef,
             snd (replace_scan (mkRegExp (Char ch) g i ml) (template_replacer t) tt bef s 0)
             = flat_map (fun c => if c =? ch then t else [c]) s) by apply G.
  induction s as [|a s IH]; intros bef; [reflexivity|].
  destruct (a =? ch) eqn:E.
  - change (a :: s) with ([a] ++ s).
    rewrite (scan_hit _ _ _ _ [a] s (mkState (a :: bef) s [])).
    + cbn [fst snd template_replacer]. rewrite get_substitution_plain by assumption.
      cbn [flat_map app]. rewrite E.
      change (rev [a] ++ bef) with (a :: bef).
      now rewrite IH.
    + discriminate.
    + unfold match_at. cbn [source multiline app]. rewrite m_char. now rewrite E.
    + reflexivity.
  - rewrite scan_cons_none.
    + cbn [snd flat_map]. rewrite E. simpl. f_equal. apply IH.
    + unfold match_at. cbn [source multiline]. rewrite m_char. now rewrite E.
Qed.

Lemma flat_map_flat_map (g h : N -> jsstring) (s : jsstring) :
  flat_map g (flat_map h s) = flat_map (fun c => flat_map g (h c)) s.
Proof.
  induction s as [|a s IH]; [reflexivity|].
  simpl. now rewrite flat_map_app, IH.
Qed.

(** The two [replace] calls of the callback escape [<] and [>] and
    nothing else. *)
Lemma escape_code_spec code : escape_code code = escape_spec code.
Proof.
  unfold escape_code, Re.gt, Re.lt, Ch.
  rewrite !replace_one_char by reflexivity.
  rewrite flat_map_flat_map. unfold escape_spec.
  apply flat_map_ext. intros c. unfold escape_char, cLT, cGT.
  change (N_of_ascii "<") with 60. change (N_of_ascii ">") with 62.
  destruct (c =? 60) eqn:E1; [reflexivity|].
  simpl. destruct (c =? 62); reflexivity.
Qed.

(** ** Literal runs, captures, and the lazy quantifier *)

Lemma m_lit ml l : forall bef rest cs c,
  m ml (fold_right (fun a r => Seq (Char a) r) Empty l) (mkState bef (l ++ rest) cs) c
  = c (mkState (rev l ++ bef) rest cs).
Proof.
  induction l as [|a l IH]; intros bef rest cs c; [reflexivity|].
  cbn [fold_right app]. rewrite m_seq, m_char, N.eqb_refl, IH.
  simpl rev. now rewrite <- app_assoc.
Qed.

Lemma consumed_app b l r cs b' cs' :
  consumed (mkState b (l ++ r) cs) (mkState b' r cs') = l.
Proof.
  unfold consumed. cbn [after]. rewrite length_app.
  replace (length l + length r - length r)%nat with (length l) by lia.
  now rewrite firstn_app, Nat.sub_diag, firstn_all, app_nil_r.
Qed.

Lemma any_accepts a : class_matches false [CSpace; CNotSpace] a = true.
Proof. unfold class_matches. simpl. now destruct (is_space a). Qed.

Lemma forallb_any l : forallb (class_matches false [CSpace; CNotSpace]) l = true.
Proof. apply forallb_forall. intros a _. apply any_accepts. Qed.

Lemma lazy_try_skip c l1 : forall bef l2 rest cs,
  (forall p a q, l1 = p ++ a :: q ->
     c (mkState (rev p ++ bef) (a :: q ++ l2 ++ rest) cs) = None) ->
  lazy_try c bef (l1 ++ l2) rest cs = lazy_try c (rev l1 ++ bef) l2 rest cs.
Proof.
  induction l1 as [|a l1 IH]; intros bef l2 rest cs H; [reflexivity|].
  cbn [app lazy_try].
  pose proof (H [] a l1 eq_refl) as H0. simpl in H0.
  rewrite <- app_assoc. rewrite H0. cbn [or_else]. rewrite IH.
  - simpl rev. now rewrite <- app_assoc.
  - intros p b q E. specialize (H (a :: p) b q). simpl in H.
    rewrite <- app_assoc in H. apply H. now rewrite E.
Qed.

Lemma lazy_try_now c bef l rest cs z :
  c (mkState bef (l ++ rest) cs) = Some z -> lazy_try c bef l rest cs = Some z.
Proof. intros H. destruct l as [|a l]; simpl in *; now rewrite H. Qed.

Lemma m_lazy_star_all ml r P c bef l cs :
  atom_pred r = Some P -> forallb P l = true ->
  m ml (Quant 0 None false r) (mkState bef l cs) c = lazy_try c bef l [] cs.
Proof.
  intros HP Hl. rewrite <- (app_nil_r l) at 1. now apply (m_lazy_star ml r P HP).
Qed.

Lemma no_line_end_in s a : no_line_end s = true -> In a s -> is_line_terminator a = false.
Proof.
  unfold no_line_end. intros H Hin. rewrite forallb_forall in H.
  apply negb_true_iff. now apply H.
Qed.

Lemma not_lt_not_nl a : is_line_terminator a = false -> (a =? cNL) = false.
Proof.
  unfold is_line_terminator, cNL. intros H.
  destruct (a =? 10); [discriminate|reflexivity].
Qed.

(** The fence literal on a block that opens at the current position. *)
Lemma match_fence bef lang code rest :
  no_line_end lang = true -> absent 96 code = true ->
  match_at Re.fence bef ([96; 96; 96] ++ lang ++ cNL :: code ++ [96; 96; 96] ++ rest)
  = Some (mkState (rev ([96; 96; 96] ++ lang ++ cNL :: code ++ [96; 96; 96]) ++ bef) rest
                  [(2%nat, code); (1%nat, lang)]).
Proof.
  intros Hlang Hcode. unfold match_at, Re.fence. cbn [source multiline].
  change (lit "```") with (fold_right (fun a r => Seq (Char a) r) Empty [96; 96; 96]).
  rewrite m_seq, m_lit, m_seq, m_group.
  unfold lazy_star. rewrite (m_lazy_star false Dot _ eq_refl);
    [|exact Hlang|reflexivity].
  rewrite lazy_try_first.
  2:{ intros l1 a l2 E. cbn [before after caps]. rewrite m_seq, m_char.
      rewrite not_lt_not_nl; [reflexivity|].
      apply (no_line_end_in lang); [assumption|]. subst lang.
      apply in_or_app. right. now left. }
  cbn [before after caps].
  rewrite m_seq, m_char, N.eqb_refl, m_seq, m_group.
  rewrite (m_lazy_star_all false any _ _ _ _ _ eq_refl) by apply forallb_any.
  rewrite lazy_try_skip.
  2:{ intros p a q E. cbn [before after caps]. apply first_ok_sound. cbn.
      rewrite (absent_in 96 code); [reflexivity|assumption|].
      subst code. apply in_or_app. right. now left. }
  apply lazy_try_now. cbn [before after caps]. rewrite app_nil_r, m_lit.
  cbn [before after caps]. rewrite !consumed_app.
  f_equal. f_equal.
  repeat (rewrite ?rev_app_distr; simpl rev; rewrite <- ?app_assoc; simpl app).
  reflexivity.
Qed.

(** A subject that one match covers from end to end. *)
Lemma replace_fn_whole re g s y :
  s <> [] ->
  match_at re [] s = Some y -> after y = [] ->
  match_at re (rev s) [] = None ->
  replace_fn re g s = g s (captures_of re y).
Proof.
  intros Hs Hm Hy He. unfold replace_fn, replace_with.
  rewrite <- (app_nil_r s) at 1.
  rewrite (scan_hit _ _ _ _ s [] y); try assumption.
  - cbv zeta. cbn [fst snd]. rewrite app_nil_r.
    rewrite scan_nil_none by assumption. cbn [snd]. apply app_nil_r.
  - now rewrite app_nil_r.
Qed.

Lemma fences_block lang code :
  no_line_end lang = true -> absent 96 code = true ->
  fences (str "```" ++ lang ++ cNL :: code ++ str "```")
  = str "<pre><code class=" ++ dq ++ str "language-" ++ lang ++ dq ++ str ">"
      ++ trim (escape_spec code) ++ str "</code></pre>".
Proof.
  intros Hlang Hcode. unfold fences.
  change (str "```") with [96; 96; 96].
  pose proof (match_fence [] lang code [] Hlang Hcode) as Hm.
  change ([96; 96; 96] ++ []) with [96; 96; 96] in Hm.
  assert (Hne : [96; 96; 96] ++ lang ++ cNL :: code ++ [96; 96; 96] <> []) by discriminate.
  rewrite (replace_fn_whole _ _ _ _ Hne Hm eq_refl).
  - unfold fence_callback. cbn [captures_of Re.fence source group_ids app length seq map
      lookup_cap Nat.eqb arg capture_text nth_error Nat.sub].
    now rewrite escape_code_spec.
  - apply match_at_first. reflexivity.
Qed.

(** ** Lists *)

Lemma lines_cons l ls : lines (l :: ls) = l ++ tail_lines ls.
Proof. destruct ls; simpl; [now rewrite app_nil_r|reflexivity]. Qed.

Lemma line_end_tail ls : line_end (tail_lines ls).
Proof. destruct ls; simpl; reflexivity. Qed.

Lemma at_bol_line_start bef aft cs : line_start bef -> at_bol true (mkState bef aft cs) = true.
Proof. unfold at_bol, line_start. simpl. destruct bef; [reflexivity|]. now intros ->. Qed.

Lemma unit_eta (u : unit) : u = tt.
Proof. now destruct u. Qed.

(** ** A rule anchored at line starts, read line by line *)

Section Lines.

Variable re : RegExp.
Variable r : regex.
Hypothesis Hre : source re = Seq Bol r.
Variable f : replacer unit.

(** The lines the rule is applied to, and what it writes for each. *)
Variable T : Type.
Variable src out : T -> jsstring.
Variable ok : T -> Prop.

Hypothesis Hok : forall t, ok t -> src t <> [] /\ no_line_end (src t) = true.
Hypothesis Hline : forall t bef q, ok t -> line_start bef -> line_end q ->
  snd (replace_scan re f tt bef (src t ++ q) 0)
  = out t ++ snd (replace_scan re f tt (rev (src t) ++ bef) q 0).

Lemma match_at_line_end t bef aft :
  ok t -> match_at re (rev (src t) ++ bef) aft = None.
Proof.
  intros Hl. destruct (Hok t Hl) as [Hne Hnl].
  destruct (src t) as [|c l]; [contradiction|].
  simpl in Hnl. apply andb_prop in Hnl as [Hc Hnl]. apply negb_true_iff in Hc.
  simpl rev. rewrite <- app_assoc. simpl app.
  now apply (match_at_inside re r).
Qed.

Lemma scan_lines ts : forall bef,
  Forall ok ts -> ts <> [] -> line_start bef ->
  snd (replace_scan re f tt bef (lines (map src ts)) 0) = lines (map out ts).
Proof.
  induction ts as [|t ts IH]; intros bef Hall Hne Hbef; [contradiction|].
  inversion Hall as [|? ? Hl Hls]; subst.
  cbn [map]. rewrite !lines_cons.
  rewrite Hline; [|assumption|assumption|apply line_end_tail].
  f_equal.
  destruct ts as [|t' ts].
  - cbn [tail_lines map]. rewrite scan_nil_none; [reflexivity|].
    now apply match_at_line_end.
  - cbn [tail_lines map].
    rewrite scan_cons_none by now apply match_at_line_end.
    cbn [snd]. f_equal.
    apply IH; [assumption|discriminate|reflexivity].
Qed.

End Lines.

(** The two ways a line goes through a rule. *)
Lemma line_hit re (f : replacer unit) bef l q y :
  l <> [] ->
  match_at re bef (l ++ q) = Some y -> after y = q ->
  snd (replace_scan re f tt bef (l ++ q) 0)
  = snd (f tt l (captures_of re y) (rev bef) q)
      ++ snd (replace_scan re f tt (rev l ++ bef) q 0).
Proof.
  intros Hne Hm Hy. rewrite (scan_hit re f tt bef l q y) by assumption.
  cbv zeta. cbn [snd].
  now rewrite (unit_eta (fst (f tt l (captures_of re y) (rev bef) q))).
Qed.

Lemma line_quiet re r (f : replacer unit) bef l q :
  source re = Seq Bol r ->
  no_line_end l = true ->
  match_at re bef (l ++ q) = None ->
  snd (replace_scan re f tt bef (l ++ q) 0)
  = l ++ snd (replace_scan re f tt (rev l ++ bef) q 0).
Proof.
  intros Hre Hnl Hm. rewrite scan_quiet; [reflexivity|].
  destruct l as [|c l]; [apply quiet_nil|].
  simpl in Hnl. apply andb_prop in Hnl as [Hc Hnl]. apply negb_true_iff in Hc.
  apply quiet_cons; [exact Hm|]. now apply (quiet_inside re r).
Qed.

(** ** Character classes *)

Ltac bool_to_prop :=
  repeat rewrite ?orb_true_iff, ?andb_true_iff, ?negb_true_iff, ?orb_false_iff,
    ?andb_false_iff, ?negb_false_iff, ?N.eqb_eq, ?N.eqb_neq, ?N.leb_le, ?N.leb_gt in *.

Ltac char_facts :=
  unfold is_space, is_white_space, is_line_terminator, is_digit, class_matches, cNL, cLT in *;
  cbn [existsb atom_matches xorb] in *;
  match goal with
  | |- ?b = false => destruct b eqn:?E; [exfalso|reflexivity]
  | |- ?b = true => destruct b eqn:?E; [reflexivity|exfalso]
  end;
  bool_to_prop; lia.

Lemma white_not_line_end c : is_white_space c = true -> is_line_terminator c = false.
Proof. intros H. char_facts. Qed.

Lemma white_is_space c : is_white_space c = true -> is_space c = true.
Proof. intros H. unfold is_space. now rewrite H. Qed.

Lemma white_not_char c ch :
  is_white_space c = true -> In ch (str "#`|<>*~[-.0123456789") -> (c =? ch) = false.
Proof.
  intros H Hin. simpl in Hin.
  decompose [or] Hin; try contradiction; subst ch; char_facts.
Qed.

Lemma digit_not_space c : is_digit c = true -> is_space c = false.
Proof. intros H. char_facts. Qed.

Lemma digit_not_line_end c : is_digit c = true -> is_line_terminator c = false.
Proof. intros H. char_facts. Qed.

Lemma digit_not_char c ch :
  is_digit c = true -> In ch (str "#`|<>*~[-. ") -> (c =? ch) = false.
Proof.
  intros H Hin. simpl in Hin.
  decompose [or] Hin; try contradiction; subst ch; char_facts.
Qed.

Lemma no_line_end_white s : forallb is_white_space s = true -> no_line_end s = true.
Proof.
  intros H. apply forallb_forall. intros c Hc. apply negb_true_iff, white_not_line_end.
  now apply (proj1 (forallb_forall _ _) H).
Qed.

Lemma no_line_end_digits s : forallb is_digit s = true -> no_line_end s = true.
Proof.
  intros H. apply forallb_forall. intros c Hc. apply negb_true_iff, digit_not_line_end.
  now apply (proj1 (forallb_forall _ _) H).
Qed.

Lemma forallb_white_space s :
  forallb is_white_space s = true -> forallb (class_matches false [CSpace]) s = true.
Proof.
  intros H. apply forallb_forall. intros c Hc.
  unfold class_matches. simpl. rewrite white_is_space; [reflexivity|].
  now apply (proj1 (forallb_forall _ _) H).
Qed.

(** ** The item rules at the start of a line *)

Lemma match_unordered_line bef ind mk txt q :
  line_start bef -> forallb is_white_space ind = true ->
  (mk =? 42) || (mk =? 45) = true ->
  no_line_end txt = true -> line_end q ->
  match_at Re.unordered bef (ind ++ mk :: 32 :: txt ++ q)
  = Some (mkState (rev (ind ++ mk :: 32 :: txt) ++ bef) q [(2%nat, txt); (1%nat, [mk])]).
Proof.
  intros Hbef Hind Hmk Htxt Hq. unfold match_at, Re.unordered. cbn [source multiline].
  rewrite m_seq, m_bol, at_bol_line_start by assumption.
  rewrite m_seq. unfold star, white.
  rewrite (m_star true (Class false [CSpace]) _ eq_refl);
    [|now apply forallb_white_space|simpl; char_facts].
  apply greedy_try_all.
  rewrite m_seq, m_group, (m_atom true (Class false [cc "*"; cc "-"]) _ eq_refl).
  replace (class_matches false [cc "*"; cc "-"] mk) with true
    by (symmetry; unfold cc; simpl N_of_ascii; char_facts).
  cbn [before after caps].
  rewrite m_seq. unfold Ch. change (N_of_ascii " ") with 32.
  rewrite m_char, N.eqb_refl, m_group.
  rewrite (m_star true Dot _ eq_refl) by assumption.
  apply greedy_try_all.
  cbn [before after caps]. rewrite consumed_app.
  change (mk :: 32 :: txt ++ q) with ([mk] ++ 32 :: txt ++ q). rewrite consumed_app.
  f_equal. f_equal.
  rewrite !rev_app_distr. simpl rev. rewrite <- !app_assoc. reflexivity.
Qed.

Lemma match_ordered_line bef ind d ds txt q :
  line_start bef -> forallb is_white_space ind = true ->
  forallb is_digit (d :: ds) = true ->
  no_line_end txt = true -> line_end q ->
  match_at Re.ordered bef (ind ++ (d :: ds) ++ 46 :: 32 :: txt ++ q)
  = Some (mkState (rev (ind ++ (d :: ds) ++ 46 :: 32 :: txt) ++ bef) q
            [(2%nat, txt); (1%nat, d :: ds)]).
Proof.
  intros Hbef Hind Hds Htxt Hq. unfold match_at, Re.ordered. cbn [source multiline].
  simpl in Hds. apply andb_prop in Hds as [Hd Hds].
  rewrite m_seq, m_bol, at_bol_line_start by assumption.
  rewrite m_seq. unfold star, white.
  rewrite (m_star true (Class false [CSpace]) _ eq_refl);
    [|now apply forallb_white_space|simpl; char_facts].
  apply greedy_try_all.
  rewrite m_seq, m_group. unfold plus, digit. cbn [app].
  rewrite (m_plus true (Class false [CDigit]) _ eq_refl);
    [|unfold class_matches; simpl; now rewrite Hd
     |apply forallb_forall; intros c Hc; unfold class_matches; simpl;
      now rewrite (proj1 (forallb_forall _ _) Hds c Hc)
     |reflexivity].
  apply greedy_try_all.
  cbn [before after caps].
  rewrite m_seq. unfold Ch. change (N_of_ascii ".") with 46. change (N_of_ascii " ") with 32.
  rewrite m_char, N.eqb_refl, m_seq, m_char, N.eqb_refl, m_group.
  rewrite (m_star true Dot _ eq_refl) by assumption.
  apply greedy_try_all.
  cbn [before after caps]. rewrite consumed_app.
  change (d :: ds ++ 46 :: 32 :: txt ++ q) with ((d :: ds) ++ 46 :: 32 :: txt ++ q).
  rewrite consumed_app.
  f_equal. f_equal.
  repeat (rewrite ?rev_app_distr; simpl rev; rewrite <- ?app_assoc; simpl app).
  reflexivity.
Qed.

Lemma ordered_not_at_tag bef aft : match_at Re.ordered bef (60 :: aft) = None.
Proof.
  unfold match_at, Re.ordered. cbn [source multiline].
  rewrite m_seq, m_bol. destruct (at_bol _ _); [|reflexivity].
  rewrite m_seq. unfold star, white.
  change (60 :: aft) with ([] ++ 60 :: aft).
  rewrite (m_star true (Class false [CSpace]) _ eq_refl); [|reflexivity|reflexivity].
  cbn [greedy_try]. rewrite m_seq, m_group. unfold plus, digit.
  now rewrite (m_plus_none true (Class false [CDigit]) _ eq_refl).
Qed.

Lemma unordered_not_at_digits bef ind d aft :
  forallb is_white_space ind = true -> is_digit d = true ->
  match_at Re.unordered bef (ind ++ d :: aft) = None.
Proof.
  intros Hind Hd. unfold match_at, Re.unordered. cbn [source multiline].
  rewrite m_seq, m_bol. destruct (at_bol _ _); [|reflexivity].
  rewrite m_seq. unfold star, white.
  rewrite (m_star true (Class false [CSpace]) _ eq_refl);
    [|now apply forallb_white_space|simpl; char_facts].
  apply greedy_try_none. intros l1 l2 E.
  rewrite m_seq, m_group, (m_atom true (Class false [cc "*"; cc "-"]) _ eq_refl).
  destruct l2 as [|c l2]; cbn [app].
  - replace (class_matches false [cc "*"; cc "-"] d) with false; [reflexivity|].
    symmetry. unfold class_matches, cc. simpl.
    now rewrite !(digit_not_char d) by (try assumption; simpl; tauto).
  - replace (class_matches false [cc "*"; cc "-"] c) with false; [reflexivity|].
    symmetry. unfold class_matches, cc. simpl.
    assert (Hc : is_white_space c = true).
    { apply (proj1 (forallb_forall _ _) Hind). subst ind.
      apply in_or_app. right. now left. }
    now rewrite !(white_not_char c) by (try assumption; simpl; tauto).
Qed.

(** ** The list rules on a run of list lines *)

Lemma line_ok_parts k it :
  line_ok k it = true ->
  forallb is_white_space (indent it) = true /\ marker_ok k (marker it) = true /\
  no_line_end (text it) = true /\ absent cLT (text it) = true.
Proof.
  unfold line_ok. intros H.
  apply andb_prop in H as [H H4]. apply andb_prop in H as [H H3].
  apply andb_prop in H as [H1 H2]. tauto.
Qed.

Lemma line_text_shape k it :
  line_ok k it = true ->
  line_text k it <> [] /\ no_line_end (line_text k it) = true.
Proof.
  intros H. destruct (line_ok_parts k it H) as (Hi & Hm & Ht & _).
  split.
  - destruct k; unfold line_text; destruct (indent it), (marker it); discriminate.
  - destruct k; unfold line_text; rewrite !no_line_end_app, (no_line_end_white _ Hi).
    + destruct (marker it) as [|c [|]]; try discriminate. simpl in Hm.
      cbn [no_line_end forallb app andb]. change (forallb _ (text it)) with (no_line_end (text it)).
      rewrite Ht. replace (is_line_terminator c) with false; [reflexivity|].
      symmetry. char_facts.
    + destruct (marker it) as [|c mk] eqn:E; try discriminate. cbn [marker_ok] in Hm.
      rewrite (no_line_end_digits _ Hm). simpl. exact Ht.
Qed.

Lemma item_line_shape k it :
  no_line_end (text it) = true ->
  item_line k it <> [] /\ no_line_end (item_line k it) = true.
Proof.
  intros Ht. split; [discriminate|].
  unfold item_line. destruct k; cbn [list_tag];
    change (no_line_end (60 :: ?l)) with (no_line_end l);
    rewrite !no_line_end_app, Ht; reflexivity.
Qed.

(** The item rule of the kind of the lines writes one element a line. *)
Lemma unordered_items_lines items :
  Forall (fun it => line_ok Unordered it = true) items -> items <> [] ->
  unordered_items (lines (map (line_text Unordered) items))
  = lines (map (item_line Unordered) items).
Proof.
  intros Hall Hne. unfold unordered_items, replace_tmpl, replace_with.
  apply (scan_lines Re.unordered _ eq_refl _ list_line (line_text Unordered)
           (item_line Unordered) (fun it => line_ok Unordered it = true));
    try assumption; try exact I.
  - intros it. apply line_text_shape.
  - intros it bef q Hit Hbef Hq.
    destruct (line_ok_parts _ _ Hit) as (Hi & Hm & Ht & _).
    destruct (line_text_shape _ _ Hit) as [Hne' _].
    unfold line_text in *. destruct (marker it) as [|mk [|]]; try discriminate.
    cbn [marker_ok] in Hm.
    pose proof (match_unordered_line bef (indent it) mk (text it) q Hbef Hi Hm Ht Hq) as M.
    replace (indent it ++ mk :: 32 :: text it ++ q)
      with ((indent it ++ [mk] ++ 32 :: text it) ++ q) in M
      by (rewrite <- !app_assoc; reflexivity).
    rewrite (line_hit _ _ _ _ _ _ Hne' M eq_refl). f_equal.
Qed.

Lemma ordered_items_lines items :
  Forall (fun it => line_ok Ordered it = true) items -> items <> [] ->
  ordered_items (lines (map (line_text Ordered) items))
  = lines (map (item_line Ordered) items).
Proof.
  intros Hall Hne. unfold ordered_items, replace_tmpl, replace_with.
  apply (scan_lines Re.ordered _ eq_refl _ list_line (line_text Ordered)
           (item_line Ordered) (fun it => line_ok Ordered it = true));
    try assumption; try exact I.
  - intros it. apply line_text_shape.
  - intros it bef q Hit Hbef Hq.
    destruct (line_ok_parts _ _ Hit) as (Hi & Hm & Ht & _).
    destruct (line_text_shape _ _ Hit) as [Hne' _].
    unfold line_text in *. destruct (marker it) as [|d ds]; try discriminate.
    cbn [marker_ok] in Hm.
    pose proof (match_ordered_line bef (indent it) d ds (text it) q Hbef Hi Hm Ht Hq) as M.
    replace (indent it ++ (d :: ds) ++ 46 :: 32 :: text it ++ q)
      with ((indent it ++ (d :: ds) ++ 46 :: 32 :: text it) ++ q) in M
      by (rewrite <- !app_assoc; reflexivity).
    rewrite (line_hit _ _ _ _ _ _ Hne' M eq_refl). f_equal.
Qed.

(** The other item rule finds nothing in these lines. *)
Lemma ordered_items_quiet k items :
  Forall (fun it => no_line_end (text it) = true) items -> items <> [] ->
  ordered_items (lines (map (item_line k) items)) = lines (map (item_line k) items).
Proof.
  intros Hall Hne. unfold ordered_items, replace_tmpl, replace_with.
  apply (scan_lines Re.ordered _ eq_refl _ list_line (item_line k) (item_line k)
           (fun it => no_line_end (text it) = true));
    try assumption; try exact I.
  - intros it. apply item_line_shape.
  - intros it bef q Hit Hbef Hq.
    apply (line_quiet Re.ordered _ _ _ _ _ eq_refl).
    + now apply item_line_shape.
    + apply ordered_not_at_tag.
Qed.

Lemma unordered_items_quiet items :
  Forall (fun it => line_ok Ordered it = true) items -> items <> [] ->
  unordered_items (lines (map (line_text Ordered) items))
  = lines (map (line_text Ordered) items).
Proof.
  intros Hall Hne. unfold unordered_items, replace_tmpl, replace_with.
  apply (scan_lines Re.unordered _ eq_refl _ list_line (line_text Ordered)
           (line_text Ordered) (fun it => line_ok Ordered it = true));
    try assumption; try exact I.
  - intros it. apply line_text_shape.
  - intros it bef q Hit Hbef Hq.
    apply (line_quiet Re.unordered _ _ _ _ _ eq_refl).
    + now apply line_text_shape.
    + destruct (line_ok_parts _ _ Hit) as (Hi & Hm & Ht & _).
      unfold line_text. destruct (marker it) as [|d ds]; try discriminate.
      cbn [marker_ok] in Hm. simpl in Hm. apply andb_prop in Hm as [Hd _].
      rewrite <- !app_assoc. cbn [app].
      now apply unordered_not_at_digits.
Qed.

(** ** The merge rules *)

Lemma lines_item_lines k its : forall it,
  lines (map (item_line k) (it :: its)) = 60 :: list_tag k ++ 62 :: list_body k it its.
Proof.
  induction its as [|it' its IH]; intros it.
  - unfold item_line, item_html. destruct k; simpl; rewrite <- !app_assoc; reflexivity.
  - cbn [map] in *. rewrite lines_cons. cbn [tail_lines]. rewrite IH.
    unfold item_line, item_html. destruct k; simpl; rewrite <- !app_assoc; reflexivity.
Qed.

(** A literal piece in which a merge literal finds nothing: checked
    position by position. *)
Ltac quiet_literal :=
  repeat (apply quiet_cons; [reflexivity|]); apply quiet_nil.

Lemma merge_first k bef a aft :
  (a =? 60) = false ->
  first_ok (multiline (merge_re k)) (source (merge_re k)) (mkState bef (a :: aft) []) = false.
Proof. intros H. destruct k; cbn; now rewrite H. Qed.

Lemma quiet_item_html k bef it q :
  absent cLT (text it) = true -> quiet (merge_re k) bef (item_html it) q.
Proof.
  intros Ht. unfold item_html.
  change (str "<li>") with [60; 108; 105; 62].
  change (str "</li>") with [60; 47; 108; 105; 62].
  apply quiet_app; [destruct k; quiet_literal|].
  apply quiet_app; [|destruct k; quiet_literal].
  apply (quiet_absent _ 60); [|exact Ht].
  intros bef' a aft. apply merge_first.
Qed.

Lemma quiet_items k items : forall bef q,
  Forall (fun it => absent cLT (text it) = true) items ->
  quiet (merge_re k) bef (concat (map item_html items)) q.
Proof.
  induction items as [|it items IH]; intros bef q Hall; [apply quiet_nil|].
  inversion Hall; subst. cbn [map concat].
  apply quiet_app; [now apply quiet_item_html|now apply IH].
Qed.

(** The merge literal at a closing tag that a line end and an opening
    tag of the same kind follow. *)
Lemma match_merge k bef rest :
  match_at (merge_re k) bef (str "</" ++ list_tag k ++ 62 :: cNL :: 60 :: list_tag k ++ 62 :: rest)
  = Some (mkState
            (rev (str "</" ++ list_tag k ++ 62 :: cNL :: 60 :: list_tag k ++ [62]) ++ bef)
            rest []).
Proof.
  destruct k; unfold match_at, merge_re, Re.merge_ul, Re.merge_ol; cbn [source multiline].
  - change (lit "</ul>") with (fold_right (fun a r => Seq (Char a) r) Empty [60; 47; 117; 108; 62]).
    change (lit "<ul>") with (fold_right (fun a r => Seq (Char a) r) Empty [60; 117; 108; 62]).
    change (str "</" ++ list_tag Unordered ++ 62 :: cNL :: 60 :: list_tag Unordered ++ 62 :: rest)
      with ([60; 47; 117; 108; 62] ++ [cNL] ++ [60; 117; 108; 62] ++ rest).
    rewrite m_seq, m_lit, m_seq. unfold star, white.
    rewrite (m_star false (Class false [CSpace]) _ eq_refl); [|reflexivity|reflexivity].
    apply greedy_try_all. now rewrite m_lit.
  - change (lit "</ol>") with (fold_right (fun a r => Seq (Char a) r) Empty [60; 47; 111; 108; 62]).
    change (lit "<ol>") with (fold_right (fun a r => Seq (Char a) r) Empty [60; 111; 108; 62]).
    change (str "</" ++ list_tag Ordered ++ 62 :: cNL :: 60 :: list_tag Ordered ++ 62 :: rest)
      with ([60; 47; 111; 108; 62] ++ [cNL] ++ [60; 111; 108; 62] ++ rest).
    rewrite m_seq, m_lit, m_seq. unfold star, white.
    rewrite (m_star false (Class false [CSpace]) _ eq_refl); [|reflexivity|reflexivity].
    apply greedy_try_all. now rewrite m_lit.
Qed.

Lemma scan_list_body k its : forall it bef,
  Forall (fun it => absent cLT (text it) = true) (it :: its) ->
  snd (replace_scan (merge_re k) (template_replacer []) tt bef (list_body k it its) 0)
  = concat (map item_html (it :: its)) ++ str "</" ++ list_tag k ++ [62].
Proof.
  induction its as [|it' its IH]; intros it bef Hall;
    inversion Hall as [|? ? Hit Hits]; subst.
  - cbn [list_body map concat]. rewrite app_nil_r.
    rewrite scan_quiet by now apply quiet_item_html.
    cbn [snd]. f_equal.
    rewrite scan_quiet_all; [reflexivity| |destruct k; reflexivity].
    destruct k; quiet_literal.
  - cbn [list_body]. rewrite scan_quiet by now apply quiet_item_html.
    cbn [snd]. cbn [map concat]. rewrite <- app_assoc. f_equal.
    pose proof (match_merge k (rev (item_html it) ++ bef) (list_body k it' its)) as M.
    replace (str "</" ++ list_tag k ++ 62 :: cNL :: 60 :: list_tag k ++ 62 :: list_body k it' its)
      with ((str "</" ++ list_tag k ++ 62 :: cNL :: 60 :: list_tag k ++ [62])
              ++ list_body k it' its) in M
      by (destruct k; reflexivity).
    replace (str "</" ++ list_tag k ++ 62 :: cNL :: 60 :: list_tag k ++ 62 :: list_body k it' its)
      with ((str "</" ++ list_tag k ++ 62 :: cNL :: 60 :: list_tag k ++ [62])
              ++ list_body k it' its)
      by (destruct k; reflexivity).
    assert (Hne : str "</" ++ list_tag k ++ 62 :: cNL :: 60 :: list_tag k ++ [62] <> [])
      by (destruct k; discriminate).
    rewrite (line_hit _ _ _ _ _ _ Hne M eq_refl).
    cbn [template_replacer snd get_substitution app].
    now apply IH.
Qed.

(** The merge rule of the kind of the list closes it into one element. *)
Lemma merge_same k items :
  Forall (fun it => absent cLT (text it) = true) items -> items <> [] ->
  merge_rule k (lines (map (item_line k) items)) = list_html k items.
Proof.
  intros Hall Hne. destruct items as [|it its]; [contradiction|].
  rewrite lines_item_lines. unfold list_html.
  assert (G : forall bef,
    snd (replace_scan (merge_re k) (template_replacer []) tt bef
           (60 :: list_tag k ++ 62 :: list_body k it its) 0)
    = 60 :: list_tag k ++ 62 :: concat (map item_html (it :: its))
        ++ str "</" ++ list_tag k ++ [62]).
  { intros bef.
    replace (60 :: list_tag k ++ 62 :: list_body k it its)
      with ((60 :: list_tag k ++ [62]) ++ list_body k it its)
      by (destruct k; reflexivity).
    rewrite scan_quiet by (destruct k; quiet_literal).
    cbn [snd]. rewrite scan_list_body by assumption.
    destruct k; reflexivity. }
  destruct k; apply G.
Qed.

(** The merge rule of the other kind finds nothing. *)
Lemma merge_ol_quiet items :
  Forall (fun it => absent cLT (text it) = true) items ->
  merge_ol_rule (list_html Unordered items) = list_html Unordered items.
Proof.
  intros Hall. unfold merge_ol_rule. apply replace_tmpl_quiet.
  - unfold list_html.
    change (60 :: list_tag Unordered ++ 62 :: concat (map item_html items)
              ++ str "</" ++ list_tag Unordered ++ [62])
      with ([60; 117; 108; 62] ++ concat (map item_html items) ++ [60; 47; 117; 108; 62]).
    apply quiet_app; [quiet_literal|].
    apply quiet_app; [|quiet_literal].
    now apply (quiet_items Ordered).
  - apply match_at_first. reflexivity.
Qed.

Lemma quiet_list_body_ordered its : forall it bef q,
  Forall (fun it => absent cLT (text it) = true) (it :: its) ->
  quiet Re.merge_ul bef (list_body Ordered it its) q.
Proof.
  induction its as [|it' its IH]; intros it bef q Hall;
    inversion Hall as [|? ? Hit Hits]; subst; cbn [list_body].
  - apply quiet_app; [now apply (quiet_item_html Unordered)|].
    change (str "</" ++ list_tag Ordered ++ [62]) with [60; 47; 111; 108; 62].
    quiet_literal.
  - apply quiet_app; [now apply (quiet_item_html Unordered)|].
    change (str "</" ++ list_tag Ordered ++ 62 :: cNL :: 60 :: list_tag Ordered
              ++ 62 :: list_body Ordered it' its)
      with ([60; 47; 111; 108; 62; cNL; 60; 111; 108; 62] ++ list_body Ordered it' its).
    apply quiet_app; [quiet_literal|]. now apply IH.
Qed.

Lemma merge_ul_quiet items :
  Forall (fun it => absent cLT (text it) = true) items -> items <> [] ->
  merge_ul_rule (lines (map (item_line Ordered) items)) = lines (map (item_line Ordered) items).
Proof.
  intros Hall Hne. destruct items as [|it its]; [contradiction|].
  rewrite lines_item_lines. unfold merge_ul_rule. apply replace_tmpl_quiet.
  - change (60 :: list_tag Ordered ++ 62 :: list_body Ordered it its)
      with ([60; 111; 108; 62] ++ list_body Ordered it its).
    apply quiet_app; [quiet_literal|]. now apply quiet_list_body_ordered.
  - apply match_at_first. reflexivity.
Qed.

Lemma line_ok_text k items :
  Forall (fun it => line_ok k it = true) items ->
  Forall (fun it => no_line_end (text it) = true) items /\
  Forall (fun it => absent cLT (text it) = true) items.
Proof.
  intros H. split; (eapply Forall_impl; [|exact H]); intros it Hit;
    now destruct (line_ok_parts _ _ Hit) as (_ & _ & ? & ?).
Qed.

(** The four list rules on a run of list lines of one kind. *)
Lemma list_rules_lines k items :
  Forall (fun it => line_ok k it = true) items -> items <> [] ->
  list_rules (lines (map (line_text k) items)) = list_html k items.
Proof.
  intros Hall Hne. destruct (line_ok_text k items Hall) as [Hnl Hlt].
  pose proof (merge_same k items Hlt Hne) as E.
  unfold list_rules. destruct k; cbn [merge_rule] in E.
  - rewrite (unordered_items_lines items Hall Hne).
    rewrite (ordered_items_quiet Unordered items Hnl Hne).
    rewrite E. now apply merge_ol_quiet.
  - rewrite (unordered_items_quiet items Hall Hne).
    rewrite (ordered_items_lines items Hall Hne).
    rewrite (merge_ul_quiet items Hlt Hne).
    exact E.
Qed.

(** ** Rules that find nothing to act on *)

Ltac first_never :=
  let bef := fresh "bef" in
  let a := fresh "a" in
  let aft := fresh "aft" in
  let Ha := fresh "Ha" in
  first
    [ intros bef a aft Ha; cbn; rewrite ?Ha; cbn; rewrite ?andb_false_r; reflexivity
    | intros bef; cbn; rewrite ?andb_false_r; reflexivity ].

Lemma replace_tmpl_absent re t ch s :
  (forall bef a aft, (a =? ch) = false ->
     first_ok (multiline re) (source re) (mkState bef (a :: aft) []) = false) ->
  (forall bef, first_ok (multiline re) (source re) (mkState bef [] []) = false) ->
  absent ch s = true ->
  replace_tmpl re t s = s.
Proof.
  intros H1 H2 Hs. unfold replace_tmpl.
  now rewrite (replace_absent re (template_replacer t) ch tt s H1 H2 Hs).
Qed.

Lemma replace_fn_absent re g ch s :
  (forall bef a aft, (a =? ch) = false ->
     first_ok (multiline re) (source re) (mkState bef (a :: aft) []) = false) ->
  (forall bef, first_ok (multiline re) (source re) (mkState bef [] []) = false) ->
  absent ch s = true ->
  replace_fn re g s = s.
Proof.
  intros H1 H2 Hs. unfold replace_fn.
  now rewrite (replace_absent re _ ch tt s H1 H2 Hs).
Qed.

Lemma headings_absent s : absent 35 s = true -> headings s = s.
Proof.
  intros Hs. unfold headings, heading_rule.
  repeat (rewrite (replace_tmpl_absent _ _ 35 s); [|first_never|first_never|exact Hs]).
  reflexivity.
Qed.

Lemma fences_absent s : absent 96 s = true -> fences s = s.
Proof. intros Hs. apply (replace_fn_absent _ _ 96); [first_never|first_never|exact Hs]. Qed.

Lemma tables_absent s : absent 124 s = true -> tables s = s.
Proof. intros Hs. apply (replace_fn_absent _ _ 124); [first_never|first_never|exact Hs]. Qed.

Lemma blockquotes_absent s : absent 62 s = true -> blockquotes s = s.
Proof. intros Hs. apply (replace_tmpl_absent _ _ 62); [first_never|first_never|exact Hs]. Qed.

Lemma bold_absent s : absent 42 s = true -> bold_rule s = s.
Proof. intros Hs. apply (replace_tmpl_absent _ _ 42); [first_never|first_never|exact Hs]. Qed.

Lemma italic_absent s : absent 42 s = true -> italic_rule s = s.
Proof. intros Hs. apply (replace_tmpl_absent _ _ 42); [first_never|first_never|exact Hs]. Qed.

Lemma strike_absent s : absent 126 s = true -> strike_rule s = s.
Proof. intros Hs. apply (replace_tmpl_absent _ _ 126); [first_never|first_never|exact Hs]. Qed.

Lemma inline_code_absent s : absent 96 s = true -> inline_code s = s.
Proof. intros Hs. apply (replace_tmpl_absent _ _ 96); [first_never|first_never|exact Hs]. Qed.

Lemma links_absent s : absent 91 s = true -> links s = s.
Proof. intros Hs. apply (replace_tmpl_absent _ _ 91); [first_never|first_never|exact Hs]. Qed.

(** ** The paragraph pass on one block element *)

Lemma split_scan_quiet re s : forall bef piece,
  quiet re bef s [] -> split_scan re bef s piece 0 = [rev piece ++ s].
Proof.
  induction s as [|a s IH]; intros bef piece Hq.
  - simpl. now rewrite app_nil_r.
  - cbn [split_scan].
    pose proof (Hq [] a s eq_refl) as H0. simpl in H0. rewrite app_nil_r in H0.
    rewrite H0, IH.
    + simpl. now rewrite <- app_assoc.
    + intros p1 b p2 E. specialize (Hq (a :: p1) b p2). simpl in Hq.
      rewrite <- app_assoc in Hq. apply Hq. now rewrite E.
Qed.

Lemma no_line_end_absent s : no_line_end s = true -> absent cNL s = true.
Proof.
  intros H. unfold absent. apply negb_true_iff.
  destruct (existsb (N.eqb cNL) s) eqn:E; [|reflexivity].
  apply existsb_exists in E as (a & Ha & Ea). apply N.eqb_eq in Ea. subst a.
  pose proof (no_line_end_in s cNL H Ha) as X. vm_compute in X. discriminate X.
Qed.

Lemma split_one_block s :
  s <> [] -> no_line_end s = true -> regex_split Re.blank_lines s = [s].
Proof.
  intros Hne Hs. unfold regex_split. destruct s as [|a s]; [contradiction|].
  apply (split_scan_quiet Re.blank_lines (a :: s) [] []).
  apply (quiet_absent _ cNL); [first_never|now apply no_line_end_absent].
Qed.

Lemma trim_start_keep a s : is_space a = false -> trim_start (a :: s) = a :: s.
Proof. intros H. simpl. now rewrite H. Qed.

Lemma trim_keep a s b :
  is_space a = false -> is_space b = false -> trim (a :: s ++ [b]) = a :: s ++ [b].
Proof.
  intros Ha Hb. unfold trim, trim_end. rewrite trim_start_keep by assumption.
  change (a :: s ++ [b]) with ((a :: s) ++ [b]).
  replace (rev ((a :: s) ++ [b])) with (b :: rev (a :: s))
    by (rewrite rev_app_distr; reflexivity).
  rewrite trim_start_keep by assumption.
  change (b :: rev (a :: s)) with ([b] ++ rev (a :: s)).
  now rewrite rev_app_distr, rev_involutive.
Qed.

Lemma list_html_shape k items :
  exists s, list_html k items = 60 :: list_tag k ++ 62 :: s ++ [62].
Proof.
  exists (concat (map item_html items) ++ str "</" ++ list_tag k).
  unfold list_html. destruct k; simpl; now rewrite <- !app_assoc.
Qed.

Lemma wrap_list k items :
  wrap_paragraph (list_html k items) = list_html k items.
Proof.
  destruct (list_html_shape k items) as [s E]. rewrite E.
  assert (T : trim (60 :: list_tag k ++ 62 :: s ++ [62]) = 60 :: list_tag k ++ 62 :: s ++ [62]).
  { replace (60 :: list_tag k ++ 62 :: s ++ [62])
      with (60 :: (list_tag k ++ 62 :: s) ++ [62])
      by (destruct k; simpl; reflexivity).
    now apply trim_keep. }
  unfold wrap_paragraph. rewrite T. destruct k; reflexivity.
Qed.

Lemma paragraphs_list k items :
  Forall (fun it => no_line_end (text it) = true) items ->
  paragraphs (list_html k items) = list_html k items.
Proof.
  intros Hall. unfold paragraphs. rewrite split_one_block.
  - cbn [map join_empty concat]. rewrite wrap_list. apply app_nil_r.
  - unfold list_html. discriminate.
  - unfold list_html.
    change (no_line_end (60 :: ?l)) with (no_line_end l).
    rewrite !no_line_end_app.
    assert (C : no_line_end (concat (map item_html items)) = true).
    { induction Hall as [|it its Hit _ IH]; [reflexivity|].
      cbn [map concat]. unfold item_html at 1.
      now rewrite !no_line_end_app, Hit, IH. }
    change (no_line_end (62 :: ?l)) with (no_line_end l).
    rewrite !no_line_end_app, C. destruct k; reflexivity.
Qed.

(** ** Characters absent from list lines and from list elements *)

Lemma absent_forall ch s :
  (forall a, In a s -> (a =? ch) = false) -> absent ch s = true.
Proof.
  intros H. unfold absent. apply negb_true_iff.
  destruct (existsb (N.eqb ch) s) eqn:E; [|reflexivity].
  apply existsb_exists in E as (a & Ha & Ea). apply N.eqb_eq in Ea. subst a.
  pose proof (H ch Ha) as X. rewrite N.eqb_refl in X. discriminate X.
Qed.

Lemma absent_white ch s :
  forallb is_white_space s = true -> In ch (str "#`|<>*~[-.0123456789") -> absent ch s = true.
Proof.
  intros Hs Hch. apply absent_forall. intros a Ha.
  apply white_not_char; [|assumption]. now apply (proj1 (forallb_forall _ _) Hs).
Qed.

Lemma absent_digits ch s :
  forallb is_digit s = true -> In ch (str "#`|<>*~[-. ") -> absent ch s = true.
Proof.
  intros Hs Hch. apply absent_forall. intros a Ha.
  apply digit_not_char; [|assumption]. now apply (proj1 (forallb_forall _ _) Hs).
Qed.

Lemma plain_parts t :
  plain t = true ->
  no_line_end t = true /\ forall ch, In ch markup_chars -> absent ch t = true.
Proof.
  unfold plain. intros H. apply andb_prop in H as [H1 H2]. split; [assumption|].
  intros ch Hch. now apply (proj1 (forallb_forall _ _) H2).
Qed.

Lemma absent_lines ch ls :
  (ch =? cNL) = false ->
  Forall (fun l => absent ch l = true) ls -> absent ch (lines ls) = true.
Proof.
  intros Hch Hall. induction Hall as [|l ls Hl _ IH]; [reflexivity|].
  rewrite lines_cons, absent_app, Hl. destruct ls as [|l' ls]; [reflexivity|].
  cbn [tail_lines]. change (cNL :: lines (l' :: ls)) with ([cNL] ++ lines (l' :: ls)).
  rewrite absent_app, IH. unfold absent. cbn [existsb]. now rewrite Hch.
Qed.

(** The block rules before the list rules look for one of these. *)
Lemma absent_line_text k it ch :
  line_ok k it = true -> plain (text it) = true -> In ch (str "#`|>") ->
  absent ch (line_text k it) = true.
Proof.
  intros Hok Hpl Hch. destruct (line_ok_parts _ _ Hok) as (Hi & Hm & _ & _).
  destruct (plain_parts _ Hpl) as [_ Ht].
  assert (Hw : absent ch (indent it) = true).
  { apply absent_white; [assumption|]. simpl in *. tauto. }
  assert (Hx : absent ch (text it) = true).
  { apply Ht. simpl in *. tauto. }
  destruct k; unfold line_text.
  - change (32 :: text it) with ([32] ++ text it).
    rewrite !absent_app, Hw, Hx.
    destruct (marker it) as [|c [|]]; try discriminate. cbn [marker_ok] in Hm.
    unfold absent. cbn [existsb].
    simpl in Hch. decompose [or] Hch; try contradiction; subst ch;
      (replace (_ =? c) with false; [reflexivity|symmetry; char_facts]).
  - change (46 :: 32 :: text it) with ([46; 32] ++ text it).
    rewrite !absent_app, Hw, Hx.
    destruct (marker it) as [|c mk] eqn:E; try discriminate. cbn [marker_ok] in Hm.
    rewrite (absent_digits ch (c :: mk)); [|assumption|simpl in *; tauto].
    simpl in Hch. decompose [or] Hch; try contradiction; subst ch; reflexivity.
Qed.

Lemma absent_source k items ch :
  Forall (fun it => line_ok k it = true) items ->
  Forall (fun it => plain (text it) = true) items ->
  In ch (str "#`|>") ->
  absent ch (lines (map (line_text k) items)) = true.
Proof.
  intros Hok Hpl Hch. apply absent_lines.
  - simpl in Hch. decompose [or] Hch; try contradiction; subst ch; reflexivity.
  - apply Forall_map. rewrite Forall_forall in *. intros it Hit.
    apply absent_line_text; auto.
Qed.

(** The inline rules look for one of these. *)
Lemma absent_list_html k items ch :
  Forall (fun it => plain (text it) = true) items ->
  In ch (str "*~`[") ->
  absent ch (list_html k items) = true.
Proof.
  intros Hpl Hch.
  assert (C : absent ch (concat (map item_html items)) = true).
  { induction Hpl as [|it its Hit _ IH]; [reflexivity|].
    cbn [map concat]. unfold item_html at 1.
    destruct (plain_parts _ Hit) as [_ Ht].
    rewrite !absent_app, IH, Ht by (simpl in *; tauto).
    simpl in Hch. decompose [or] Hch; try contradiction; subst ch; reflexivity. }
  unfold list_html.
  change (60 :: list_tag k ++ 62 :: concat (map item_html items) ++ str "</" ++ list_tag k ++ [62])
    with ((60 :: list_tag k) ++ [62] ++ concat (map item_html items) ++ str "</" ++ list_tag k ++ [62]).
  rewrite !absent_app, C.
  simpl in Hch. decompose [or] Hch; try contradiction; subst ch; destruct k; reflexivity.
Qed.

(** The converter on a run of list lines with plain item texts. *)
Lemma convert_list_lines k items :
  Forall (fun it => line_ok k it = true) items -> items <> [] ->
  Forall (fun it => plain (text it) = true) items ->
  markdownToHTML (lines (map (line_text k) items)) = list_html k items.
Proof.
  intros Hok Hne Hpl.
  destruct (line_ok_text k items Hok) as [Hnl _].
  unfold markdownToHTML, block_rules, inline_rules.
  rewrite (headings_absent _ (absent_source k items 35 Hok Hpl ltac:(simpl; tauto))).
  rewrite (fences_absent _ (absent_source k items 96 Hok Hpl ltac:(simpl; tauto))).
  rewrite (tables_absent _ (absent_source k items 124 Hok Hpl ltac:(simpl; tauto))).
  rewrite (blockquotes_absent _ (absent_source k items 62 Hok Hpl ltac:(simpl; tauto))).
  rewrite (list_rules_lines k items Hok Hne).
  rewrite (bold_absent _ (absent_list_html k items 42 Hpl ltac:(simpl; tauto))).
  rewrite (italic_absent _ (absent_list_html k items 42 Hpl ltac:(simpl; tauto))).
  rewrite (strike_absent _ (absent_list_html k items 126 Hpl ltac:(simpl; tauto))).
  rewrite (inline_code_absent _ (absent_list_html k items 96 Hpl ltac:(simpl; tauto))).
  rewrite (links_absent _ (absent_list_html k items 91 Hpl ltac:(simpl; tauto))).
  now apply paragraphs_list.
Qed.

Lemma forallb_Forall {A} (p : A -> bool) (l : list A) :
  forallb p l = true -> Forall (fun a => p a = true) l.
Proof.
  intros H. apply Forall_forall. intros a Ha. now apply (proj1 (forallb_forall _ _) H).
Qed.

(** ** A line that no rule reads: paragraph text *)

Lemma unordered_not_at bef c aft :
  is_space c = false -> (c =? 42) = false -> (c =? 45) = false ->
  match_at Re.unordered bef (c :: aft) = None.
Proof.
  intros Hs H1 H2. unfold match_at, Re.unordered. cbn [source multiline].
  rewrite m_seq, m_bol. destruct (at_bol _ _); [|reflexivity].
  rewrite m_seq. unfold star, white.
  change (c :: aft) with ([] ++ c :: aft).
  rewrite (m_star true (Class false [CSpace]) _ eq_refl);
    [|reflexivity|unfold stops, class_matches; simpl; now rewrite Hs].
  cbn [greedy_try].
  rewrite m_seq, m_group, (m_atom true (Class false [cc "*"; cc "-"]) _ eq_refl).
  cbn [app].
  replace (class_matches false [cc "*"; cc "-"] c) with false; [reflexivity|].
  unfold class_matches, cc. simpl. now rewrite H1, H2.
Qed.

Lemma ordered_not_at bef c aft :
  is_space c = false -> is_digit c = false ->
  match_at Re.ordered bef (c :: aft) = None.
Proof.
  intros Hs Hd. unfold match_at, Re.ordered. cbn [source multiline].
  rewrite m_seq, m_bol. destruct (at_bol _ _); [|reflexivity].
  rewrite m_seq. unfold star, white.
  change (c :: aft) with ([] ++ c :: aft).
  rewrite (m_star true (Class false [CSpace]) _ eq_refl);
    [|reflexivity|unfold stops, class_matches; simpl; now rewrite Hs].
  cbn [greedy_try]. rewrite m_seq, m_group. unfold plus, digit.
  rewrite (m_plus_none true (Class false [CDigit]) _ eq_refl); [reflexivity|].
  unfold stops, class_matches. simpl. now rewrite Hd.
Qed.

(** A literal anchored at the start of the subject, without the [m] flag,
    matches nowhere behind the start. *)
Lemma quiet_behind_start re r c bef p q :
  source re = Seq Bol r -> multiline re = false -> quiet re (c :: bef) p q.
Proof.
  intros Hre Hml p1 a p2 E. apply match_at_first. rewrite Hre, Hml.
  apply first_ok_bol. unfold at_bol. cbn [before].
  destruct (rev p1 ++ c :: bef) eqn:E'; [|reflexivity].
  apply app_eq_nil in E' as [_ E']. discriminate E'.
Qed.

Lemma regex_test_quiet re s : forall bef,
  quiet re bef s [] -> match_at re (rev s ++ bef) [] = None ->
  regex_test re bef s = false.
Proof.
  induction s as [|a s IH]; intros bef Hq He.
  - simpl in *. now rewrite He.
  - cbn [regex_test].
    pose proof (Hq [] a s eq_refl) as H0. simpl in H0. rewrite app_nil_r in H0.
    rewrite H0. apply IH.
    + intros p1 b p2 E. specialize (Hq (a :: p1) b p2). simpl in Hq.
      rewrite <- app_assoc in Hq. apply Hq. now rewrite E.
    + simpl in He. now rewrite <- app_assoc in He.
Qed.

Lemma trim_start_behind l : forall a,
  is_space a = false ->
  exists p w, l = p ++ w /\ trim_start (l ++ [a]) = w ++ [a].
Proof.
  induction l as [|c l IH]; intros a Ha.
  - exists [], []. split; [reflexivity|]. simpl. now rewrite Ha.
  - destruct (is_space c) eqn:Ec.
    + destruct (IH a Ha) as (p & w & E & T). exists (c :: p), w.
      split; [now rewrite E|]. simpl. now rewrite Ec.
    + exists [], (c :: l). split; [reflexivity|]. simpl. now rewrite Ec.
Qed.

(** Behind a first code unit that is no white space, [trim] keeps a
    prefix of the text. *)
Lemma trim_cons a s :
  is_space a = false -> exists s1 s2, s = s1 ++ s2 /\ trim (a :: s) = a :: s1.
Proof.
  intros Ha. unfold trim, trim_end. rewrite trim_start_keep by assumption.
  simpl rev. destruct (trim_start_behind (rev s) a Ha) as (p & w & E & T).
  rewrite T. exists (rev w), (rev p). split.
  - rewrite <- rev_app_distr, <- E. now rewrite rev_involutive.
  - now rewrite rev_app_distr.
Qed.

Lemma wrap_text a s :
  is_space a = false -> (a =? 60) = false -> no_line_end (a :: s) = true ->
  wrap_paragraph (a :: s) = str "<p>" ++ trim (a :: s) ++ str "</p>".
Proof.
  intros Ha Hlt Hnl. unfold wrap_paragraph.
  destruct (trim_cons a s Ha) as (s1 & s2 & E & T). rewrite T.
  assert (Hnl1 : no_line_end (a :: s1) = true).
  { subst s. change (a :: s1 ++ s2) with ((a :: s1) ++ s2) in Hnl.
    rewrite no_line_end_app in Hnl. now apply andb_prop in Hnl as [H _]. }
  rewrite regex_test_quiet.
  - rewrite (replace_tmpl_absent _ _ cNL); [reflexivity|first_never|first_never|].
    now apply no_line_end_absent.
  - apply quiet_cons.
    + apply match_at_first. cbn. now rewrite Hlt.
    + now apply (quiet_behind_start Re.block_tag _ _ _ _ _ eq_refl).
  - apply match_at_first. simpl rev. cbn [Re.block_tag source multiline].
    apply first_ok_bol. unfold at_bol. cbn [before].
    destruct (rev s1 ++ [a]) eqn:E'; [|reflexivity].
    apply app_eq_nil in E' as [_ E']. discriminate E'.
Qed.

Lemma absent_repeat ch c n : (c =? ch) = false -> absent ch (repeat c n) = true.
Proof.
  intros H. apply absent_forall. intros a Ha. apply repeat_spec in Ha. now subst a.
Qed.

(** The converter on a line of seven or more [#], a blank and plain
    text. *)
Lemma convert_long_hash_run n t :
  plain t = true ->
  markdownToHTML (repeat 35 (7 + n) ++ 32 :: t)
  = str "<p>" ++ trim (repeat 35 (7 + n) ++ 32 :: t) ++ str "</p>".
Proof.
  intros Hpl. destruct (plain_parts t Hpl) as [Hnl Hab].
  assert (Hl : no_line_end (repeat 35 (7 + n) ++ 32 :: t) = true).
  { rewrite no_line_end_app, no_line_end_repeat by reflexivity. exact Hnl. }
  assert (A : forall ch, In ch markup_chars -> (35 =? ch) = false ->
                absent ch (repeat 35 (7 + n) ++ 32 :: t) = true).
  { intros ch Hch Hne. change (32 :: t) with ([32] ++ t).
    rewrite !absent_app, absent_repeat, (Hab ch Hch) by assumption.
    simpl in Hch. decompose [or] Hch; try contradiction; subst ch; reflexivity. }
  unfold markdownToHTML, block_rules, inline_rules, list_rules.
  assert (H : headings (repeat 35 (7 + n) ++ 32 :: t) = repeat 35 (7 + n) ++ 32 :: t).
  { unfold headings.
    repeat (rewrite heading_rule_long_run; [|simpl; tauto|assumption]). reflexivity. }
  rewrite H.
  rewrite (fences_absent _ (A 96 ltac:(simpl; tauto) eq_refl)).
  rewrite (tables_absent _ (A 124 ltac:(simpl; tauto) eq_refl)).
  rewrite (blockquotes_absent _ (A 62 ltac:(simpl; tauto) eq_refl)).
  revert Hl A. change (repeat 35 (7 + n) ++ 32 :: t)
    with (35 :: (repeat 35 (6 + n) ++ 32 :: t)).
  generalize (repeat 35 (6 + n) ++ 32 :: t). intros s Hl A.
  assert (Hs : no_line_end s = true) by exact Hl.
  assert (U : unordered_items (35 :: s) = 35 :: s).
  { apply replace_tmpl_quiet.
    - apply quiet_cons; [now apply unordered_not_at|].
      now apply (quiet_inside Re.unordered _ _ _ _ _ eq_refl).
    - simpl rev. rewrite app_nil_r.
      now apply (match_at_inside Re.unordered _ _ _ _ _ eq_refl). }
  assert (O : ordered_items (35 :: s) = 35 :: s).
  { apply replace_tmpl_quiet.
    - apply quiet_cons; [now apply ordered_not_at|].
      now apply (quiet_inside Re.ordered _ _ _ _ _ eq_refl).
    - simpl rev. rewrite app_nil_r.
      now apply (match_at_inside Re.ordered _ _ _ _ _ eq_refl). }
  rewrite U, O.
  assert (M1 : merge_ul_rule (35 :: s) = 35 :: s).
  { apply (replace_tmpl_absent _ _ 60);
      [first_never|first_never|exact (A 60 ltac:(simpl; tauto) eq_refl)]. }
  assert (M2 : merge_ol_rule (35 :: s) = 35 :: s).
  { apply (replace_tmpl_absent _ _ 60);
      [first_never|first_never|exact (A 60 ltac:(simpl; tauto) eq_refl)]. }
  rewrite M1, M2.
  rewrite (bold_absent _ (A 42 ltac:(simpl; tauto) eq_refl)).
  rewrite (italic_absent _ (A 42 ltac:(simpl; tauto) eq_refl)).
  rewrite (strike_absent _ (A 126 ltac:(simpl; tauto) eq_refl)).
  rewrite (inline_code_absent _ (A 96 ltac:(simpl; tauto) eq_refl)).
  rewrite (links_absent _ (A 91 ltac:(simpl; tauto) eq_refl)).
  unfold paragraphs. rewrite split_one_block; [|discriminate|exact Hl].
  cbn [map join_empty concat]. rewrite app_nil_r.
  now apply wrap_text.
Qed.

(** ** The restoration where a token is missing *)

Lemma find_first_none pat s : forall pre,
  includes pat s = false -> find_first pat pre s = None.
Proof.
  induction s as [|a s IH]; intros pre H; cbn [includes find_first] in *.
  - apply orb_false_iff in H as [H _]. now rewrite H.
  - apply orb_false_iff in H as [H1 H2]. rewrite H1. now apply IH.
Qed.

(** A token that the markup does not hold leaves the markup as it is:
    nothing is raised and the other tokens stay where they are. *)
Lemma replace_string_missing pat block html :
  includes pat html = false -> replace_string pat block html = html.
Proof. intros H. unfold replace_string. now rewrite find_first_none. Qed.

Lemma restore_missing html blocks : forall index,
  (forall i, includes (token i) html = false) ->
  restore_from index blocks html = html.
Proof.
  induction blocks as [|block blocks IH]; intros index H; [reflexivity|].
  cbn [restore_from]. rewrite replace_string_missing by apply H. now apply IH.
Qed.

(** ** The fuel of the quantifier is never used up *)

Lemma repeat_forward mr ids g :
  forward mr ->
  forall fuel min max x c c',
    (forall y, (length (after y) <= length (after x))%nat -> c y = c' y) ->
    repeat_matcher mr ids fuel min max g x c = repeat_matcher mr ids fuel min max g x c'.
Proof.
  intros Hmr. induction fuel as [|fuel IH]; intros min max x c c' H; [reflexivity|].
  cbn [repeat_matcher].
  assert (Hx : c x = c' x) by (apply H; lia).
  assert (Hd : forall y, (length (after y) <= length (after x))%nat ->
     (if Nat.eqb min 0 && Nat.eqb (length (after y)) (length (after x)) then None
      else repeat_matcher mr ids fuel (Nat.pred min) (option_map Nat.pred max) g y c)
     = (if Nat.eqb min 0 && Nat.eqb (length (after y)) (length (after x)) then None
        else repeat_matcher mr ids fuel (Nat.pred min) (option_map Nat.pred max) g y c')).
  { intros y Hy. destruct (_ && _); [reflexivity|].
    apply IH. intros z Hz. apply H. lia. }
  assert (Hm : forall xr, after xr = after x ->
     mr xr (fun y =>
       if Nat.eqb min 0 && Nat.eqb (length (after y)) (length (after x)) then None
       else repeat_matcher mr ids fuel (Nat.pred min) (option_map Nat.pred max) g y c)
     = mr xr (fun y =>
       if Nat.eqb min 0 && Nat.eqb (length (after y)) (length (after x)) then None
       else repeat_matcher mr ids fuel (Nat.pred min) (option_map Nat.pred max) g y c')).
  { intros xr E. apply Hmr. intros y Hy. apply Hd. now rewrite <- E. }
  destruct max as [[|mx]|]; try exact Hx;
    rewrite Hm by reflexivity; rewrite Hx; reflexivity.
Qed.

Lemma m_forward ml r : forward (m ml r).
Proof.
  induction r as [|ch| |inv atoms| | |r1 IH1 r2 IH2|r1 IH1 r2 IH2|mn mx g r IH|n r IH];
    intros x c c' H; cbn [m].
  - apply H; lia.
  - destruct x as [bef [|a aft] cs]; cbn [after advance]; [reflexivity|].
    destruct (a =? ch); [|reflexivity]. apply H. simpl. lia.
  - destruct x as [bef [|a aft] cs]; cbn [after advance]; [reflexivity|].
    destruct (is_line_terminator a); [reflexivity|]. apply H. simpl. lia.
  - destruct x as [bef [|a aft] cs]; cbn [after advance]; [reflexivity|].
    destruct (class_matches inv atoms a); [|reflexivity]. apply H. simpl. lia.
  - destruct (at_bol ml x); [|reflexivity]. apply H; lia.
  - destruct (at_eol ml x); [|reflexivity]. apply H; lia.
  - apply IH1. intros y Hy. apply IH2. intros z Hz. apply H. lia.
  - rewrite (IH1 x c c' H), (IH2 x c c' H). reflexivity.
  - now apply repeat_forward.
  - apply IH. intros y Hy. apply H. exact Hy.
Qed.

(** More fuel than the bound changes nothing: the bound is enough. *)
Lemma repeat_fuel mr ids g :
  forward mr ->
  forall fuel min max x c,
    (min + length (after x) < fuel)%nat ->
    repeat_matcher mr ids fuel min max g x c
    = repeat_matcher mr ids (S fuel) min max g x c.
Proof.
  intros Hmr. induction fuel as [|fuel IH]; intros min max x c Hf; [lia|].
  cbn [repeat_matcher].
  assert (Hm : forall xr, after xr = after x ->
     mr xr (fun y =>
       if Nat.eqb min 0 && Nat.eqb (length (after y)) (length (after x)) then None
       else repeat_matcher mr ids fuel (Nat.pred min) (option_map Nat.pred max) g y c)
     = mr xr (fun y =>
       if Nat.eqb min 0 && Nat.eqb (length (after y)) (length (after x)) then None
       else repeat_matcher mr ids (S fuel) (Nat.pred min) (option_map Nat.pred max) g y c)).
  { intros xr E. apply Hmr. intros y Hy. rewrite E in Hy.
    destruct (Nat.eqb min 0) eqn:E0; cbn [andb].
    - destruct (Nat.eqb (length (after y)) (length (after x))) eqn:E1; [reflexivity|].
      apply Nat.eqb_eq in E0. apply Nat.eqb_neq in E1. apply IH. lia.
    - apply Nat.eqb_neq in E0. apply IH. lia. }
  destruct max as [[|mx]|]; try reflexivity;
    rewrite Hm by reflexivity; reflexivity.
Qed.

Lemma quantifier_fuel_enough ml min max g r x c extra :
  repeat_matcher (m ml r) (group_ids r) (extra + S (min + length (after x))) min max g x c
  = m ml (Quant min max g r) x c.
Proof.
  induction extra as [|extra IH]; [reflexivity|].
  rewrite <- IH. symmetry. apply repeat_fuel; [apply m_forward|lia].
Qed.

(** ** Display math before inline math *)

Lemma match_display bef body rest :
  absent cDollar body = true ->
  match_at Re.math bef ([36; 36] ++ body ++ [36; 36] ++ rest)
  = Some (mkState (rev ([36; 36] ++ body ++ [36; 36]) ++ bef) rest
            [(1%nat, [36; 36] ++ body ++ [36; 36])]).
Proof.
  intros Hb. unfold match_at, Re.math. cbn [source multiline].
  change (lit "$$") with (fold_right (fun a r => Seq (Char a) r) Empty [36; 36]).
  rewrite m_group, m_alt, m_seq, m_lit, m_seq. unfold lazy_star.
  rewrite (m_lazy_star_all false any _ _ _ _ _ eq_refl) by apply forallb_any.
  rewrite lazy_try_skip.
  2:{ intros p a q E. apply first_ok_sound. cbn.
      rewrite (absent_in cDollar body); [reflexivity|assumption|].
      subst body. apply in_or_app. right. now left. }
  rewrite (lazy_try_now _ _ _ _ _
             (mkState (rev ([36; 36] ++ body ++ [36; 36]) ++ bef) rest
                [(1%nat, [36; 36] ++ body ++ [36; 36])])); [reflexivity|].
  rewrite app_nil_r, m_lit. cbn [before after caps].
  replace ([36; 36] ++ body ++ [36; 36] ++ rest)
    with (([36; 36] ++ body ++ [36; 36]) ++ rest)
    by (rewrite <- !app_assoc; reflexivity).
  rewrite consumed_app. f_equal. f_equal.
  repeat (rewrite ?rev_app_distr; simpl rev; rewrite <- ?app_assoc; simpl app).
  reflexivity.
Qed.

Lemma extract_display body :
  absent cDollar body = true ->
  extract (str "$$" ++ body ++ str "$$") = (token 0, [str "$$" ++ body ++ str "$$"]).
Proof.
  intros Hb. unfold extract, replace_with.
  change (str "$$") with [36; 36].
  pose proof (match_display [] body [] Hb) as M.
  change ([36; 36] ++ []) with [36; 36] in M.
  assert (Hne : [36; 36] ++ body ++ [36; 36] <> []) by discriminate.
  assert (M' : match_at Re.math [] (([36; 36] ++ body ++ [36; 36]) ++ [])
               = Some (mkState (rev ([36; 36] ++ body ++ [36; 36]) ++ []) []
                         [(1%nat, [36; 36] ++ body ++ [36; 36])]))
    by (rewrite app_nil_r; exact M).
  rewrite <- (app_nil_r ([36; 36] ++ body ++ [36; 36])) at 1.
  rewrite (scan_hit Re.math shield [] [] _ [] _ Hne M' eq_refl).
  cbv zeta. cbn [shield fst snd length app].
  rewrite scan_nil_none by (apply match_at_first; reflexivity).
  cbn [fst snd]. now rewrite app_nil_r.
Qed.

(** ** The captures a callback reads are always set *)

Lemma lookup_clear_caps ids n cs :
  ~ In n ids -> lookup_cap n (clear_caps ids cs) = lookup_cap n cs.
Proof.
  intros Hn. unfold clear_caps. induction cs as [|[k v] cs IH]; [reflexivity|].
  cbn [filter fst lookup_cap].
  destruct (existsb (Nat.eqb k) ids) eqn:E; cbn [negb lookup_cap].
  - destruct (Nat.eqb k n) eqn:Ek; [|exact IH].
    apply Nat.eqb_eq in Ek. subst k.
    apply existsb_exists in E as (j & Hj & Ej). apply Nat.eqb_eq in Ej. subst j.
    contradiction.
  - now rewrite IH.
Qed.

Lemma repeat_caps mr ids g :
  (forall x c z, mr x c = Some z ->
     exists y, c y = Some z /\
       forall n, ~ In n ids -> lookup_cap n (caps y) = lookup_cap n (caps x)) ->
  forall fuel min max x c z,
    repeat_matcher mr ids fuel min max g x c = Some z ->
    exists y, c y = Some z /\
      forall n, ~ In n ids -> lookup_cap n (caps y) = lookup_cap n (caps x).
Proof.
  intros Hmr. induction fuel as [|fuel IH]; intros min max x c z H; [discriminate|].
  cbn [repeat_matcher] in H.
  assert (Hstay : c x = Some z -> exists y, c y = Some z /\
            forall n, ~ In n ids -> lookup_cap n (caps y) = lookup_cap n (caps x)).
  { intros Hc. exists x. split; [exact Hc|reflexivity]. }
  assert (Hstep : forall d : cont,
            (forall y, d y = Some z -> repeat_matcher mr ids fuel (Nat.pred min)
                                         (option_map Nat.pred max) g y c = Some z) ->
            mr (mkState (before x) (after x) (clear_caps ids (caps x))) d = Some z ->
            exists y, c y = Some z /\
              forall n, ~ In n ids -> lookup_cap n (caps y) = lookup_cap n (caps x)).
  { intros d Hd Hm. apply Hmr in Hm as (y1 & Hy1 & P1). cbn [caps] in P1.
    apply Hd, IH in Hy1 as (y & Hy & P). exists y. split; [exact Hy|].
    intros n Hn. rewrite (P n Hn), (P1 n Hn). now apply lookup_clear_caps. }
  assert (Hd : forall y,
            (if Nat.eqb min 0 && Nat.eqb (length (after y)) (length (after x)) then None
             else repeat_matcher mr ids fuel (Nat.pred min) (option_map Nat.pred max) g y c)
            = Some z ->
            repeat_matcher mr ids fuel (Nat.pred min) (option_map Nat.pred max) g y c = Some z).
  { intros y. destruct (_ && _); [discriminate|trivial]. }
  destruct max as [[|mx]|]; [now apply Hstay| |];
    (destruct (negb (Nat.eqb min 0)); [now apply (Hstep _ Hd)|]);
    (destruct g; unfold or_else in H;
     [ destruct (mr _ _) eqn:E; [injection H as ->; now apply (Hstep _ Hd)|now apply Hstay]
     | destruct (c x) eqn:E; [injection H as ->; now apply Hstay|now apply (Hstep _ Hd)] ]).
Qed.

Lemma m_caps ml r : forall x c z,
  m ml r x c = Some z ->
  exists y, c y = Some z /\
    (forall n, In n (sure_groups r) -> lookup_cap n (caps y) <> None) /\
    (forall n, ~ In n (group_ids r) -> lookup_cap n (caps y) = lookup_cap n (caps x)).
Proof.
  induction r as [|ch| |inv atoms| | |r1 IH1 r2 IH2|r1 IH1 r2 IH2|mn mx g r IH|k r IH];
    intros x c z H; cbn [m] in H.
  - exists x. repeat split; [assumption|contradiction].
  - destruct x as [bef [|a aft] cs]; cbn [after advance] in H; [discriminate|].
    destruct (a =? ch); [|discriminate].
    exists (mkState (a :: bef) aft cs). repeat split; [assumption|contradiction].
  - destruct x as [bef [|a aft] cs]; cbn [after advance] in H; [discriminate|].
    destruct (is_line_terminator a); [discriminate|].
    exists (mkState (a :: bef) aft cs). repeat split; [assumption|contradiction].
  - destruct x as [bef [|a aft] cs]; cbn [after advance] in H; [discriminate|].
    destruct (class_matches inv atoms a); [|discriminate].
    exists (mkState (a :: bef) aft cs). repeat split; [assumption|contradiction].
  - destruct (at_bol ml x); [|discriminate]. exists x. repeat split; [assumption|contradiction].
  - destruct (at_eol ml x); [|discriminate]. exists x. repeat split; [assumption|contradiction].
  - apply IH1 in H as (y1 & H1 & S1 & P1). apply IH2 in H1 as (y & Hy & S2 & P2).
    exists y. split; [exact Hy|]. cbn [sure_groups group_ids]. split.
    + intros n Hn. apply in_app_or in Hn as [Hn|Hn]; [|now apply S2].
      apply filter_In in Hn as [Hn Hf]. rewrite P2; [now apply S1|].
      intros Hin. apply negb_true_iff in Hf.
      assert (existsb (Nat.eqb n) (group_ids r2) = true); [|congruence].
      apply existsb_exists. exists n. split; [assumption|apply Nat.eqb_refl].
    + intros n Hn. rewrite P2, P1; [reflexivity| |]; intros Hin; apply Hn, in_or_app; tauto.
  - cbn [sure_groups group_ids]. unfold or_else in H.
    destruct (m ml r1 x c) eqn:E.
    + injection H as ->. apply IH1 in E as (y & Hy & _ & P). exists y.
      repeat split; [assumption|contradiction|].
      intros n Hn. apply P. intros Hin. apply Hn, in_or_app. tauto.
    + apply IH2 in H as (y & Hy & _ & P). exists y.
      repeat split; [assumption|contradiction|].
      intros n Hn. apply P. intros Hin. apply Hn, in_or_app. tauto.
  - cbn [sure_groups group_ids].
    apply (repeat_caps (m ml r) (group_ids r) g) in H as (y & Hy & P).
    + exists y. repeat split; [assumption|contradiction|assumption].
    + intros x' c' z' H'. apply IH in H' as (y' & Hy' & _ & P'). now exists y'.
  - apply IH in H as (y & Hy & S1 & P1). eexists. split; [exact Hy|].
    cbn [sure_groups group_ids caps lookup_cap]. split.
    + intros n [->|Hn]; [now rewrite Nat.eqb_refl|].
      destruct (Nat.eqb k n); [discriminate|now apply S1].
    + intros n Hn. destruct (Nat.eqb k n) eqn:E.
      * apply Nat.eqb_eq in E. subst. exfalso. apply Hn. now left.
      * apply P1. intros Hin. apply Hn. now right.
Qed.

(** Both callbacks read captures that every match has set. *)
Lemma fence_captures_set bef aft y :
  match_at Re.fence bef aft = Some y ->
  exists lang code, captures_of Re.fence y = [Some lang; Some code].
Proof.
  intros H. apply m_caps in H as (y' & Hy & Hs & _). injection Hy as ->.
  pose proof (Hs 1%nat ltac:(cbn; tauto)) as H1.
  pose proof (Hs 2%nat ltac:(cbn; tauto)) as H2.
  change (captures_of Re.fence y) with [lookup_cap 1 (caps y); lookup_cap 2 (caps y)].
  destruct (lookup_cap 1 (caps y)) as [lang|]; [|contradiction].
  destruct (lookup_cap 2 (caps y)) as [code|]; [|contradiction].
  now exists lang, code.
Qed.

Lemma table_captures_set bef aft y :
  match_at Re.table bef aft = Some y ->
  exists header separator body,
    captures_of Re.table y = [Some header; Some separator; Some body].
Proof.
  intros H. apply m_caps in H as (y' & Hy & Hs & _). injection Hy as ->.
  pose proof (Hs 1%nat ltac:(cbn; tauto)) as H1.
  pose proof (Hs 2%nat ltac:(cbn; tauto)) as H2.
  pose proof (Hs 3%nat ltac:(cbn; tauto)) as H3.
  change (captures_of Re.table y)
    with [lookup_cap 1 (caps y); lookup_cap 2 (caps y); lookup_cap 3 (caps y)].
  destruct (lookup_cap 1 (caps y)) as [h|]; [|contradiction].
  destruct (lookup_cap 2 (caps y)) as [s|]; [|contradiction].
  destruct (lookup_cap 3 (caps y)) as [b|]; [|contradiction].
  now exists h, s, b.
Qed.

(** ** The claims *)

(** C1 (the code departs from it).  The claim expects header cells [a]
    and [b]; the converter returns a table whose header row is empty: the
    header text is captured without its outer bars, and dropping the first
    and the last piece of its split then drops the cells [a] and [b]
    themselves.  The body row is as the claim says. *)
Theorem C1_table_header_cells_dropped :
  markdownToHTML (lines [str "| a | b |"; str "| --- | --- |"; str "| 1 | 2 |"])
  = str "<table><thead><tr></tr></thead><tbody><tr><td>1</td><td>2</td></tr></tbody></table>"
  /\ includes (str "<th>") (markdownToHTML
       (lines [str "| a | b |"; str "| --- | --- |"; str "| 1 | 2 |"])) = false.
Proof. split; vm_compute; reflexivity. Qed.

(** C2.  In a text without the character [$] the extraction finds no
    span and leaves the text as it is, so restoring after the conversion
    of the shielded text gives the conversion of the text itself. *)
Theorem C2_shielding_without_math (s : jsstring) (H : absent cDollar s = true) :
  extract s = (s, []) /\
  restore (markdownToHTML (fst (extract s))) (snd (extract s)) = markdownToHTML s /\
  (s <> [] -> renderContent s = Some (markdownToHTML s)).
Proof.
  assert (E : extract s = (s, [])).
  { unfold extract.
    rewrite (replace_absent Re.math shield cDollar); try assumption; try reflexivity.
    intros bef a aft Ha. unfold cDollar in Ha. cbn. now rewrite Ha. }
  split; [exact E|]. split; [now rewrite E|].
  intros Hs. unfold renderContent. rewrite E. now destruct s.
Qed.

Lemma C2_shielding_without_math_witness :
  extract (str "# Title") = (str "# Title", []) /\
  restore (markdownToHTML (fst (extract (str "# Title")))) (snd (extract (str "# Title")))
  = markdownToHTML (str "# Title") /\
  (str "# Title" <> [] -> renderContent (str "# Title") = Some (markdownToHTML (str "# Title"))).
Proof. apply (C2_shielding_without_math (str "# Title")). reflexivity. Defined.

(** C3.  On the text of the claim the extraction returns the two spans
    in the order met and puts the tokens of index 0 and 1 where the spans
    stood; the shielded text is written out, character by character.
    Where a double delimiter opens a span that a double delimiter closes,
    the span is taken whole, as display math, not as the empty inline
    span that its first two [$] would make, and the token of index 0
    stands for it. *)
Theorem C3_extract_two_spans (body : jsstring) (Hb : absent cDollar body = true) :
  extract (str "Inline $x^2$ and block $$y=mx+b$$ end")
  = (str "Inline ___MATHJAX_PLACEHOLDER___0___MATHJAX_PLACEHOLDER___ and block ___MATHJAX_PLACEHOLDER___1___MATHJAX_PLACEHOLDER___ end",
     [str "$x^2$"; str "$$y=mx+b$$"]) /\
  extract (str "$$" ++ body ++ str "$$")
  = (str "___MATHJAX_PLACEHOLDER___0___MATHJAX_PLACEHOLDER___",
     [str "$$" ++ body ++ str "$$"]).
Proof.
  split; [vm_compute; reflexivity|].
  rewrite (extract_display body Hb). reflexivity.
Qed.

Lemma C3_extract_two_spans_witness :
  extract (str "Inline $x^2$ and block $$y=mx+b$$ end")
  = (str "Inline ___MATHJAX_PLACEHOLDER___0___MATHJAX_PLACEHOLDER___ and block ___MATHJAX_PLACEHOLDER___1___MATHJAX_PLACEHOLDER___ end",
     [str "$x^2$"; str "$$y=mx+b$$"]) /\
  extract (str "$$" ++ str "y=mx+b" ++ str "$$")
  = (str "___MATHJAX_PLACEHOLDER___0___MATHJAX_PLACEHOLDER___",
     [str "$$" ++ str "y=mx+b" ++ str "$$"]).
Proof. apply (C3_extract_two_spans (str "y=mx+b")). reflexivity. Defined.

(** C4 (the code departs from it).  A token that stands in the first
    header cell of a table is in the input and no longer in the output:
    it goes with the header cell that the table rule drops (the defect of
    C1). *)
Theorem C4_token_lost_in_table_header :
  let s := lines [str "| " ++ token 0 ++ str " | b |"; str "| --- | --- |"; str "| 1 | 2 |"] in
  includes (token 0) s = true /\ includes (token 0) (markdownToHTML s) = false.
Proof. split; vm_compute; reflexivity. Qed.

(** C5.  The block of the claim becomes a code element of language [js]
    holding [&lt;tag&gt;].  In general a fenced block, with a language tag
    that stays on its line and a content without back-quote, becomes the
    code element of that language whose content is the text between the
    fences with [<] and [>] replaced by their entities, every other
    character kept, and then trimmed. *)
Theorem C5_fenced_code (lang code : jsstring)
    (Hlang : no_line_end lang = true) (Hcode : absent 96 code = true) :
  markdownToHTML (lines [str "```js"; str "<tag>"; str "```"])
  = str "<pre><code class=" ++ dq ++ str "language-js" ++ dq
      ++ str ">&lt;tag&gt;</code></pre>" /\
  escape_code code = flat_map escape_char code /\
  fences (str "```" ++ lang ++ cNL :: code ++ str "```")
  = str "<pre><code class=" ++ dq ++ str "language-" ++ lang ++ dq ++ str ">"
      ++ trim (flat_map escape_char code) ++ str "</code></pre>".
Proof.
  split; [vm_compute; reflexivity|]. split.
  - apply escape_code_spec.
  - now apply fences_block.
Qed.

Lemma C5_fenced_code_witness :
  markdownToHTML (lines [str "```js"; str "<tag>"; str "```"])
  = str "<pre><code class=" ++ dq ++ str "language-js" ++ dq
      ++ str ">&lt;tag&gt;</code></pre>" /\
  escape_code (str "  a < b && b > c ") = flat_map escape_char (str "  a < b && b > c ") /\
  fences (str "```" ++ str "c" ++ cNL :: str "  a < b && b > c " ++ str "```")
  = str "<pre><code class=" ++ dq ++ str "language-" ++ str "c" ++ dq ++ str ">"
      ++ trim (flat_map escape_char (str "  a < b && b > c ")) ++ str "</code></pre>".
Proof.
  apply (C5_fenced_code (str "c") (str "  a < b && b > c ")); reflexivity.
Defined.

(** C6.  The text of the claim becomes a bold element around [bold], the
    text [ and ] and an italic element around [italic], in one paragraph
    and with no asterisk left.  The order of the two rules is what gives
    this: with the italic rule first, the double asterisks are read as two
    empty italic elements. *)
Theorem C6_bold_before_italic :
  inline_rules (str "**bold** and *italic*")
  = str "<strong>bold</strong> and <em>italic</em>" /\
  markdownToHTML (str "**bold** and *italic*")
  = str "<p><strong>bold</strong> and <em>italic</em></p>" /\
  absent 42 (markdownToHTML (str "**bold** and *italic*")) = true /\
  bold_rule (italic_rule (str "**bold** and *italic*"))
  = str "<em></em>bold<em></em> and <em>italic</em>".
Proof. repeat split; vm_compute; reflexivity. Qed.

(** C7 (amended).  Two or more consecutive list lines of one kind, with
    item texts that hold no line end and no [<], go through the four
    list rules into one list element around all the items, in order: the
    item rule writes one element a line and the merge rule of the kind
    removes every closing tag, line end and opening tag between them.
    With item texts free of the markup characters as well, that element
    is the output of the converter. *)
Theorem C7_list_lines_one_container (k : list_kind) (items : list list_line)
    (Hn : (2 <= length items)%nat)
    (Hok : forallb (line_ok k) items = true) :
  list_rules (lines (map (line_text k) items)) = list_html k items /\
  (forallb (fun it => plain (text it)) items = true ->
   markdownToHTML (lines (map (line_text k) items)) = list_html k items).
Proof.
  assert (Hne : items <> []) by (destruct items; [simpl in Hn; lia|discriminate]).
  apply forallb_Forall in Hok. split.
  - now apply list_rules_lines.
  - intros Hpl. apply forallb_Forall in Hpl. now apply convert_list_lines.
Qed.

Lemma C7_list_lines_one_container_witness :
  list_rules (lines [str "- a"; str "  * b c"]) = str "<ul><li>a</li><li>b c</li></ul>" /\
  markdownToHTML (lines [str "- a"; str "  * b c"]) = str "<ul><li>a</li><li>b c</li></ul>".
Proof.
  destruct (C7_list_lines_one_container Unordered
              [mkLine [] (str "-") (str "a"); mkLine (str "  ") (str "*") (str "b c")])
    as [H1 H2].
  - simpl. lia.
  - reflexivity.
  - split; [exact H1|]. apply H2. reflexivity.
Defined.

(** C7 as stated fails.  The merge is one pass over the text: a closing
    tag and an opening tag that only meet when the pass removes a pair
    between them stay in the output, so two list lines whose text brings
    such halves end in two adjacent containers.  And two list lines inside
    a fenced block are not both made items. *)
Lemma C7_counterexample :
  markdownToHTML (lines [str "- a</ul</ul><ul>><ul>b"; str "- c"])
  = str "<ul><li>a</ul><ul>b</li><li>c</li></ul>" /\
  includes (str "</ul><ul>")
    (markdownToHTML (lines [str "- a</ul</ul><ul>><ul>b"; str "- c"])) = true /\
  markdownToHTML (lines [str "```"; str "- a"; str "- b"; str "```"])
  = str "<pre><code class=" ++ dq ++ str "language-" ++ dq ++ str ">- a" ++ cNL ::
    str "<ul><li>b</code></pre></li></ul>".
Proof. repeat split; vm_compute; reflexivity. Qed.

(** C8 (the code departs from it).  The restoration hands the span to
    [replace] as a replacement string, in which [$$] stands for one [$]:
    a display-math span comes back with single delimiters, not verbatim.
    On the text of the specification's own example the second span is
    restored as inline math. *)
Theorem C8_display_math_not_restored_verbatim :
  restore (token 0) [str "$$y$$"] = str "$y$" /\
  renderContent (str "Inline $x^2$ and block $$y=mx+b$$ end")
  = Some (str "<p>Inline $x^2$ and block $y=mx+b$ end</p>").
Proof. split; vm_compute; reflexivity. Qed.

(** C9.  The single-delimiter pattern crosses line ends: in the text of
    the claim the two [$] of different lines bound one span, which holds
    the line feed. *)
Theorem C9_inline_math_spans_lines :
  extract (lines [str "cost $5"; str "and $6 more"])
  = (str "cost " ++ token 0 ++ str "6 more", [lines [str "$5"; str "and $"]]).
Proof. vm_compute. reflexivity. Qed.

(** C10 (amended).  A line of seven or more [#] followed by a blank is
    not made a heading: each heading literal is anchored at the start of
    the line and asks for a blank right after its own run of [#], so the
    six rules leave the line as it is.  With a plain text behind the
    blank the converter passes the whole line on, trimmed, as the text of
    a paragraph. *)
Theorem C10_long_hash_run_is_no_heading (n : nat) (t : jsstring)
    (Hn : (7 <= n)%nat) (Ht : no_line_end t = true) :
  headings (repeat 35 n ++ 32 :: t) = repeat 35 n ++ 32 :: t /\
  (plain t = true ->
   markdownToHTML (repeat 35 n ++ 32 :: t)
   = str "<p>" ++ trim (repeat 35 n ++ 32 :: t) ++ str "</p>").
Proof.
  replace n with (7 + (n - 7))%nat by lia. split.
  - unfold headings.
    repeat (rewrite heading_rule_long_run; [|simpl; tauto|assumption]).
    reflexivity.
  - apply convert_long_hash_run.
Qed.

Lemma C10_long_hash_run_is_no_heading_witness :
  headings (str "####### x") = str "####### x" /\
  markdownToHTML (str "####### x") = str "<p>####### x</p>".
Proof.
  destruct (C10_long_hash_run_is_no_heading 7 (str "x")) as [H1 H2].
  - lia.
  - reflexivity.
  - split; [exact H1|]. apply H2. reflexivity.
Defined.

(** C10 as stated fails: the line of the claim yields no level-6
    heading. *)
Lemma C10_counterexample :
  markdownToHTML (str "####### x") <> str "<h6># x</h6>" /\
  includes (str "<h6>") (markdownToHTML (str "####### x")) = false.
Proof. split; [vm_compute; discriminate|vm_compute; reflexivity]. Qed.

(** ** Reading aloud: what the literal of the math marks takes out *)

Lemma ne_cons {A} (a : A) (l : list A) : a :: l <> [].
Proof. discriminate. Qed.

Lemma match_marks bef aft :
  match_at math_marks bef aft =
  match aft with
  | [] => None
  | a :: r =>
      if a =? 36 then Some (mkState (a :: bef) r [])
      else if a =? 92 then
        match r with
        | b :: r' =>
            if existsb (N.eqb b) (str "()[]") then Some (mkState (b :: a :: bef) r' [])
            else None
        | [] => None
        end
      else None
  end.
Proof.
  unfold match_at, math_marks. cbn [source multiline].
  destruct aft as [|a r]; [reflexivity|].
  unfold Ch. rewrite !m_alt, !m_seq, !m_char.
  change (N_of_ascii "$") with 36.
  destruct (a =? 36); [reflexivity|]. cbn [or_else].
  destruct (a =? 92); [|reflexivity].
  destruct r as [|b r']; [reflexivity|].
  rewrite !m_char. cbn [existsb str list_ascii_of_string map].
  change (N_of_ascii "(") with 40. change (N_of_ascii ")") with 41.
  change (N_of_ascii "[") with 91. change (N_of_ascii "]") with 93.
  destruct (b =? 40); [reflexivity|]. cbn [or_else orb].
  destruct (b =? 41); [reflexivity|]. cbn [or_else orb].
  destruct (b =? 91); [reflexivity|]. cbn [or_else orb].
  destruct (b =? 93); reflexivity.
Qed.

Lemma scan_marks n : forall aft bef,
  (length aft <= n)%nat ->
  snd (replace_scan math_marks (template_replacer []) tt bef aft 0) = strip_marks aft.
Proof.
  induction n as [|n IH]; intros aft bef Hn.
  - destruct aft; [|simpl in Hn; lia]. reflexivity.
  - destruct aft as [|a r]; [reflexivity|]. simpl in Hn. cbn [strip_marks].
    destruct (a =? 36) eqn:E36.
    + assert (M : match_at math_marks bef ([a] ++ r) = Some (mkState (a :: bef) r []))
        by (rewrite match_marks; cbn [app]; now rewrite E36).
      change (a :: r) with ([a] ++ r).
      rewrite (line_hit _ _ _ _ _ _ (ne_cons a []) M eq_refl).
      cbn [template_replacer snd get_substitution app]. apply IH. lia.
    + destruct (a =? 92) eqn:E92.
      * destruct r as [|b r'].
        { rewrite scan_cons_none by (rewrite match_marks; now rewrite E36, E92).
          reflexivity. }
        destruct (existsb (N.eqb b) (str "()[]")) eqn:Eb.
        { assert (M : match_at math_marks bef ([a; b] ++ r')
                      = Some (mkState (b :: a :: bef) r' []))
            by (rewrite match_marks; cbn [app]; now rewrite E36, E92, Eb).
          change (a :: b :: r') with ([a; b] ++ r').
          rewrite (line_hit _ _ _ _ _ _ (ne_cons a [b]) M eq_refl).
          cbn [template_replacer snd get_substitution app]. apply IH.
          simpl in Hn. lia. }
        { rewrite scan_cons_none by (rewrite match_marks; now rewrite E36, E92, Eb).
          cbn [snd]. f_equal. apply IH. lia. }
      * rewrite scan_cons_none by (rewrite match_marks; now rewrite E36, E92).
        cbn [snd]. f_equal. apply IH. lia.
Qed.

Lemma textToSpeak_strip text : textToSpeak text = strip_marks text.
Proof. unfold textToSpeak, replace_tmpl, replace_with. now apply (scan_marks (length text)). Qed.

Lemma strip_marks_no_dollar n : forall s,
  (length s <= n)%nat -> absent cDollar (strip_marks s) = true.
Proof.
  induction n as [|n IH]; intros s Hn.
  - destruct s; [reflexivity|simpl in Hn; lia].
  - destruct s as [|a r]; [reflexivity|]. simpl in Hn. cbn [strip_marks].
    assert (C : forall t, (a =? 36) = false -> absent cDollar t = true ->
                          absent cDollar (a :: t) = true).
    { intros t Ha Ht. unfold absent, cDollar in *. cbn [existsb].
      now rewrite N.eqb_sym, Ha. }
    destruct (a =? 36) eqn:E36; [apply IH; lia|].
    destruct (a =? 92) eqn:E92; [|apply C; [reflexivity|apply IH; lia]].
    destruct r as [|b r']; [apply C; reflexivity|].
    destruct (existsb _ _); [apply IH; simpl in Hn; lia|].
    apply C; [reflexivity|apply IH; lia].
Qed.

Lemma strip_marks_plain s :
  absent cDollar s = true -> absent 92 s = true -> strip_marks s = s.
Proof.
  induction s as [|a r IH]; intros H1 H2; [reflexivity|].
  unfold absent, cDollar in *. cbn [existsb] in *. rewrite negb_orb in *.
  apply andb_prop in H1 as [A1 B1]. apply andb_prop in H2 as [A2 B2].
  apply negb_true_iff in A1, A2. rewrite N.eqb_sym in A1, A2.
  cbn [strip_marks]. rewrite A1, A2. f_equal. now apply IH.
Qed.

(** ** A text of white space only *)

Lemma space_not_char c ch :
  is_space c = true -> In ch (str "#`|<>*~[-.0123456789") -> (c =? ch) = false.
Proof.
  intros H Hin. simpl in Hin.
  decompose [or] Hin; try contradiction; subst ch; char_facts.
Qed.

Lemma absent_all_space ch s :
  all_space s = true -> In ch (str "#`|<>*~[-.0123456789") -> absent ch s = true.
Proof.
  intros Hs Hch. apply absent_forall. intros a Ha.
  apply space_not_char; [|assumption]. now apply (proj1 (forallb_forall _ _) Hs).
Qed.

Lemma forallb_space_class s :
  all_space s = true -> forallb (class_matches false [CSpace]) s = true.
Proof.
  intros H. apply forallb_forall. intros c Hc.
  unfold class_matches. simpl. rewrite (proj1 (forallb_forall _ _) H c Hc). reflexivity.
Qed.

Lemma all_space_app s t : all_space (s ++ t) = all_space s && all_space t.
Proof. apply forallb_app. Qed.

(** Neither item rule finds a marker in white space. *)
Lemma unordered_not_in_space bef aft :
  all_space aft = true -> match_at Re.unordered bef aft = None.
Proof.
  intros Hs. unfold match_at, Re.unordered. cbn [source multiline].
  rewrite m_seq, m_bol. destruct (at_bol _ _); [|reflexivity].
  rewrite m_seq. unfold star, white.
  rewrite <- (app_nil_r aft).
  rewrite (m_star true (Class false [CSpace]) _ eq_refl);
    [|now apply forallb_space_class|exact I].
  apply greedy_try_none. intros l1 l2 E.
  rewrite m_seq, m_group, (m_atom true (Class false [cc "*"; cc "-"]) _ eq_refl).
  rewrite app_nil_r. destruct l2 as [|c l2]; [reflexivity|].
  replace (class_matches false [cc "*"; cc "-"] c) with false; [reflexivity|].
  symmetry. unfold class_matches, cc. simpl.
  assert (Hc : is_space c = true).
  { apply (proj1 (forallb_forall _ _) Hs). subst aft. apply in_or_app. right. now left. }
  now rewrite !(space_not_char c) by (try assumption; simpl; tauto).
Qed.

Lemma ordered_not_in_space bef aft :
  all_space aft = true -> match_at Re.ordered bef aft = None.
Proof.
  intros Hs. unfold match_at, Re.ordered. cbn [source multiline].
  rewrite m_seq, m_bol. destruct (at_bol _ _); [|reflexivity].
  rewrite m_seq. unfold star, white.
  rewrite <- (app_nil_r aft).
  rewrite (m_star true (Class false [CSpace]) _ eq_refl);
    [|now apply forallb_space_class|exact I].
  apply greedy_try_none. intros l1 l2 E.
  rewrite m_seq, m_group. unfold plus, digit.
  rewrite (m_plus_none true (Class false [CDigit]) _ eq_refl); [reflexivity|].
  rewrite app_nil_r. destruct l2 as [|c l2]; [exact I|].
  unfold stops, class_matches. simpl.
  assert (Hc : is_space c = true).
  { apply (proj1 (forallb_forall _ _) Hs). subst aft. apply in_or_app. right. now left. }
  destruct (is_digit c) eqn:Ed; [|reflexivity].
  now rewrite (digit_not_space c Ed) in Hc.
Qed.

Lemma quiet_all_space re s :
  (forall bef aft, all_space aft = true -> match_at re bef aft = None) ->
  all_space s = true -> quiet re [] s [].
Proof.
  intros H Hs p1 a p2 E. apply H. rewrite app_nil_r.
  subst s. rewrite all_space_app in Hs. now apply andb_prop in Hs as [_ Hs].
Qed.

(** Every piece of a split is made of code units of the subject. *)
Lemma split_scan_pieces (P : N -> bool) re aft : forall bef piece skip,
  forallb P aft = true -> forallb P piece = true ->
  Forall (fun x => forallb P x = true) (split_scan re bef aft piece skip).
Proof.
  assert (R : forall l, forallb P l = true -> forallb P (rev l) = true).
  { intros l Hl. apply forallb_forall. intros x Hx. apply in_rev in Hx.
    now apply (proj1 (forallb_forall _ _) Hl). }
  induction aft as [|ch aft IH]; intros bef piece skip Ha Hp.
  - simpl. constructor; [now apply R|constructor].
  - simpl in Ha. apply andb_prop in Ha as [Hc Ha]. cbn [split_scan].
    assert (Hcp : forallb P (ch :: piece) = true) by (simpl; now rewrite Hc).
    assert (Hc1 : forallb P [ch] = true) by (simpl; now rewrite Hc).
    destruct skip as [|k]; [|now apply IH].
    destruct (match_at re bef (ch :: aft)) as [y|]; [|now apply IH].
    destruct (_ - _)%nat.
    + destruct piece as [|c0 piece0]; [now apply IH|].
      constructor; [now apply R|now apply IH].
    + constructor; [now apply R|now apply IH].
Qed.

Lemma trim_all_space s : all_space s = true -> trim s = [].
Proof.
  intros H. unfold trim.
  assert (T : trim_start s = []).
  { induction s as [|a s IH]; [reflexivity|]. simpl in *.
    apply andb_prop in H as [Ha Hs]. rewrite Ha. now apply IH. }
  now rewrite T.
Qed.

Lemma wrap_all_space s : all_space s = true -> wrap_paragraph s = [].
Proof. intros H. unfold wrap_paragraph. now rewrite trim_all_space. Qed.

Lemma paragraphs_all_space s : all_space s = true -> paragraphs s = [].
Proof.
  intros H. unfold paragraphs, join_empty.
  assert (F : Forall (fun x => all_space x = true) (regex_split Re.blank_lines s)).
  { unfold regex_split. destruct s as [|a s'].
    - destruct (match_at _ _ _); repeat constructor.
    - now apply split_scan_pieces. }
  induction F as [|x l Hx _ IH]; [reflexivity|].
  cbn [map concat]. now rewrite wrap_all_space, IH.
Qed.

Lemma convert_all_space s : all_space s = true -> markdownToHTML s = [].
Proof.
  intros H.
  assert (A : forall ch, In ch (str "#`|<>*~[-.0123456789") -> absent ch s = true)
    by (intros; now apply absent_all_space).
  unfold markdownToHTML, block_rules, inline_rules, list_rules.
  rewrite (headings_absent _ (A 35 ltac:(simpl; tauto))).
  rewrite (fences_absent _ (A 96 ltac:(simpl; tauto))).
  rewrite (tables_absent _ (A 124 ltac:(simpl; tauto))).
  rewrite (blockquotes_absent _ (A 62 ltac:(simpl; tauto))).
  assert (U : unordered_items s = s).
  { apply replace_tmpl_quiet.
    - apply quiet_all_space; [apply unordered_not_in_space|assumption].
    - now apply unordered_not_in_space. }
  assert (O : ordered_items s = s).
  { apply replace_tmpl_quiet.
    - apply quiet_all_space; [apply ordered_not_in_space|assumption].
    - now apply ordered_not_in_space. }
  rewrite U, O.
  assert (M1 : merge_ul_rule s = s).
  { apply (replace_tmpl_absent _ _ 60);
      [first_never|first_never|exact (A 60 ltac:(simpl; tauto))]. }
  assert (M2 : merge_ol_rule s = s).
  { apply (replace_tmpl_absent _ _ 60);
      [first_never|first_never|exact (A 60 ltac:(simpl; tauto))]. }
  rewrite M1, M2.
  rewrite (bold_absent _ (A 42 ltac:(simpl; tauto))).
  rewrite (italic_absent _ (A 42 ltac:(simpl; tauto))).
  rewrite (strike_absent _ (A 126 ltac:(simpl; tauto))).
  rewrite (inline_code_absent _ (A 96 ltac:(simpl; tauto))).
  rewrite (links_absent _ (A 91 ltac:(simpl; tauto))).
  now apply paragraphs_all_space.
Qed.

(** ** Lines of text, headings and quotations *)

Lemma ordinary_parts l :
  ordinary_line l = true ->
  exists c r, l = c :: r /\ plain l = true /\ is_space c = false /\
    (c =? 45) = false /\ is_digit c = false.
Proof.
  unfold ordinary_line. intros H. apply andb_prop in H as [Hp H].
  destruct l as [|c r]; [discriminate|].
  apply andb_prop in H as [H H3]. apply andb_prop in H as [H1 H2].
  apply negb_true_iff in H1, H2, H3. now exists c, r.
Qed.

Lemma plain_not_char l c r ch :
  plain l = true -> l = c :: r -> In ch markup_chars -> (c =? ch) = false.
Proof.
  intros Hp -> Hch. destruct (plain_parts _ Hp) as [_ Ha].
  apply (absent_in ch (c :: r)); [now apply Ha|now left].
Qed.

Lemma space_not_nl c : is_space c = false -> (c =? cNL) = false.
Proof. intros H. char_facts. Qed.

(** The paragraph pass on a block that opens with text. *)
Lemma wrap_text_br a s :
  is_space a = false -> (a =? 60) = false ->
  wrap_paragraph (a :: s) = str "<p>" ++ flat_map line_break (trim (a :: s)) ++ str "</p>".
Proof.
  intros Ha Hlt. unfold wrap_paragraph.
  destruct (trim_cons a s Ha) as (s1 & s2 & E & T). rewrite T.
  rewrite regex_test_quiet.
  - unfold Re.newline. now rewrite replace_one_char.
  - apply quiet_cons.
    + apply match_at_first. cbn. now rewrite Hlt.
    + now apply (quiet_behind_start Re.block_tag _ _ _ _ _ eq_refl).
  - apply match_at_first. simpl rev. cbn [Re.block_tag source multiline].
    apply first_ok_bol. unfold at_bol. cbn [before].
    destruct (rev s1 ++ [a]) eqn:E'; [|reflexivity].
    apply app_eq_nil in E' as [_ E']. discriminate E'.
Qed.

Lemma m_eol_end ml bef q cs c :
  line_end q -> m ml Eol (mkState bef q cs) c = if ml then c (mkState bef q cs) else
    match q with [] => c (mkState bef q cs) | _ => None end.
Proof.
  intros Hq. cbn [m]. unfold at_eol. cbn [after]. destruct q as [|a q]; [now destruct ml|].
  unfold line_end, stops in Hq. apply negb_false_iff in Hq. rewrite Hq.
  destruct ml; reflexivity.
Qed.

Lemma match_heading_line level hashes bef t q :
  In (level, hashes) heading_levels -> line_start bef -> no_line_end t = true -> line_end q ->
  match_at (Re.heading hashes) bef (heading_line hashes t ++ q)
  = Some (mkState (rev (heading_line hashes t) ++ bef) q [(1%nat, t)]).
Proof.
  intros Hin Hbef Ht Hq. unfold match_at, Re.heading, heading_line. cbn [source multiline].
  rewrite m_seq, m_bol, at_bol_line_start by assumption.
  unfold lit. rewrite m_seq, <- app_assoc, m_lit.
  rewrite m_seq. unfold Ch. change (N_of_ascii " ") with 32.
  cbn [app]. rewrite m_char, N.eqb_refl, m_group, m_seq.
  unfold star.
  rewrite (m_star true Dot _ eq_refl); [|exact Ht|].
  - apply greedy_try_all. rewrite m_eol_end by assumption.
    cbn [before after caps]. rewrite consumed_app.
    f_equal. f_equal.
    rewrite !rev_app_distr. simpl rev. rewrite <- !app_assoc. reflexivity.
  - exact Hq.
Qed.

Lemma heading_not_at level hashes bef c aft :
  In (level, hashes) heading_levels -> (c =? 35) = false ->
  match_at (Re.heading hashes) bef (c :: aft) = None.
Proof.
  intros Hin Hc. apply match_at_first.
  simpl in Hin. decompose [or] Hin; try contradiction;
    match goal with H : (_, _) = (_, _) |- _ => inversion H; subst end;
    cbn; rewrite Hc; cbn; now rewrite ?andb_false_r.
Qed.

Lemma heading_other_level level hashes level' hashes' bef t q :
  In (level, hashes) heading_levels -> In (level', hashes') heading_levels ->
  hashes <> hashes' ->
  match_at (Re.heading hashes) bef (heading_line hashes' t ++ q) = None.
Proof.
  intros Hin Hin' Hne. unfold match_at, Re.heading. cbn [source multiline].
  rewrite m_seq, m_bol. destruct (at_bol _ _); [|reflexivity].
  simpl in Hin, Hin'.
  decompose [or] Hin; try contradiction;
    match goal with H : (_, _) = (level, hashes) |- _ => inversion H; subst; clear H end;
    decompose [or] Hin'; try contradiction;
    match goal with H : (_, _) = (level', hashes') |- _ => inversion H; subst; clear H end;
    try (exfalso; apply Hne; reflexivity); reflexivity.
Qed.

Lemma plain_no_line_end t : plain t = true -> no_line_end t = true.
Proof. intros H. now apply plain_parts. Qed.

Lemma heading_line_shape level hashes t :
  In (level, hashes) heading_levels -> no_line_end t = true ->
  heading_line hashes t <> [] /\ no_line_end (heading_line hashes t) = true.
Proof.
  intros Hin Ht. unfold heading_line. split.
  - destruct (str hashes); discriminate.
  - rewrite no_line_end_app. change (no_line_end (32 :: t)) with (no_line_end t).
    rewrite Ht, andb_true_r.
    simpl in Hin. decompose [or] Hin; try contradiction;
      match goal with H : (_, _) = (_, _) |- _ => inversion H; subst end; reflexivity.
Qed.

Lemma heading_html_shape level hashes t :
  In (level, hashes) heading_levels -> no_line_end t = true ->
  heading_html level t <> [] /\ no_line_end (heading_html level t) = true.
Proof.
  intros Hin Ht. unfold heading_html. split; [discriminate|].
  simpl in Hin. decompose [or] Hin; try contradiction;
    match goal with H : (_, _) = (_, _) |- _ => inversion H; subst end;
    match goal with
    | |- no_line_end (str ?a ++ str ?b ++ 62 :: t ++ ?r) = true =>
        change (no_line_end ((str a ++ str b ++ [62]) ++ t ++ r) = true)
    end;
    rewrite !no_line_end_app, Ht; reflexivity.
Qed.

Lemma quote_line_shape t :
  no_line_end t = true -> quote_line t <> [] /\ no_line_end (quote_line t) = true.
Proof. intros Ht. split; [discriminate|exact Ht]. Qed.

Lemma quote_html_shape t :
  no_line_end t = true -> quote_html t <> [] /\ no_line_end (quote_html t) = true.
Proof.
  intros Ht. split; [discriminate|]. unfold quote_html.
  now rewrite !no_line_end_app, Ht.
Qed.

Lemma match_quote_line bef t q :
  line_start bef -> no_line_end t = true -> line_end q ->
  match_at Re.blockquote bef (quote_line t ++ q)
  = Some (mkState (rev (quote_line t) ++ bef) q [(1%nat, t)]).
Proof.
  intros Hbef Ht Hq. unfold match_at, Re.blockquote, quote_line. cbn [source multiline].
  rewrite m_seq, m_bol, at_bol_line_start by assumption.
  unfold Ch. change (N_of_ascii ">") with 62. change (N_of_ascii " ") with 32.
  change (str "> " ++ t) with (62 :: 32 :: t). cbn [app].
  rewrite m_seq, m_char, N.eqb_refl, m_seq, m_char, N.eqb_refl, m_group, m_seq.
  unfold star.
  rewrite (m_star true Dot _ eq_refl); [|exact Ht|exact Hq].
  apply greedy_try_all. rewrite m_eol_end by assumption.
  cbn [before after caps]. rewrite consumed_app.
  f_equal. f_equal. unfold quote_line.
  simpl rev. rewrite <- !app_assoc. reflexivity.
Qed.

Lemma blockquote_not_at bef c aft :
  (c =? 62) = false -> match_at Re.blockquote bef (c :: aft) = None.
Proof.
  intros Hc. apply match_at_first. cbn. rewrite Hc. cbn. now rewrite ?andb_false_r.
Qed.

Lemma block_shown b : block_line_ok b -> shown_ok b.
Proof.
  destruct b as [l|lv h t|t]; cbn [block_line_ok shown_ok].
  - now intros (Ho & Hnl & _).
  - now intros (Hin & Hnl & _).
  - now intros (Hnl & _).
Qed.

Lemma text_parts l :
  opens_text l ->
  exists c r, l = c :: r /\ is_space c = false /\ is_digit c = false /\
    (c =? 35) = false /\ (c =? 62) = false /\ (c =? 60) = false /\
    (c =? 42) = false /\ (c =? 45) = false.
Proof. destruct l as [|c r]; [contradiction|]. intros H. now exists c, r. Qed.

(** ** A rule anchored at line starts, on lines and empty lines *)

Section Rows.

Variable re : RegExp.
Variable r : regex.
Hypothesis Hre : source re = Seq Bol r.
Variable f : replacer unit.

Variable T : Type.
Variable src out : T -> jsstring.
Variable ok : T -> Prop.

Hypothesis Hok : forall t, ok t -> src t <> [] /\ no_line_end (src t) = true.
Hypothesis Hline : forall t bef q, ok t -> line_start bef -> line_end q ->
  snd (replace_scan re f tt bef (src t ++ q) 0)
  = out t ++ snd (replace_scan re f tt (rev (src t) ++ bef) q 0).
(** The rule finds nothing where an empty line starts. *)
Hypothesis Hgap : forall ts bef, Forall (row_ok ok) ts -> line_start bef ->
  match_at re bef (tail_lines (map (row_text src) ts)) = None.

Lemma match_at_row_end o ts bef :
  row_ok ok o -> Forall (row_ok ok) ts -> line_start bef ->
  match_at re (rev (row_text src o) ++ bef) (tail_lines (map (row_text src) ts)) = None.
Proof.
  intros Ho Hts Hbef. destruct o as [t|]; cbn [row_text row_ok] in *.
  - now apply (match_at_line_end re r Hre T src ok Hok).
  - now apply Hgap.
Qed.

Lemma scan_row o bef q :
  row_ok ok o -> line_start bef -> line_end q ->
  snd (replace_scan re f tt bef (row_text src o ++ q) 0)
  = row_text out o ++ snd (replace_scan re f tt (rev (row_text src o) ++ bef) q 0).
Proof.
  intros Ho Hbef Hq. destruct o as [t|]; cbn [row_text row_ok] in *.
  - now apply Hline.
  - reflexivity.
Qed.

Lemma scan_rows ts : forall bef,
  Forall (row_ok ok) ts -> ts <> [] -> line_start bef ->
  snd (replace_scan re f tt bef (lines (map (row_text src) ts)) 0)
  = lines (map (row_text out) ts).
Proof.
  induction ts as [|t ts IH]; intros bef Hall Hne Hbef; [contradiction|].
  inversion Hall as [|? ? Hl Hls]; subst.
  cbn [map]. rewrite !lines_cons.
  rewrite scan_row; [|assumption|assumption|apply line_end_tail].
  f_equal.
  pose proof (match_at_row_end t ts bef Hl Hls Hbef) as M.
  destruct ts as [|t' ts].
  - cbn [tail_lines map] in *. now rewrite scan_nil_none.
  - cbn [tail_lines map] in *.
    rewrite scan_cons_none by exact M.
    cbn [snd]. f_equal.
    apply IH; [assumption|discriminate|reflexivity].
Qed.

End Rows.

(** A rule whose matches open with one given code unit finds nothing
    where an empty line starts. *)
Lemma gap_first re ch (ls : list jsstring) bef :
  (forall bef a aft, (a =? ch) = false ->
     first_ok (multiline re) (source re) (mkState bef (a :: aft) []) = false) ->
  (forall bef, first_ok (multiline re) (source re) (mkState bef [] []) = false) ->
  (cNL =? ch) = false ->
  match_at re bef (tail_lines ls) = None.
Proof.
  intros H1 H2 Hch. apply match_at_first.
  destruct ls as [|l ls]; cbn [tail_lines]; [apply H2|now apply H1].
Qed.

Lemma block_line_shape n b :
  block_line_ok b -> line_after n b <> [] /\ no_line_end (line_after n b) = true.
Proof.
  destruct b as [l|lv h t|t]; cbn [block_line_ok line_after].
  - intros (Ho & Hnl & _). destruct (text_parts l Ho) as (c & r & -> & _).
    split; [discriminate|assumption].
  - intros (Hin & Ht & _).
    destruct (6 <? String.length h + n)%nat.
    + now apply (heading_html_shape lv h).
    + now apply (heading_line_shape lv h).
  - intros (Ht & _). now apply quote_line_shape.
Qed.

Ltac heading_cases H :=
  simpl in H; decompose [or] H; clear H; try contradiction;
  match goal with E : (_, _) = (_, _) |- _ => inversion E; subst; clear E end.

(** One heading rule on one line: the line of its level is converted,
    every other line is kept. *)
Lemma heading_rule_line level hashes b bef q :
  In (level, hashes) heading_levels ->
  block_line_ok b -> line_start bef -> line_end q ->
  snd (replace_scan (Re.heading hashes)
         (template_replacer (str ("<h" ++ level ++ ">$1</h" ++ level ++ ">"))) tt bef
         (line_after (6 - String.length hashes) b ++ q) 0)
  = line_after (7 - String.length hashes) b
      ++ snd (replace_scan (Re.heading hashes)
                (template_replacer (str ("<h" ++ level ++ ">$1</h" ++ level ++ ">"))) tt
                (rev (line_after (6 - String.length hashes) b) ++ bef) q 0).
Proof.
  intros Hin Hb Hbef Hq. destruct b as [l|lv' h' t|t]; cbn [block_line_ok] in Hb.
  - cbn [line_after]. destruct Hb as (Ho & Hnl & _).
    destruct (text_parts l Ho) as (c & r & -> & _ & _ & H35 & _).
    apply (line_quiet (Re.heading hashes) _ _ _ _ _ eq_refl); [assumption|].
    cbn [app]. now apply (heading_not_at level).
  - destruct Hb as (Hin' & Ht & _).
    pose proof Hin as Hin0. pose proof Hin' as Hin0'.
    heading_cases Hin; heading_cases Hin'; unfold line_after;
      cbn [Nat.ltb Nat.leb String.length Nat.add Nat.sub];
      first
        [ pose proof (match_heading_line _ _ bef t q Hin0 Hbef Ht Hq) as M;
          rewrite (line_hit _ _ _ _ _ _ (proj1 (heading_line_shape _ _ t Hin0 Ht)) M eq_refl);
          f_equal
        | match goal with
          | |- snd (replace_scan ?re _ _ _ _ _) = _ => apply (line_quiet re _ _ _ _ _ eq_refl)
          end;
          [ exact (proj2 (heading_line_shape _ _ t Hin0' Ht))
          | apply (heading_other_level _ _ _ _ bef t q Hin0 Hin0'); discriminate ]
        | match goal with
          | |- snd (replace_scan ?re _ _ _ _ _) = _ => apply (line_quiet re _ _ _ _ _ eq_refl)
          end;
          [ exact (proj2 (heading_html_shape _ _ t Hin0' Ht))
          | apply (heading_not_at _ _ bef 60 _ Hin0); reflexivity ] ].
  - cbn [line_after]. destruct Hb as (Hnl & _).
    apply (line_quiet (Re.heading hashes) _ _ _ _ _ eq_refl); [exact Hnl|].
    now apply (heading_not_at level hashes bef 62).
Qed.

Lemma heading_first level hashes :
  In (level, hashes) heading_levels ->
  (forall bef a aft, (a =? 35) = false ->
     first_ok (multiline (Re.heading hashes)) (source (Re.heading hashes))
       (mkState bef (a :: aft) []) = false) /\
  (forall bef, first_ok (multiline (Re.heading hashes)) (source (Re.heading hashes))
       (mkState bef [] []) = false).
Proof. intros Hin. heading_cases Hin; split; first_never. Qed.

Lemma heading_rule_stage level hashes rows :
  In (level, hashes) heading_levels -> Forall (row_ok block_line_ok) rows -> rows <> [] ->
  heading_rule level hashes
    (lines (map (row_text (line_after (6 - String.length hashes))) rows))
  = lines (map (row_text (line_after (7 - String.length hashes))) rows).
Proof.
  intros Hin Hall Hne. unfold heading_rule, replace_tmpl, replace_with.
  apply (scan_rows (Re.heading hashes) _ eq_refl _ block_line
           (line_after (6 - String.length hashes)) (line_after (7 - String.length hashes))
           block_line_ok); try assumption; try exact I.
  - intros b. apply block_line_shape.
  - intros b bef q. now apply heading_rule_line.
  - intros ts bef _ _. destruct (heading_first level hashes Hin) as [H1 H2].
    now apply (gap_first _ 35).
Qed.

Lemma line_after_none b : block_line_ok b -> line_after 0 b = line_source b.
Proof.
  destruct b as [l|lv h t|t]; [reflexivity| |reflexivity].
  intros [Hin _]. heading_cases Hin; reflexivity.
Qed.

Lemma line_after_all level hashes t :
  In (level, hashes) heading_levels ->
  line_after 6 (Heading level hashes t) = heading_html level t.
Proof. intros Hin. heading_cases Hin; reflexivity. Qed.

Lemma map_rows_ext (f g : block_line -> jsstring) rows :
  (forall b, block_line_ok b -> f b = g b) -> Forall (row_ok block_line_ok) rows ->
  map (row_text f) rows = map (row_text g) rows.
Proof.
  intros H Hall. induction Hall as [|o rows Ho _ IH]; [reflexivity|].
  simpl. rewrite IH. f_equal. destruct o; [now apply H|reflexivity].
Qed.

(** The six heading rules on the rows of a document. *)
Lemma headings_rows rows :
  Forall (row_ok block_line_ok) rows -> rows <> [] ->
  headings (lines (map (row_text line_source) rows))
  = lines (map (row_text (line_after 6)) rows).
Proof.
  intros Hall Hne.
  rewrite <- (map_rows_ext _ _ rows line_after_none Hall).
  unfold headings.
  pose proof (heading_rule_stage "6" "######" rows ltac:(simpl; tauto) Hall Hne) as H6.
  pose proof (heading_rule_stage "5" "#####" rows ltac:(simpl; tauto) Hall Hne) as H5.
  pose proof (heading_rule_stage "4" "####" rows ltac:(simpl; tauto) Hall Hne) as H4.
  pose proof (heading_rule_stage "3" "###" rows ltac:(simpl; tauto) Hall Hne) as H3.
  pose proof (heading_rule_stage "2" "##" rows ltac:(simpl; tauto) Hall Hne) as H2.
  pose proof (heading_rule_stage "1" "#" rows ltac:(simpl; tauto) Hall Hne) as H1.
  cbn [String.length Nat.sub] in H1, H2, H3, H4, H5, H6.
  now rewrite H6, H5, H4, H3, H2, H1.
Qed.

Lemma unordered_not_behind_space bef sp rest :
  all_space sp = true -> opens_no_item rest ->
  match_at Re.unordered bef (sp ++ rest) = None.
Proof.
  intros Hs Hr. unfold match_at, Re.unordered. cbn [source multiline].
  rewrite m_seq, m_bol. destruct (at_bol _ _); [|reflexivity].
  rewrite m_seq. unfold star, white.
  rewrite (m_star true (Class false [CSpace]) _ eq_refl);
    [|now apply forallb_space_class|].
  - apply greedy_try_none. intros l1 l2 E.
    rewrite m_seq, m_group, (m_atom true (Class false [cc "*"; cc "-"]) _ eq_refl).
    destruct l2 as [|c l2]; cbn [app].
    + destruct rest as [|c rest]; [reflexivity|].
      destruct Hr as (_ & H42 & H45 & _).
      replace (class_matches false [cc "*"; cc "-"] c) with false; [reflexivity|].
      symmetry. unfold class_matches, cc. simpl. now rewrite H42, H45.
    + replace (class_matches false [cc "*"; cc "-"] c) with false; [reflexivity|].
      symmetry. unfold class_matches, cc. simpl.
      assert (Hc : is_space c = true).
      { apply (proj1 (forallb_forall _ _) Hs). subst sp. apply in_or_app. right. now left. }
      now rewrite !(space_not_char c) by (try assumption; simpl; tauto).
  - destruct rest as [|c rest]; [exact I|]. destruct Hr as (Hc & _).
    unfold stops, class_matches. simpl. now rewrite Hc.
Qed.

Lemma ordered_not_behind_space bef sp rest :
  all_space sp = true -> opens_no_item rest ->
  match_at Re.ordered bef (sp ++ rest) = None.
Proof.
  intros Hs Hr. unfold match_at, Re.ordered. cbn [source multiline].
  rewrite m_seq, m_bol. destruct (at_bol _ _); [|reflexivity].
  rewrite m_seq. unfold star, white.
  rewrite (m_star true (Class false [CSpace]) _ eq_refl);
    [|now apply forallb_space_class|].
  - apply greedy_try_none. intros l1 l2 E.
    rewrite m_seq, m_group. unfold plus, digit.
    rewrite (m_plus_none true (Class false [CDigit]) _ eq_refl); [reflexivity|].
    destruct l2 as [|c l2]; cbn [app].
    + destruct rest as [|c rest]; [exact I|]. destruct Hr as (_ & _ & _ & Hd).
      unfold stops, class_matches. simpl. now rewrite Hd.
    + unfold stops, class_matches. simpl.
      assert (Hc : is_space c = true).
      { apply (proj1 (forallb_forall _ _) Hs). subst sp. apply in_or_app. right. now left. }
      destruct (is_digit c) eqn:Ed; [|reflexivity].
      now rewrite (digit_not_space c Ed) in Hc.
  - destruct rest as [|c rest]; [exact I|]. destruct Hr as (Hc & _).
    unfold stops, class_matches. simpl. now rewrite Hc.
Qed.

Lemma absent_heading_html level hashes t ch :
  In (level, hashes) heading_levels -> In ch [cPipe] -> absent ch t = true ->
  absent ch (heading_html level t) = true.
Proof.
  intros Hin Hch Ht. unfold heading_html.
  heading_cases Hin;
    match goal with
    | |- absent ch (str ?a ++ str ?b ++ 62 :: t ++ ?r) = true =>
        change (absent ch ((str a ++ str b ++ [62]) ++ t ++ r) = true)
    end;
    rewrite !absent_app, Ht;
    simpl in Hch; decompose [or] Hch; try contradiction; subst ch; reflexivity.
Qed.

(** No line holds a bar once the heading rules have run. *)
Lemma absent_bar_line b : block_line_ok b -> absent cPipe (line_after 6 b) = true.
Proof.
  intros Hb. destruct b as [l|lv h t|t]; cbn [block_line_ok] in *.
  - cbn [line_after]. now destruct Hb as (_ & _ & H & _).
  - destruct Hb as (Hin & _ & H & _). rewrite (line_after_all lv h t Hin).
    apply (absent_heading_html lv h); [assumption|now left|assumption].
  - cbn [line_after]. destruct Hb as (_ & H & _). unfold quote_line.
    now rewrite absent_app, H.
Qed.

Lemma absent_rows (f : block_line -> jsstring) rows ch :
  (forall b, block_line_ok b -> absent ch (f b) = true) ->
  (ch =? cNL) = false -> Forall (row_ok block_line_ok) rows ->
  absent ch (lines (map (row_text f) rows)) = true.
Proof.
  intros Hf Hch Hall. apply absent_lines; [assumption|].
  apply Forall_map. eapply Forall_impl; [|exact Hall].
  intros [b|]; [apply Hf|reflexivity].
Qed.

Lemma line_html_shape b :
  shown_ok b -> line_html b <> [] /\ no_line_end (line_html b) = true.
Proof.
  destruct b as [l|lv h t|t]; cbn [shown_ok line_html].
  - intros (Ho & Hnl). destruct (text_parts l Ho) as (c & r & -> & _).
    split; [discriminate|assumption].
  - intros [Hin Ht]. now apply (heading_html_shape lv h).
  - intros Ht. now apply quote_html_shape.
Qed.

(** How a converted line opens. *)
Lemma line_html_first b :
  shown_ok b ->
  exists c r, line_html b = c :: r /\ is_space c = false /\ (c =? 62) = false /\
    (c =? 42) = false /\ (c =? 45) = false /\ is_digit c = false.
Proof.
  destruct b as [l|lv h t|t]; cbn [shown_ok line_html].
  - intros (Ho & _). destruct (text_parts l Ho) as (c & r & E & Hs & Hd & _ & H62 & _ & H42 & H45).
    exists c, r. repeat split; assumption.
  - intros _. eexists 60, _. repeat split.
  - intros _. eexists 60, _. repeat split.
Qed.

(** The blockquote rule on one line. *)
Lemma blockquote_line b bef q :
  block_line_ok b -> line_start bef -> line_end q ->
  snd (replace_scan Re.blockquote (template_replacer (str "<blockquote>$1</blockquote>")) tt
         bef (line_after 6 b ++ q) 0)
  = line_html b
      ++ snd (replace_scan Re.blockquote
                (template_replacer (str "<blockquote>$1</blockquote>")) tt
                (rev (line_after 6 b) ++ bef) q 0).
Proof.
  intros Hb Hbef Hq.
  destruct (block_line_shape 6 b Hb) as [Hne' Hnl].
  destruct b as [l|lv h t|t]; cbn [block_line_ok line_html] in *.
  - destruct Hb as (Ho & _).
    destruct (text_parts l Ho) as (c & r & E & _ & _ & _ & H62 & _).
    cbn [line_after] in *. subst l.
    apply (line_quiet Re.blockquote _ _ _ _ _ eq_refl); [assumption|].
    now apply blockquote_not_at.
  - destruct Hb as [Hin Hp]. rewrite (line_after_all lv h t Hin) in *.
    apply (line_quiet Re.blockquote _ _ _ _ _ eq_refl); [assumption|].
    now apply (blockquote_not_at bef 60).
  - cbn [line_after] in *. destruct Hb as (Ht & _).
    rewrite (line_hit _ _ _ _ _ _ Hne' (match_quote_line bef t q Hbef Ht Hq) eq_refl).
    f_equal.
Qed.

Lemma blockquotes_rows rows :
  Forall (row_ok block_line_ok) rows -> rows <> [] ->
  blockquotes (lines (map (row_text (line_after 6)) rows))
  = lines (map (row_text line_html) rows).
Proof.
  intros Hall Hne. unfold blockquotes, replace_tmpl, replace_with.
  apply (scan_rows Re.blockquote _ eq_refl _ block_line (line_after 6) line_html
           block_line_ok); try assumption; try exact I.
  - intros b. apply block_line_shape.
  - intros b bef q. now apply blockquote_line.
  - intros ts bef _ _. apply (gap_first _ 62); [first_never|first_never|reflexivity].
Qed.

(** Where the converted rows open, behind the empty ones. *)
Lemma rows_leading rows :
  Forall (row_ok block_line_ok) rows ->
  exists sp rest, lines (map (row_text line_html) rows) = sp ++ rest /\
    all_space sp = true /\ opens_no_item rest.
Proof.
  induction rows as [|o rows IH]; intros Hall.
  - exists [], []. repeat split.
  - inversion Hall as [|? ? Ho Hrows]; subst. cbn [map]. rewrite lines_cons.
    destruct o as [b|]; cbn [row_text row_ok] in *.
    + destruct (line_html_first b (block_shown b Ho)) as (c & r & E & Hs & _ & H42 & H45 & Hd).
      exists [], (line_html b ++ tail_lines (map (row_text line_html) rows)).
      rewrite E. repeat split; assumption.
    + destruct rows as [|o' rows']; [exists [], []; repeat split|].
      destruct (IH Hrows) as (sp & rest & E & Hsp & Hrest).
      exists (cNL :: sp), rest. cbn [tail_lines map app] in *. rewrite E.
      repeat split; assumption.
Qed.

Lemma tail_leading rows :
  Forall (row_ok block_line_ok) rows ->
  exists sp rest, tail_lines (map (row_text line_html) rows) = sp ++ rest /\
    all_space sp = true /\ opens_no_item rest.
Proof.
  intros Hall. destruct rows as [|o rows]; [exists [], []; repeat split|].
  destruct (rows_leading (o :: rows) Hall) as (sp & rest & E & Hsp & Hrest).
  exists (cNL :: sp), rest. cbn [tail_lines map] in *. rewrite E. repeat split; assumption.
Qed.

Lemma item_rules_rows rows :
  Forall (row_ok block_line_ok) rows -> rows <> [] ->
  unordered_items (lines (map (row_text line_html) rows))
  = lines (map (row_text line_html) rows) /\
  ordered_items (lines (map (row_text line_html) rows))
  = lines (map (row_text line_html) rows).
Proof.
  intros Hall Hne. split.
  - unfold unordered_items, replace_tmpl, replace_with.
    apply (scan_rows Re.unordered _ eq_refl _ block_line line_html line_html
             block_line_ok); try assumption; try exact I.
    + intros b Hb. now apply line_html_shape, block_shown.
    + intros b bef q Hb Hbef Hq.
      apply (line_quiet Re.unordered _ _ _ _ _ eq_refl);
        [now apply line_html_shape, block_shown|].
      destruct (line_html_first b (block_shown b Hb)) as (c & r & -> & Hs & _ & H42 & H45 & _).
      cbn [app]. now apply unordered_not_at.
    + intros ts bef Hts _. destruct (tail_leading ts Hts) as (sp & rest & -> & Hsp & Hrest).
      now apply unordered_not_behind_space.
  - unfold ordered_items, replace_tmpl, replace_with.
    apply (scan_rows Re.ordered _ eq_refl _ block_line line_html line_html
             block_line_ok); try assumption; try exact I.
    + intros b Hb. now apply line_html_shape, block_shown.
    + intros b bef q Hb Hbef Hq.
      apply (line_quiet Re.ordered _ _ _ _ _ eq_refl);
        [now apply line_html_shape, block_shown|].
      destruct (line_html_first b (block_shown b Hb)) as (c & r & -> & Hs & _ & _ & _ & Hd).
      cbn [app]. now apply ordered_not_at.
    + intros ts bef Hts _. destruct (tail_leading ts Hts) as (sp & rest & -> & Hsp & Hrest).
      now apply ordered_not_behind_space.
Qed.

Lemma quiet_line_html k b bef q :
  block_line_ok b -> quiet (merge_re k) bef (line_html b) q.
Proof.
  intros Hb. destruct b as [l|lv h t|t]; cbn [block_line_ok line_html] in *.
  - destruct Hb as (_ & _ & _ & H60).
    apply (quiet_absent _ 60); [intros; now apply merge_first|exact H60].
  - destruct Hb as (Hin & _ & _ & Ht). unfold heading_html.
    heading_cases Hin;
      match goal with
      | |- quiet _ _ (str ?a ++ str ?b ++ 62 :: t ++ ?r) _ =>
          change (str a ++ str b ++ 62 :: t ++ r) with ((str a ++ str b ++ [62]) ++ t ++ r)
      end;
      (apply quiet_app; [destruct k; quiet_literal|]);
      (apply quiet_app; [|destruct k; quiet_literal]);
      (apply (quiet_absent _ 60); [intros; now apply merge_first|exact Ht]).
  - destruct Hb as (_ & _ & Ht). unfold quote_html.
    apply quiet_app; [destruct k; quiet_literal|].
    apply quiet_app; [|destruct k; quiet_literal].
    apply (quiet_absent _ 60); [intros; now apply merge_first|exact Ht].
Qed.

Lemma quiet_rows_merge k rows : forall bef q,
  Forall (row_ok block_line_ok) rows ->
  quiet (merge_re k) bef (lines (map (row_text line_html) rows)) q.
Proof.
  induction rows as [|o rows IH]; intros bef q Hall; [apply quiet_nil|].
  inversion Hall as [|? ? Ho Hrows]; subst. cbn [map]. rewrite lines_cons.
  apply quiet_app.
  - destruct o as [b|]; [now apply quiet_line_html|apply quiet_nil].
  - destruct rows as [|o' rows']; [apply quiet_nil|]. cbn [map tail_lines].
    apply quiet_cons; [|now apply (IH _ _ Hrows)].
    apply match_at_first. now apply merge_first.
Qed.

Lemma merge_rules_rows rows :
  Forall (row_ok block_line_ok) rows ->
  merge_ul_rule (lines (map (row_text line_html) rows))
  = lines (map (row_text line_html) rows) /\
  merge_ol_rule (lines (map (row_text line_html) rows))
  = lines (map (row_text line_html) rows).
Proof.
  intros Hall. split.
  - apply replace_tmpl_quiet; [now apply (quiet_rows_merge Unordered)|].
    apply match_at_first. reflexivity.
  - apply replace_tmpl_quiet; [now apply (quiet_rows_merge Ordered)|].
    apply match_at_first. reflexivity.
Qed.

Lemma trim_start_behind_more l a x :
  is_space a = false ->
  exists p w, l = p ++ w /\ trim_start (l ++ a :: x) = w ++ a :: x.
Proof.
  intros Ha. induction l as [|c l IH].
  - exists [], []. split; [reflexivity|]. simpl. now rewrite Ha.
  - destruct (is_space c) eqn:Ec.
    + destruct IH as (p & w & E & T). exists (c :: p), w.
      split; [now rewrite E|]. simpl. now rewrite Ec.
    + exists [], (c :: l). split; [reflexivity|]. simpl. now rewrite Ec.
Qed.

(** [trim] keeps a text up to its last code unit that is no white
    space, when the text opens with one. *)
Lemma trim_keep_prefix a p b s :
  is_space a = false -> is_space b = false ->
  exists s1 s2, s = s1 ++ s2 /\ trim (a :: p ++ b :: s) = a :: p ++ b :: s1.
Proof.
  intros Ha Hb. unfold trim, trim_end. rewrite trim_start_keep by assumption.
  change (a :: p ++ b :: s) with ((a :: p) ++ [b] ++ s).
  remember (a :: p) as x eqn:Ex.
  rewrite !rev_app_distr, <- app_assoc. change (rev [b] ++ rev x) with (b :: rev x).
  destruct (trim_start_behind_more (rev s) b (rev x) Hb) as (u & w & E & T).
  rewrite T. exists (rev w), (rev u). split.
  - rewrite <- rev_app_distr, <- E. now rewrite rev_involutive.
  - change (w ++ b :: rev x) with (w ++ [b] ++ rev x).
    rewrite !rev_app_distr, rev_involutive, <- app_assoc. now subst x.
Qed.

(** A block that opens with a heading or a quotation is left as it is. *)
Lemma wrap_opened pre s :
  In pre block_openers -> wrap_paragraph (pre ++ s) = pre ++ s.
Proof.
  intros Hin. unfold wrap_paragraph.
  assert (T : exists s1, trim (pre ++ s) = pre ++ s1).
  { simpl in Hin. decompose [or] Hin; try contradiction; subst pre.
    all: match goal with
         | |- exists s1, trim (str ?x ++ _) = _ =>
             let l := eval vm_compute in (str x) in
             change (str x) with l
         end.
    1-6: match goal with
         | |- exists s1, trim ([?a; ?b; ?c; ?d] ++ ?z) = _ =>
             destruct (trim_keep_prefix a [b; c] d z eq_refl eq_refl) as (s1 & s2 & _ & T);
             exists s1; exact T
         end.
    destruct (trim_keep_prefix 60 [98; 108; 111; 99; 107; 113; 117; 111; 116; 101] 62 s
                eq_refl eq_refl) as (s1 & s2 & _ & T).
    exists s1. exact T. }
  destruct T as [s1 T]. rewrite T.
  simpl in Hin. decompose [or] Hin; try contradiction; subst pre; reflexivity.
Qed.

(** ** Documents: blocks that blank lines separate *)

Lemma lines_app_ne l1 l2 :
  l1 <> [] -> l2 <> [] -> lines (l1 ++ l2) = lines l1 ++ cNL :: lines l2.
Proof.
  intros H1 H2. induction l1 as [|a l1 IH]; [contradiction|].
  cbn [app]. rewrite !lines_cons.
  destruct l1 as [|b l1].
  - cbn [app tail_lines]. rewrite app_nil_r. destruct l2; [contradiction|reflexivity].
  - cbn [app tail_lines] in *. rewrite IH by discriminate.
    now rewrite <- !app_assoc.
Qed.

Lemma lines_empty_rows n (l : list jsstring) :
  l <> [] -> lines (repeat [] (S n) ++ l) = repeat cNL (S n) ++ lines l.
Proof.
  intros Hl. induction n as [|n IH].
  - cbn [repeat app]. rewrite lines_cons. destruct l; [contradiction|reflexivity].
  - change (repeat [] (S (S n)) ++ l) with ([] :: (repeat [] (S n) ++ l)).
    rewrite lines_cons. cbn [app tail_lines repeat] in *. now rewrite IH.
Qed.

Lemma map_row_some {T : Type} (f : T -> jsstring) ls :
  map (row_text f) (map Some ls) = map f ls.
Proof. rewrite map_map. now apply map_ext. Qed.

Lemma map_row_none {T : Type} (f : T -> jsstring) n :
  map (row_text f) (repeat (@None T) n) = repeat [] n.
Proof. induction n; simpl; [reflexivity|now f_equal]. Qed.

Lemma doc_text_rows_from {T : Type} (f : T -> jsstring)
    (rest : list (nat * list T)) : forall rows,
  rows <> [] -> Forall (fun p => snd p <> []) rest ->
  lines (map (row_text f)
           (rows ++ flat_map (fun p => repeat None (1 + fst p) ++ map Some (snd p)) rest))
  = lines (map (row_text f) rows)
      ++ flat_map (fun p => gap (fst p) ++ lines (map f (snd p))) rest.
Proof.
  induction rest as [|[n b] rest IH]; intros rows Hne Hall.
  - cbn [flat_map]. now rewrite !app_nil_r.
  - inversion Hall as [|? ? Hb Hrest]; subst. cbn [fst snd] in Hb.
    cbn [flat_map fst snd]. rewrite app_assoc.
    rewrite IH; [|destruct rows; [contradiction|discriminate]|assumption].
    cbn [Nat.add]. rewrite map_app, lines_app_ne;
      [|destruct rows; [contradiction|discriminate]|discriminate].
    rewrite map_app, map_row_none, map_row_some.
    rewrite lines_empty_rows by (destruct b; [contradiction|discriminate]).
    rewrite <- !app_assoc. f_equal.
    change (gap n) with (cNL :: repeat cNL (S n)).
    cbn [app]. now rewrite <- app_assoc.
Qed.

Lemma doc_text_rows {T : Type} (f : T -> jsstring) first rest :
  first <> [] -> Forall (fun p => snd p <> []) rest ->
  doc_text f first rest = lines (map (row_text f) (doc_rows first rest)).
Proof.
  intros Hne Hall. unfold doc_text, doc_rows.
  rewrite doc_text_rows_from; [|destruct first; [contradiction|discriminate]|assumption].
  now rewrite map_row_some.
Qed.

Lemma doc_rows_ok {T : Type} (ok : T -> Prop) first rest :
  block_of ok first -> Forall (fun p => block_of ok (snd p)) rest ->
  Forall (row_ok ok) (doc_rows first rest) /\ doc_rows first rest <> [] /\
  Forall (fun p => snd p <> []) rest.
Proof.
  intros [Hne Hf] Hrest. repeat split.
  - unfold doc_rows. apply Forall_app. split.
    + apply Forall_map. eapply Forall_impl; [|exact Hf]. intros b Hb. exact Hb.
    + induction Hrest as [|[n b] rest [_ Hb] _ IH]; [constructor|].
      cbn [flat_map fst snd]. apply Forall_app. split; [|exact IH].
      apply Forall_app. split.
      * apply Forall_forall. intros o Ho. apply repeat_spec in Ho. now subst o.
      * apply Forall_map. eapply Forall_impl; [|exact Hb]. intros x Hx. exact Hx.
  - unfold doc_rows. destruct first; [contradiction|discriminate].
  - eapply Forall_impl; [|exact Hrest]. now intros p [H _].
Qed.

Lemma split_scan_skip re l : forall bef rest piece,
  split_scan re bef (l ++ rest) piece (length l) = split_scan re (rev l ++ bef) rest piece 0.
Proof.
  induction l as [|a l IH]; intros bef rest piece; [reflexivity|].
  cbn [app length split_scan rev]. rewrite IH, <- app_assoc. reflexivity.
Qed.

Lemma split_scan_quiet_then re p : forall bef q piece,
  quiet re bef p q ->
  split_scan re bef (p ++ q) piece 0 = split_scan re (rev p ++ bef) q (rev p ++ piece) 0.
Proof.
  induction p as [|a p IH]; intros bef q piece Hq; [reflexivity|].
  cbn [app split_scan].
  pose proof (Hq [] a p eq_refl) as H0. simpl in H0.
  rewrite H0, IH.
  - simpl. now rewrite <- !app_assoc.
  - intros p1 b p2 E. specialize (Hq (a :: p1) b p2). simpl in Hq.
    rewrite <- app_assoc in Hq. apply Hq. now rewrite E.
Qed.

(** A separator found where the scan stands ends the piece. *)
Lemma split_scan_hit re bef sep rest piece y :
  sep <> [] ->
  match_at re bef (sep ++ rest) = Some y -> after y = rest ->
  split_scan re bef (sep ++ rest) piece 0
  = rev piece :: split_scan re (rev sep ++ bef) rest [] 0.
Proof.
  intros Hne Hm Hy. destruct sep as [|a sep]; [contradiction|].
  cbn [app split_scan] in *. rewrite Hm, Hy.
  replace (length (a :: sep ++ rest) - length rest)%nat with (S (length sep))
    by (cbn [length]; rewrite length_app; lia).
  rewrite split_scan_skip. cbn [rev]. now rewrite <- app_assoc.
Qed.

Lemma greedy_try_last c l : forall a bef rest cs z,
  c (mkState (rev (l ++ [a]) ++ bef) rest cs) = None ->
  c (mkState (rev l ++ bef) (a :: rest) cs) = Some z ->
  greedy_try c bef (l ++ [a]) rest cs = Some z.
Proof.
  induction l as [|b l IH]; intros a bef rest cs z H1 H2.
  - cbn in *. now rewrite H1.
  - cbn [app greedy_try]. cbn [app rev] in H1, H2. rewrite <- !app_assoc in H1, H2.
    cbn [app] in H1, H2. now rewrite (IH a (b :: bef) rest cs z H1 H2).
Qed.

Lemma rev_repeat_same (a : N) n : rev (repeat a n) = repeat a n.
Proof.
  induction n as [|n IH]; [reflexivity|].
  cbn [repeat rev]. rewrite IH. symmetry. apply repeat_cons.
Qed.

(** The separator literal takes all the line ends of a gap. *)
Lemma match_gap bef n c aft :
  is_space c = false ->
  match_at Re.blank_lines bef (gap n ++ c :: aft)
  = Some (mkState (rev (gap n) ++ bef) (c :: aft) []).
Proof.
  intros Hc. unfold match_at, Re.blank_lines. cbn [source multiline].
  unfold gap. rewrite rev_repeat_same.
  change (repeat cNL (2 + n)) with (cNL :: cNL :: repeat cNL n).
  rewrite (repeat_cons n cNL). cbn [app].
  rewrite m_seq, m_char, N.eqb_refl, m_seq. unfold star, white.
  rewrite (m_star false (Class false [CSpace]) _ eq_refl).
  - apply greedy_try_last.
    + rewrite m_char. now rewrite space_not_nl.
    + rewrite m_char, N.eqb_refl. f_equal. f_equal.
      rewrite rev_repeat_same, <- app_assoc. reflexivity.
  - rewrite forallb_app. cbn [forallb]. rewrite andb_true_r.
    apply forallb_forall. intros x Hx. apply repeat_spec in Hx. now subst x.
  - unfold stops, class_matches. simpl. now rewrite Hc.
Qed.

(** No blank line separates lines that open with a code unit other than
    white space. *)
Lemma quiet_blank_solid ls : forall bef q,
  Forall (fun l => solid l = true) ls -> quiet Re.blank_lines bef (lines ls) q.
Proof.
  induction ls as [|l ls IH]; intros bef q Hall; [apply quiet_nil|].
  inversion Hall as [|? ? Hl Hls]; subst. rewrite lines_cons.
  destruct l as [|c r]; [discriminate|]. cbn [solid] in Hl.
  apply andb_prop in Hl as [_ Hnl].
  apply quiet_app.
  - apply (quiet_absent _ cNL); [first_never|]. now apply no_line_end_absent.
  - destruct ls as [|l' ls']; [apply quiet_nil|]. cbn [tail_lines].
    apply quiet_cons; [|now apply IH].
    inversion Hls as [|? ? Hl' _]; subst.
    destruct l' as [|c' r']; [discriminate|]. cbn [solid] in Hl'.
    apply andb_prop in Hl' as [Hs' _]. apply negb_true_iff in Hs'.
    rewrite lines_cons. cbn [app].
    unfold match_at, Re.blank_lines. cbn [source multiline].
    rewrite m_seq, m_char, N.eqb_refl, m_seq. unfold star, white.
    change (c' :: (r' ++ tail_lines ls') ++ q) with ([] ++ c' :: (r' ++ tail_lines ls') ++ q).
    rewrite (m_star false (Class false [CSpace]) _ eq_refl);
      [|reflexivity|unfold stops, class_matches; simpl; now rewrite Hs'].
    cbn [greedy_try]. rewrite m_char. now rewrite space_not_nl.
Qed.

Lemma solid_line_html b : shown_ok b -> solid (line_html b) = true.
Proof.
  intros Hb. destruct (line_html_shape b Hb) as [_ Hnl].
  destruct (line_html_first b Hb) as (c & r & E & Hs & _).
  rewrite E in *. cbn [solid]. now rewrite Hs, Hnl.
Qed.

Lemma quiet_blank_block ls bef q :
  Forall shown_ok ls -> quiet Re.blank_lines bef (lines (map line_html ls)) q.
Proof.
  intros Hall. apply quiet_blank_solid. apply Forall_map.
  eapply Forall_impl; [|exact Hall]. apply solid_line_html.
Qed.

(** How the converted lines of a block open. *)
Lemma block_first ls :
  block_of shown_ok ls ->
  exists c s, lines (map line_html ls) = c :: s /\ is_space c = false.
Proof.
  intros [Hne Hall]. destruct ls as [|b ls']; [contradiction|].
  inversion Hall as [|? ? Hb _]; subst.
  destruct (line_html_first b Hb) as (c & r & E & Hs & _).
  exists c, (r ++ tail_lines (map line_html ls')). split; [|exact Hs].
  cbn [map]. now rewrite lines_cons, E.
Qed.

(** The callback of the paragraph pass on one block. *)
Lemma wrap_block ls :
  block_of shown_ok ls -> wrap_paragraph (lines (map line_html ls)) = block_html ls.
Proof.
  intros [Hne Hall]. destruct ls as [|b ls']; [contradiction|].
  inversion Hall as [|? ? Hb _]; subst.
  destruct b as [l|lv h t|t]; cbn [block_html].
  - destruct Hb as (Ho & _).
    destruct (text_parts l Ho) as (c & r & -> & Hs & _ & _ & _ & H60 & _).
    cbn [map line_html]. rewrite lines_cons. cbn [app].
    now apply wrap_text_br.
  - cbn [map line_html]. rewrite lines_cons. destruct Hb as [Hin _].
    unfold heading_html.
    heading_cases Hin;
      match goal with
      | |- wrap_paragraph ((str ?a ++ str ?b ++ 62 :: ?x) ++ ?y) = _ =>
          change ((str a ++ str b ++ 62 :: x) ++ y) with ((str a ++ str b ++ [62]) ++ x ++ y)
      end; apply wrap_opened; simpl; tauto.
  - cbn [map line_html]. rewrite lines_cons. unfold quote_html.
    rewrite <- app_assoc. apply wrap_opened. simpl; tauto.
Qed.

Lemma doc_text_later {T : Type} (f : T -> jsstring) first n b rest :
  doc_text f first ((n, b) :: rest) = lines (map f first) ++ gap n ++ doc_text f b rest.
Proof. unfold doc_text. cbn [flat_map fst snd]. now rewrite <- app_assoc. Qed.

Lemma doc_first first rest :
  block_of shown_ok first ->
  exists c s, doc_text line_html first rest = c :: s /\ is_space c = false.
Proof.
  intros Hf. destruct (block_first first Hf) as (c & s & E & Hs).
  exists c, (s ++ flat_map (fun p => gap (fst p) ++ lines (map line_html (snd p))) rest).
  split; [|exact Hs]. unfold doc_text. now rewrite E.
Qed.

(** The split of a document gives its blocks. *)
Lemma split_blocks rest : forall first bef piece,
  block_of shown_ok first -> Forall (fun p => block_of shown_ok (snd p)) rest ->
  split_scan Re.blank_lines bef (doc_text line_html first rest) piece 0
  = (rev piece ++ lines (map line_html first))
      :: map (fun p => lines (map line_html (snd p))) rest.
Proof.
  induction rest as [|[n b] rest IH]; intros first bef piece Hf Hrest.
  - unfold doc_text. cbn [flat_map map]. rewrite app_nil_r.
    apply split_scan_quiet. apply quiet_blank_block. now destruct Hf.
  - inversion Hrest as [|? ? Hb Hrest']; subst. cbn [snd] in Hb.
    rewrite doc_text_later.
    rewrite split_scan_quiet_then by (apply quiet_blank_block; now destruct Hf).
    destruct (doc_first b rest Hb) as (c & s & E & Hs).
    assert (Hgap : gap n <> []) by discriminate.
    pose proof (match_gap (rev (lines (map line_html first)) ++ bef) n c s Hs) as M.
    rewrite <- E in M.
    rewrite (split_scan_hit _ _ _ _ _ _ Hgap M); [|cbn [after]; now rewrite E].
    rewrite (IH b _ [] Hb Hrest').
    cbn [map snd rev app]. now rewrite rev_app_distr, rev_involutive.
Qed.

Lemma wrap_later (rest : list (nat * list block_line)) :
  Forall (fun p => block_of shown_ok (snd p)) rest ->
  concat (map wrap_paragraph (map (fun p => lines (map line_html (snd p))) rest))
  = flat_map (fun p => block_html (snd p)) rest.
Proof.
  intros Hrest. induction Hrest as [|[n b] rest Hb _ IH]; [reflexivity|].
  cbn [map concat flat_map snd] in *. now rewrite (wrap_block b Hb), IH.
Qed.

Lemma paragraphs_doc first rest :
  block_of shown_ok first -> Forall (fun p => block_of shown_ok (snd p)) rest ->
  paragraphs (doc_text line_html first rest) = doc_html first rest.
Proof.
  intros Hf Hrest. unfold paragraphs, regex_split.
  destruct (doc_first first rest Hf) as (c & s & E & _).
  rewrite E, <- E.
  rewrite (split_blocks rest first [] [] Hf Hrest).
  cbn [rev app map join_empty concat]. unfold doc_html.
  now rewrite (wrap_block first Hf), (wrap_later rest Hrest).
Qed.

(** ** Inline markup *)

Lemma marked_parts t :
  marked t -> exists c r, t = c :: r /\ no_line_end t = true /\
    forall ch, In ch markup_chars -> absent ch t = true.
Proof.
  intros [Hne Hp]. destruct t as [|c r]; [contradiction|].
  exists c, r. split; [reflexivity|]. now apply plain_parts.
Qed.

Lemma plain_inert s : plain s = true -> inert s.
Proof.
  intros H. destruct (plain_parts s H) as [_ Ha].
  repeat split; apply Ha; simpl; tauto.
Qed.

Lemma pieces_ok_weaken (P Q : jsstring -> Prop) xs :
  (forall s, P s -> Q s) -> pieces_ok P xs -> pieces_ok Q xs.
Proof.
  intros H. induction xs as [|x xs IH]; [easy|].
  intros (Hx & Hn & Hxs). repeat split; [|assumption|now apply IH].
  destruct x; cbn [piece_ok] in *; try assumption. now apply H.
Qed.

Lemma pieces_ok_app P xs ys :
  pieces_ok P xs -> pieces_ok P ys -> opens_plain ys -> pieces_ok P (xs ++ ys).
Proof.
  intros Hxs Hys Hopen. induction xs as [|x xs IH]; [exact Hys|].
  destruct Hxs as (Hx & Hn & Hxs). cbn [app pieces_ok]. repeat split; [assumption| |now apply IH].
  intros Hs. specialize (Hn Hs). destruct xs as [|x' xs]; [exact Hopen|exact Hn].
Qed.

Lemma rich_text_app f xs ys : rich_text f (xs ++ ys) = rich_text f xs ++ rich_text f ys.
Proof. unfold rich_text. now rewrite map_app, concat_app. Qed.

Ltac absent_pieces :=
  repeat rewrite absent_app;
  repeat match goal with
         | H : forall ch, In ch markup_chars -> absent ch ?t = true |- context [absent ?c ?t] =>
             rewrite (H c) by (simpl; tauto)
         | H : absent ?c ?t = true |- context [absent ?c ?t] => rewrite H
         end;
  try reflexivity.

Lemma opens_calm_pieces f xs :
  (forall s, f (Plain s) = s) ->
  opens_plain xs -> pieces_ok inert xs -> opens_calm (rich_text f xs).
Proof.
  intros Hf.
  destruct xs as [|[s|t|t|t|t|t u] xs]; cbn [opens_plain]; try contradiction; [easy|].
  destruct s as [|c s]; [contradiction|]. intros _ ((H42 & _ & H96 & _) & _).
  unfold rich_text. cbn [map concat]. rewrite Hf. cbn [app opens_calm].
  split; [apply (absent_in 42 (c :: s))|apply (absent_in 96 (c :: s))];
    try assumption; now left.
Qed.

(** A text up to its first line end. *)
Lemma line_split q :
  exists q1 q2, q = q1 ++ q2 /\ no_line_end q1 = true /\ line_end q2.
Proof.
  induction q as [|c q (q1 & q2 & E & H1 & H2)].
  - exists [], []. repeat split.
  - destruct (is_line_terminator c) eqn:Ec.
    + exists [], (c :: q). repeat split. unfold line_end, stops. now rewrite Ec.
    + exists (c :: q1), q2. repeat split; [now rewrite E| |assumption].
      simpl. now rewrite Ec.
Qed.

Lemma piece_quiet re (f : replacer unit) bef l q :
  quiet re bef l q ->
  snd (replace_scan re f tt bef (l ++ q) 0)
  = l ++ snd (replace_scan re f tt (rev l ++ bef) q 0).
Proof. intros H. now rewrite scan_quiet. Qed.

(** A rule read piece by piece. *)
Lemma scan_pieces re (f : replacer unit) (src out : inline -> jsstring) :
  (forall x xs bef, pieces_ok inert (x :: xs) ->
     snd (replace_scan re f tt bef (src x ++ rich_text src xs) 0)
     = out x ++ snd (replace_scan re f tt (rev (src x) ++ bef) (rich_text src xs) 0)) ->
  (forall bef, match_at re bef [] = None) ->
  forall xs bef, pieces_ok inert xs ->
    snd (replace_scan re f tt bef (rich_text src xs) 0) = rich_text out xs.
Proof.
  intros Hpiece Hend. induction xs as [|x xs IH]; intros bef Hok.
  - unfold rich_text. cbn [map concat]. now rewrite scan_nil_none.
  - unfold rich_text in *. cbn [map concat]. rewrite Hpiece by exact Hok.
    f_equal. apply IH. now destruct Hok as (_ & _ & H).
Qed.

(** A body between two delimiters of two code units each, as the
    literals for bold and struck text read it. *)
Lemma match_delimited2 re d bef t q :
  source re
  = Seq (fold_right (fun a r => Seq (Char a) r) Empty [d; d])
        (Seq (Group 1 (Quant 0 None false Dot))
             (fold_right (fun a r => Seq (Char a) r) Empty [d; d])) ->
  is_line_terminator d = false ->
  absent d t = true -> no_line_end t = true ->
  match_at re bef ([d; d] ++ t ++ [d; d] ++ q)
  = Some (mkState (rev ([d; d] ++ t ++ [d; d]) ++ bef) q [(1%nat, t)]).
Proof.
  intros Hre Hd Ht Hnl. unfold match_at. rewrite Hre.
  destruct (line_split q) as (q1 & q2 & -> & Hq1 & Hq2).
  rewrite m_seq, m_lit, m_seq, m_group.
  replace (t ++ [d; d] ++ q1 ++ q2) with ((t ++ [d; d] ++ q1) ++ q2)
    by (now rewrite <- !app_assoc).
  rewrite (m_lazy_star (multiline re) Dot _ eq_refl);
    [|rewrite !no_line_end_app, Hnl, Hq1; cbn; now rewrite Hd|exact Hq2].
  rewrite lazy_try_skip.
  2:{ intros p a q' E. apply first_ok_sound. cbn.
      rewrite (absent_in d t); [reflexivity|assumption|].
      rewrite E. apply in_or_app. right. now left. }
  apply lazy_try_now. cbn [before after caps].
  replace ((t ++ [d; d] ++ q1) ++ q2) with (t ++ ([d; d] ++ q1) ++ q2)
    by (now rewrite <- !app_assoc).
  rewrite consumed_app. rewrite <- app_assoc, m_lit.
  f_equal. f_equal.
  repeat (rewrite ?rev_app_distr; simpl rev; rewrite <- ?app_assoc; simpl app). reflexivity.
Qed.

Lemma match_italic bef t q :
  absent 42 t = true -> no_line_end t = true ->
  match_at Re.italic bef ([42] ++ t ++ [42] ++ q)
  = Some (mkState (rev ([42] ++ t ++ [42]) ++ bef) q [(1%nat, t)]).
Proof.
  intros Ht Hnl. unfold match_at, Re.italic, Ch. cbn [source multiline].
  destruct (line_split q) as (q1 & q2 & -> & Hq1 & Hq2).
  change (N_of_ascii "*") with 42. cbn [app].
  rewrite m_seq, m_char, N.eqb_refl, m_seq, m_group. unfold lazy_star.
  replace (t ++ 42 :: q1 ++ q2) with ((t ++ [42] ++ q1) ++ q2)
    by (now rewrite <- !app_assoc).
  rewrite (m_lazy_star false Dot _ eq_refl);
    [|rewrite !no_line_end_app, Hnl, Hq1; reflexivity|exact Hq2].
  rewrite lazy_try_skip.
  2:{ intros p a q' E. cbn [before after caps]. rewrite m_char.
      rewrite (absent_in 42 t); [reflexivity|assumption|].
      rewrite E. apply in_or_app. right. now left. }
  apply lazy_try_now. cbn [before after caps].
  replace ((t ++ [42] ++ q1) ++ q2) with (t ++ ([42] ++ q1) ++ q2)
    by (now rewrite <- !app_assoc).
  rewrite consumed_app. cbn [app]. rewrite m_char, N.eqb_refl.
  f_equal. f_equal.
  repeat (rewrite ?rev_app_distr; simpl rev; rewrite <- ?app_assoc; simpl app). reflexivity.
Qed.

Lemma not_class_char ch c : (c =? ch) = false -> class_matches true [CChar ch] c = true.
Proof. intros H. unfold class_matches. simpl. now rewrite H. Qed.

Lemma forallb_not_class ch t : absent ch t = true -> forallb (class_matches true [CChar ch]) t = true.
Proof.
  intros H. apply forallb_forall. intros c Hc. apply not_class_char.
  now apply (absent_in ch t).
Qed.

Lemma match_code bef c t q :
  absent 96 (c :: t) = true ->
  match_at Re.code bef ([96] ++ (c :: t) ++ [96] ++ q)
  = Some (mkState (rev ([96] ++ (c :: t) ++ [96]) ++ bef) q [(1%nat, c :: t)]).
Proof.
  intros Ht. unfold match_at, Re.code, Ch, cc. cbn [source multiline].
  change (N_of_ascii "`") with 96. cbn [app].
  rewrite m_seq, m_char, N.eqb_refl, m_seq, m_group. unfold plus.
  assert (Hc : (c =? 96) = false) by (apply (absent_in 96 (c :: t)); [assumption|now left]).
  assert (Ht' : absent 96 t = true).
  { unfold absent in *. cbn [existsb] in Ht. rewrite negb_orb in Ht.
    now apply andb_prop in Ht as [_ Ht]. }
  change (c :: t ++ 96 :: q) with (c :: t ++ 96 :: q).
  rewrite (m_plus false (Class true [CChar 96]) _ eq_refl);
    [|now apply not_class_char|now apply forallb_not_class|reflexivity].
  apply greedy_try_all. cbn [before after caps].
  change (c :: t ++ 96 :: q) with ((c :: t) ++ 96 :: q). rewrite consumed_app.
  rewrite m_char, N.eqb_refl.
  f_equal. f_equal.
  repeat (rewrite ?rev_app_distr; simpl rev; rewrite <- ?app_assoc; simpl app). reflexivity.
Qed.

Lemma absent_tail ch c t : absent ch (c :: t) = true -> absent ch t = true.
Proof.
  unfold absent. cbn [existsb]. rewrite negb_orb. intros H.
  now apply andb_prop in H as [_ H].
Qed.

Lemma match_link bef c t c' u q :
  absent 93 (c :: t) = true -> absent 41 (c' :: u) = true ->
  match_at Re.link bef ([91] ++ (c :: t) ++ [93; 40] ++ (c' :: u) ++ [41] ++ q)
  = Some (mkState (rev ([91] ++ (c :: t) ++ [93; 40] ++ (c' :: u) ++ [41]) ++ bef) q
            [(2%nat, c' :: u); (1%nat, c :: t)]).
Proof.
  intros Ht Hu. unfold match_at, Re.link, Ch, cc. cbn [source multiline].
  change (N_of_ascii "[") with 91. change (N_of_ascii "]") with 93.
  change (N_of_ascii "(") with 40. change (N_of_ascii ")") with 41. cbn [app].
  rewrite m_seq, m_char, N.eqb_refl, m_seq, m_group. unfold plus.
  rewrite (m_plus false (Class true [CChar 93]) _ eq_refl);
    [|apply not_class_char; apply (absent_in 93 (c :: t)); [assumption|now left]
     |apply forallb_not_class; now apply (absent_tail 93 c)|reflexivity].
  apply greedy_try_all. cbn [before after caps].
  change (c :: t ++ 93 :: 40 :: c' :: u ++ 41 :: q)
    with ((c :: t) ++ 93 :: 40 :: c' :: u ++ 41 :: q).
  rewrite consumed_app.
  rewrite m_seq, m_char, N.eqb_refl, m_seq, m_char, N.eqb_refl, m_seq, m_group.
  rewrite (m_plus false (Class true [CChar 41]) _ eq_refl);
    [|apply not_class_char; apply (absent_in 41 (c' :: u)); [assumption|now left]
     |apply forallb_not_class; now apply (absent_tail 41 c')|reflexivity].
  apply greedy_try_all. cbn [before after caps].
  change (c' :: u ++ 41 :: q) with ((c' :: u) ++ 41 :: q).
  rewrite consumed_app.
  rewrite m_char, N.eqb_refl.
  f_equal. f_equal.
  repeat (rewrite ?rev_app_distr; simpl rev; rewrite <- ?app_assoc; simpl app). reflexivity.
Qed.

Lemma bold_needs_two bef c rest :
  (c =? 42) = false -> match_at Re.bold bef (42 :: c :: rest) = None.
Proof.
  intros Hc. unfold match_at, Re.bold. cbn [source multiline].
  change (lit "**") with (Seq (Char 42) (Seq (Char 42) Empty)).
  rewrite !m_seq, m_char, N.eqb_refl, m_seq, m_char. now rewrite Hc.
Qed.

Lemma bold_not_alone bef : match_at Re.bold bef [42] = None.
Proof. reflexivity. Qed.

(** The literal for bold text finds nothing in text in italics, when no
    star follows it. *)
Lemma quiet_bold_italic bef t q :
  marked t -> opens_calm q -> quiet Re.bold bef ([42] ++ t ++ [42]) q.
Proof.
  intros Ht Hq. destruct (marked_parts t Ht) as (c & r & E & _ & Ha).
  assert (H42 : absent 42 t = true) by (apply Ha; simpl; tauto).
  cbn [app]. apply quiet_cons.
  - rewrite E. cbn [app]. apply bold_needs_two.
    apply (absent_in 42 t); [assumption|rewrite E; now left].
  - apply quiet_app.
    + apply (quiet_absent _ 42); [first_never|assumption].
    + apply quiet_cons; [|apply quiet_nil].
      cbn [app]. destruct q as [|c' q]; [apply bold_not_alone|].
      apply bold_needs_two. now destruct Hq.
Qed.

Lemma fence_needs_two bef c rest :
  (c =? 96) = false -> match_at Re.fence bef (96 :: c :: rest) = None.
Proof.
  intros Hc. unfold match_at, Re.fence. cbn [source multiline].
  change (lit "```") with (Seq (Char 96) (Seq (Char 96) (Seq (Char 96) Empty))).
  rewrite !m_seq, m_char, N.eqb_refl, m_seq, m_char. now rewrite Hc.
Qed.

Lemma fence_not_alone bef : match_at Re.fence bef [96] = None.
Proof. reflexivity. Qed.

(** The literal for fenced code finds nothing in inline code, when no
    backquote follows it. *)
Lemma quiet_fence_code bef t q :
  marked t -> opens_calm q -> quiet Re.fence bef ([96] ++ t ++ [96]) q.
Proof.
  intros Ht Hq. destruct (marked_parts t Ht) as (c & r & E & _ & Ha).
  assert (H96 : absent 96 t = true) by (apply Ha; simpl; tauto).
  cbn [app]. apply quiet_cons.
  - rewrite E. cbn [app]. apply fence_needs_two.
    apply (absent_in 96 t); [assumption|rewrite E; now left].
  - apply quiet_app.
    + apply (quiet_absent _ 96); [first_never|assumption].
    + apply quiet_cons; [|apply quiet_nil].
      cbn [app]. destruct q as [|c' q]; [apply fence_not_alone|].
      apply fence_needs_two. now destruct Hq.
Qed.

Ltac piece_facts :=
  unfold inert in *;
  repeat match goal with
         | H : marked ?t |- _ =>
             let c := fresh "c" in
             let r := fresh "r" in
             let E := fresh "E" in
             let Hnl := fresh "Hnl" in
             let Ha := fresh "Ha" in
             destruct (marked_parts t H) as (c & r & E & Hnl & Ha); clear H
         | H : _ /\ _ |- _ => destruct H
         end.

Ltac stage_text :=
  unfold inline_after; cbn [rule_index Nat.leb inline_html inline_source].

Ltac quiet_piece ch :=
  apply piece_quiet; apply (quiet_absent _ ch); [first_never|absent_pieces].

Lemma inline_after_plain n s : inline_after n (Plain s) = s.
Proof. reflexivity. Qed.

Lemma fence_pieces (f : replacer unit) : forall xs bef,
  pieces_ok inert xs ->
  snd (replace_scan Re.fence f tt bef (rich_text (inline_after 0) xs) 0)
  = rich_text (inline_after 0) xs.
Proof.
  apply scan_pieces; [|reflexivity].
  intros x xs bef (Hx & Hnext & Hxs).
  destruct x as [s|t|t|t|t|t u]; cbn [piece_ok markup_ok] in Hx; stage_text.
  - piece_facts. quiet_piece 96.
  - piece_facts. quiet_piece 96.
  - piece_facts. quiet_piece 96.
  - piece_facts. quiet_piece 96.
  - apply piece_quiet. apply quiet_fence_code; [assumption|].
    apply opens_calm_pieces; [reflexivity|now apply Hnext|assumption].
  - piece_facts. quiet_piece 96.
Qed.

Lemma bold_pieces : forall xs bef,
  pieces_ok inert xs ->
  snd (replace_scan Re.bold (template_replacer (str "<strong>$1</strong>")) tt bef
         (rich_text (inline_after 0) xs) 0)
  = rich_text (inline_after 1) xs.
Proof.
  apply scan_pieces; [|reflexivity].
  intros x xs bef (Hx & Hnext & Hxs).
  destruct x as [s|t|t|t|t|t u]; cbn [piece_ok markup_ok] in Hx; stage_text.
  - piece_facts. quiet_piece 42.
  - piece_facts.
    assert (M : match_at Re.bold bef (([42; 42] ++ t ++ [42; 42]) ++ rich_text (inline_after 0) xs)
                = Some (mkState (rev ([42; 42] ++ t ++ [42; 42]) ++ bef)
                          (rich_text (inline_after 0) xs) [(1%nat, t)])).
    { rewrite <- !app_assoc.
      apply (match_delimited2 Re.bold 42 _ _ _ eq_refl eq_refl); [|assumption].
      apply Ha. simpl; tauto. }
    rewrite (line_hit _ _ _ _ _ _ (ne_cons _ _) M eq_refl). f_equal.
  - apply piece_quiet. apply quiet_bold_italic; [assumption|].
    apply opens_calm_pieces; [reflexivity|now apply Hnext|assumption].
  - piece_facts. quiet_piece 42.
  - piece_facts. quiet_piece 42.
  - piece_facts. quiet_piece 42.
Qed.

Lemma italic_pieces : forall xs bef,
  pieces_ok inert xs ->
  snd (replace_scan Re.italic (template_replacer (str "<em>$1</em>")) tt bef
         (rich_text (inline_after 1) xs) 0)
  = rich_text (inline_after 2) xs.
Proof.
  apply scan_pieces; [|reflexivity].
  intros x xs bef (Hx & Hnext & Hxs).
  destruct x as [s|t|t|t|t|t u]; cbn [piece_ok markup_ok] in Hx; stage_text.
  - piece_facts. quiet_piece 42.
  - piece_facts. quiet_piece 42.
  - piece_facts.
    assert (M : match_at Re.italic bef (([42] ++ t ++ [42]) ++ rich_text (inline_after 1) xs)
                = Some (mkState (rev ([42] ++ t ++ [42]) ++ bef)
                          (rich_text (inline_after 1) xs) [(1%nat, t)])).
    { rewrite <- !app_assoc. apply match_italic; [|assumption].
      apply Ha. simpl; tauto. }
    rewrite (line_hit _ _ _ _ _ _ (ne_cons _ _) M eq_refl). f_equal.
  - piece_facts. quiet_piece 42.
  - piece_facts. quiet_piece 42.
  - piece_facts. quiet_piece 42.
Qed.

Lemma strike_pieces : forall xs bef,
  pieces_ok inert xs ->
  snd (replace_scan Re.strike (template_replacer (str "<del>$1</del>")) tt bef
         (rich_text (inline_after 2) xs) 0)
  = rich_text (inline_after 3) xs.
Proof.
  apply scan_pieces; [|reflexivity].
  intros x xs bef (Hx & Hnext & Hxs).
  destruct x as [s|t|t|t|t|t u]; cbn [piece_ok markup_ok] in Hx; stage_text.
  - piece_facts. quiet_piece 126.
  - piece_facts. quiet_piece 126.
  - piece_facts. quiet_piece 126.
  - piece_facts.
    assert (M : match_at Re.strike bef
                  (([126; 126] ++ t ++ [126; 126]) ++ rich_text (inline_after 2) xs)
                = Some (mkState (rev ([126; 126] ++ t ++ [126; 126]) ++ bef)
                          (rich_text (inline_after 2) xs) [(1%nat, t)])).
    { rewrite <- !app_assoc.
      apply (match_delimited2 Re.strike 126 _ _ _ eq_refl eq_refl); [|assumption].
      apply Ha. simpl; tauto. }
    rewrite (line_hit _ _ _ _ _ _ (ne_cons _ _) M eq_refl). f_equal.
  - piece_facts. quiet_piece 126.
  - piece_facts. quiet_piece 126.
Qed.

Lemma code_pieces : forall xs bef,
  pieces_ok inert xs ->
  snd (replace_scan Re.code
         (template_replacer
            (str "<code class=" ++ dq
               ++ str "bg-slate-200 dark:bg-slate-900 text-amber-600 dark:text-amber-400 px-1.5 py-1 rounded text-sm font-mono"
               ++ dq ++ str ">$1</code>")) tt bef
         (rich_text (inline_after 3) xs) 0)
  = rich_text (inline_after 4) xs.
Proof.
  apply scan_pieces; [|reflexivity].
  intros x xs bef (Hx & Hnext & Hxs).
  destruct x as [s|t|t|t|t|t u]; cbn [piece_ok markup_ok] in Hx; stage_text.
  - piece_facts. quiet_piece 96.
  - piece_facts. quiet_piece 96.
  - piece_facts. quiet_piece 96.
  - piece_facts. quiet_piece 96.
  - piece_facts. subst t.
    assert (M : match_at Re.code bef (([96] ++ (c :: r) ++ [96]) ++ rich_text (inline_after 3) xs)
                = Some (mkState (rev ([96] ++ (c :: r) ++ [96]) ++ bef)
                          (rich_text (inline_after 3) xs) [(1%nat, c :: r)])).
    { rewrite <- !app_assoc. apply match_code. apply Ha. simpl; tauto. }
    rewrite (line_hit _ _ _ _ _ _ (ne_cons _ _) M eq_refl). f_equal.
  - piece_facts. quiet_piece 96.
Qed.

Lemma link_pieces : forall xs bef,
  pieces_ok inert xs ->
  snd (replace_scan Re.link
         (template_replacer
            (str "<a href=" ++ dq ++ str "$2" ++ dq ++ str " target=" ++ dq ++ str "_blank" ++ dq
               ++ str " rel=" ++ dq ++ str "noopener noreferrer" ++ dq
               ++ str " class=" ++ dq ++ str "text-brand hover:underline" ++ dq
               ++ str ">$1</a>")) tt bef
         (rich_text (inline_after 4) xs) 0)
  = rich_text (inline_after 5) xs.
Proof.
  apply scan_pieces; [|reflexivity].
  intros x xs bef (Hx & Hnext & Hxs).
  destruct x as [s|t|t|t|t|t u]; cbn [piece_ok markup_ok] in Hx; stage_text.
  - piece_facts. quiet_piece 91.
  - piece_facts. quiet_piece 91.
  - piece_facts. quiet_piece 91.
  - piece_facts. quiet_piece 91.
  - piece_facts. quiet_piece 91.
  - destruct Hx as (Ht & H93 & Hu & H41).
    destruct (marked_parts t Ht) as (c & r & -> & _).
    destruct (marked_parts u Hu) as (c' & r' & -> & _).
    assert (M : match_at Re.link bef
                  (([91] ++ (c :: r) ++ [93; 40] ++ (c' :: r') ++ [41])
                     ++ rich_text (inline_after 4) xs)
                = Some (mkState (rev ([91] ++ (c :: r) ++ [93; 40] ++ (c' :: r') ++ [41]) ++ bef)
                          (rich_text (inline_after 4) xs)
                          [(2%nat, c' :: r'); (1%nat, c :: r)])).
    { rewrite <- !app_assoc. now apply match_link. }
    rewrite (line_hit _ _ _ _ _ _ (ne_cons _ _) M eq_refl). f_equal.
Qed.

(** The five inline rules on pieces in a row. *)
Lemma inline_rules_pieces xs :
  pieces_ok inert xs ->
  inline_rules (rich_text (inline_after 0) xs) = rich_text (inline_after 5) xs.
Proof.
  intros H. unfold inline_rules, links, inline_code, strike_rule, italic_rule, bold_rule,
    replace_tmpl, replace_with.
  now rewrite (bold_pieces xs [] H), (italic_pieces xs [] H), (strike_pieces xs [] H),
    (code_pieces xs [] H), (link_pieces xs [] H).
Qed.

Lemma fences_pieces xs :
  pieces_ok inert xs -> fences (rich_text (inline_after 0) xs) = rich_text (inline_after 0) xs.
Proof. intros H. unfold fences, replace_fn, replace_with. now apply fence_pieces. Qed.

(** ** Documents with inline markup *)

Lemma inline_after_source x : inline_after 0 x = inline_source x.
Proof. now destruct x. Qed.

Lemma inline_after_html x : inline_after 5 x = inline_html x.
Proof. now destruct x. Qed.

Lemma rich_text_ext f g xs : (forall x, f x = g x) -> rich_text f xs = rich_text g xs.
Proof. intros H. unfold rich_text. f_equal. now apply map_ext. Qed.

Lemma piece_source_facts x :
  piece_ok plain_text x ->
  no_line_end (inline_source x) = true /\ absent cPipe (inline_source x) = true /\
  absent cLT (inline_source x) = true.
Proof.
  unfold cPipe, cLT.
  destruct x as [s|t|t|t|t|t u]; cbn [piece_ok markup_ok inline_source]; intros Hx.
  - destruct (plain_parts s Hx) as [Hnl Ha]. repeat split; [assumption| |]; apply Ha; simpl; tauto.
  - piece_facts. repeat split; [now rewrite !no_line_end_app, Hnl| |]; absent_pieces.
  - piece_facts. repeat split; [now rewrite !no_line_end_app, Hnl| |]; absent_pieces.
  - piece_facts. repeat split; [now rewrite !no_line_end_app, Hnl| |]; absent_pieces.
  - piece_facts. repeat split; [now rewrite !no_line_end_app, Hnl| |]; absent_pieces.
  - piece_facts.
    repeat split; [now rewrite !no_line_end_app, Hnl, Hnl0| |]; absent_pieces.
Qed.

Lemma piece_html_facts x :
  piece_ok plain_text x -> no_line_end (inline_html x) = true.
Proof.
  destruct x as [s|t|t|t|t|t u]; cbn [piece_ok markup_ok inline_html]; intros Hx.
  - now apply plain_no_line_end.
  - piece_facts. now rewrite !no_line_end_app, Hnl.
  - piece_facts. now rewrite !no_line_end_app, Hnl.
  - piece_facts. now rewrite !no_line_end_app, Hnl.
  - piece_facts. now rewrite !no_line_end_app, Hnl.
  - piece_facts. now rewrite !no_line_end_app, Hnl, Hnl0.
Qed.

Lemma raw_content xs : pieces_ok plain_text xs -> content_ok (rich_text inline_source xs).
Proof.
  induction xs as [|x xs IH]; [now repeat split|]. intros (Hx & _ & Hxs).
  destruct (piece_source_facts x Hx) as (H1 & H2 & H3).
  destruct (IH Hxs) as (I1 & I2 & I3).
  unfold rich_text, content_ok in *. cbn [map concat].
  now rewrite no_line_end_app, !absent_app, H1, H2, H3, I1, I2, I3.
Qed.

Lemma cooked_no_line_end xs :
  pieces_ok plain_text xs -> no_line_end (rich_text inline_html xs) = true.
Proof.
  induction xs as [|x xs IH]; [reflexivity|]. intros (Hx & _ & Hxs).
  unfold rich_text in *. cbn [map concat].
  now rewrite no_line_end_app, (piece_html_facts x Hx), IH.
Qed.

Lemma ordinary_opens p rest :
  ordinary_line p = true -> opens_text (p ++ rest).
Proof.
  intros Hp. destruct (ordinary_parts p Hp) as (c & r & -> & Hpl & Hs & H45 & Hd).
  cbn [app opens_text]. repeat split; try assumption;
    apply (plain_not_char (c :: r) c r); try assumption; try reflexivity; simpl; tauto.
Qed.

Lemma raw_line_ok r : rich_line_ok r -> block_line_ok (raw_line r).
Proof.
  destruct r as [xs|lv h xs|xs]; cbn [rich_line_ok raw_line with_text block_line_ok].
  - intros (Hfirst & Hxs). split; [|now apply raw_content].
    destruct xs as [|[p| | | | |] xs]; try contradiction.
    unfold rich_text. cbn [map concat inline_source]. now apply ordinary_opens.
  - intros (Hin & Hxs). split; [assumption|now apply raw_content].
  - apply raw_content.
Qed.

Lemma cooked_line_ok r : rich_line_ok r -> shown_ok (cooked_line r).
Proof.
  destruct r as [xs|lv h xs|xs]; cbn [rich_line_ok cooked_line with_text shown_ok].
  - intros (Hfirst & Hxs). split; [|now apply cooked_no_line_end].
    destruct xs as [|[p| | | | |] xs]; try contradiction.
    unfold rich_text. cbn [map concat inline_html]. now apply ordinary_opens.
  - intros (Hin & Hxs). split; [assumption|now apply cooked_no_line_end].
  - apply cooked_no_line_end.
Qed.

Lemma rich_text_wrapped f a xs b :
  (forall s, f (Plain s) = s) ->
  rich_text f (Plain a :: xs ++ [Plain b]) = a ++ rich_text f xs ++ b.
Proof.
  intros Hf. unfold rich_text. cbn [map concat]. rewrite map_app, concat_app.
  cbn [map concat]. now rewrite !Hf, app_nil_r.
Qed.

Lemma heading_html_wrapped level t :
  heading_html level t = (str "<h" ++ str level ++ [62]) ++ t ++ (str "</h" ++ str level ++ [62]).
Proof. unfold heading_html. rewrite <- !app_assoc. reflexivity. Qed.

(** The pieces of a line make the line, at each of the three stages. *)
Lemma stage_pieces_headed r :
  rich_line_ok r ->
  rich_text (inline_after 0) (stage_pieces false r) = line_after 6 (raw_line r).
Proof.
  destruct r as [xs|lv h xs|xs]; cbn [rich_line_ok stage_pieces raw_line with_text].
  - intros _. cbn [line_after]. apply rich_text_ext, inline_after_source.
  - intros (Hin & _). rewrite (line_after_all lv h _ Hin), heading_html_wrapped.
    rewrite rich_text_wrapped by reflexivity.
    now rewrite (rich_text_ext _ _ xs inline_after_source).
  - intros _. cbn [line_after]. unfold quote_line, rich_text. cbn [map concat].
    f_equal. f_equal. apply map_ext, inline_after_source.
Qed.

Lemma stage_pieces_raw r :
  rich_text (inline_after 0) (stage_pieces true r) = line_html (raw_line r).
Proof.
  destruct r as [xs|lv h xs|xs]; cbn [stage_pieces raw_line with_text line_html].
  - apply rich_text_ext, inline_after_source.
  - rewrite heading_html_wrapped, rich_text_wrapped by reflexivity.
    now rewrite (rich_text_ext _ _ xs inline_after_source).
  - unfold quote_html. rewrite rich_text_wrapped by reflexivity.
    now rewrite (rich_text_ext _ _ xs inline_after_source).
Qed.

Lemma stage_pieces_cooked r :
  rich_text (inline_after 5) (stage_pieces true r) = line_html (cooked_line r).
Proof.
  destruct r as [xs|lv h xs|xs]; cbn [stage_pieces cooked_line with_text line_html].
  - apply rich_text_ext, inline_after_html.
  - rewrite heading_html_wrapped, rich_text_wrapped by reflexivity.
    now rewrite (rich_text_ext _ _ xs inline_after_html).
  - unfold quote_html. rewrite rich_text_wrapped by reflexivity.
    now rewrite (rich_text_ext _ _ xs inline_after_html).
Qed.

Lemma pieces_wrapped a xs b :
  inert a -> inert b -> b <> [] -> pieces_ok inert xs ->
  pieces_ok inert (Plain a :: xs ++ [Plain b]).
Proof.
  intros Ha Hb Hne Hxs. change (piece_ok inert (Plain a) /\
    (is_span (Plain a) -> opens_plain (xs ++ [Plain b])) /\ pieces_ok inert (xs ++ [Plain b])).
  split; [exact Ha|]. split; [intros []|].
  apply pieces_ok_app; [assumption| |].
  - split; [exact Hb|]. split; [intros []|exact I].
  - destruct b; [contradiction|exact I].
Qed.

Lemma stage_pieces_ok quoted r : rich_line_ok r -> pieces_ok inert (stage_pieces quoted r).
Proof.
  assert (W : forall xs, pieces_ok plain_text xs -> pieces_ok inert xs)
    by (intros xs; apply pieces_ok_weaken; exact plain_inert).
  destruct r as [xs|lv h xs|xs]; cbn [rich_line_ok stage_pieces].
  - intros (_ & Hxs). now apply W.
  - intros (Hin & Hxs). apply W in Hxs.
    heading_cases Hin; apply pieces_wrapped; try assumption; try discriminate;
      repeat split.
  - intros Hxs. apply W in Hxs. destruct quoted.
    + apply pieces_wrapped; try assumption; try discriminate; repeat split.
    + split; [repeat split|]. split; [intros []|assumption].
Qed.

Lemma rows_pieces_text f pcs rows :
  (forall s, f (Plain s) = s) ->
  rich_text f (rows_pieces pcs rows)
  = lines (map (row_text (fun r => rich_text f (pcs r))) rows).
Proof.
  intros Hf. induction rows as [|o rows IH]; [reflexivity|].
  assert (R : rich_text f (row_text pcs o) = row_text (fun r => rich_text f (pcs r)) o)
    by (now destruct o).
  destruct rows as [|o' rows].
  - cbn [rows_pieces map lines]. exact R.
  - change (rows_pieces pcs (o :: o' :: rows))
      with (row_text pcs o ++ Plain [cNL] :: rows_pieces pcs (o' :: rows)).
    rewrite rich_text_app, R.
    change (rich_text f (Plain [cNL] :: rows_pieces pcs (o' :: rows)))
      with (f (Plain [cNL]) ++ rich_text f (rows_pieces pcs (o' :: rows))).
    rewrite Hf, IH. reflexivity.
Qed.

Lemma rows_pieces_ok pcs rows :
  (forall r, rich_line_ok r -> pieces_ok inert (pcs r)) ->
  Forall (row_ok rich_line_ok) rows -> pieces_ok inert (rows_pieces pcs rows).
Proof.
  intros Hp Hall. induction Hall as [|o rows Ho _ IH]; [exact I|].
  assert (R : pieces_ok inert (row_text pcs o)) by (destruct o; [now apply Hp|exact I]).
  destruct rows as [|o' rows]; [exact R|].
  change (rows_pieces pcs (o :: o' :: rows))
    with (row_text pcs o ++ Plain [cNL] :: rows_pieces pcs (o' :: rows)).
  apply pieces_ok_app; [assumption| |exact I].
  split; [repeat split|]. split; [intros []|assumption].
Qed.

Lemma map_rows_map {T U : Type} (g : T -> U) (f : U -> jsstring) rows :
  map (row_text f) (map (option_map g) rows) = map (row_text (fun x => f (g x))) rows.
Proof. rewrite map_map. apply map_ext. now intros [x|]. Qed.

Lemma rows_ok_map {T U : Type} (g : T -> U) (P : T -> Prop) (Q : U -> Prop) rows :
  (forall x, P x -> Q (g x)) -> Forall (row_ok P) rows ->
  Forall (row_ok Q) (map (option_map g) rows).
Proof.
  intros H Hall. apply Forall_map. eapply Forall_impl; [|exact Hall].
  intros [x|]; [apply H|easy].
Qed.

Lemma doc_text_map {T U : Type} (g : T -> U) (f : U -> jsstring) first rest :
  doc_text (fun x => f (g x)) first rest
  = doc_text f (map g first) (map (fun p => (fst p, map g (snd p))) rest).
Proof.
  unfold doc_text. rewrite map_map. f_equal.
  induction rest as [|[n b] rest IH]; [reflexivity|].
  cbn [flat_map map fst snd]. now rewrite IH, map_map.
Qed.

Lemma block_of_map {T U : Type} (g : T -> U) (P : T -> Prop) (Q : U -> Prop) ls :
  (forall x, P x -> Q (g x)) -> block_of P ls -> block_of Q (map g ls).
Proof.
  intros H [Hne Hall]. split; [destruct ls; [contradiction|discriminate]|].
  apply Forall_map. eapply Forall_impl; [|exact Hall]. exact H.
Qed.

(** The converter on a document of paragraphs, headings and quotations
    with inline markup. *)
Lemma convert_rich_doc first rest :
  block_of rich_line_ok first -> Forall (fun p => block_of rich_line_ok (snd p)) rest ->
  markdownToHTML (doc_text rich_source first rest) = rich_doc_html first rest.
Proof.
  intros Hf Hrest.
  destruct (doc_rows_ok rich_line_ok first rest Hf Hrest) as (Hall & Hne & Hnes).
  set (rows := doc_rows first rest) in *.
  assert (HR : Forall (row_ok block_line_ok) (map (option_map raw_line) rows))
    by (apply (rows_ok_map raw_line rich_line_ok); [exact raw_line_ok|exact Hall]).
  assert (HRne : map (option_map raw_line) rows <> [])
    by (destruct rows; [contradiction|discriminate]).
  rewrite (doc_text_rows rich_source first rest (proj1 Hf) Hnes). fold rows.
  unfold rich_source. rewrite <- (map_rows_map raw_line line_source).
  unfold markdownToHTML, block_rules, inline_rules, list_rules.
  rewrite (headings_rows _ HR HRne).
  assert (E1 : lines (map (row_text (line_after 6)) (map (option_map raw_line) rows))
               = rich_text (inline_after 0) (rows_pieces (stage_pieces false) rows)).
  { rewrite rows_pieces_text by reflexivity. rewrite map_rows_map. f_equal.
    clear - Hall. induction Hall as [|o rows Ho _ IH]; [reflexivity|].
    cbn [map]. rewrite IH. f_equal. destruct o as [r|]; [|reflexivity].
    cbn [row_text]. symmetry. now apply stage_pieces_headed. }
  rewrite E1, fences_pieces, <- E1
    by (apply rows_pieces_ok; [intros r; apply stage_pieces_ok|exact Hall]).
  rewrite (tables_absent _ (absent_rows (line_after 6) _ cPipe absent_bar_line eq_refl HR)).
  rewrite (blockquotes_rows _ HR HRne).
  destruct (item_rules_rows _ HR HRne) as [U O]. rewrite U, O.
  destruct (merge_rules_rows _ HR) as [M1 M2]. rewrite M1, M2.
  fold (inline_rules (lines (map (row_text line_html) (map (option_map raw_line) rows)))).
  assert (E2 : lines (map (row_text line_html) (map (option_map raw_line) rows))
               = rich_text (inline_after 0) (rows_pieces (stage_pieces true) rows)).
  { rewrite rows_pieces_text by reflexivity. rewrite map_rows_map. f_equal.
    apply map_ext. intros [r|]; [|reflexivity]. cbn [row_text]. symmetry.
    apply stage_pieces_raw. }
  rewrite E2, inline_rules_pieces
    by (apply rows_pieces_ok; [intros r; apply stage_pieces_ok|exact Hall]).
  rewrite rows_pieces_text by reflexivity.
  assert (E3 : map (row_text (fun r => rich_text (inline_after 5) (stage_pieces true r))) rows
               = map (row_text (fun r => line_html (cooked_line r))) rows).
  { apply map_ext. intros [r|]; [|reflexivity]. cbn [row_text]. apply stage_pieces_cooked. }
  rewrite E3. unfold rows.
  rewrite <- (doc_text_rows (fun r => line_html (cooked_line r)) first rest (proj1 Hf) Hnes).
  rewrite (doc_text_map cooked_line line_html).
  rewrite paragraphs_doc.
  - unfold doc_html, rich_doc_html. f_equal.
    clear. induction rest as [|[n b] rest IH]; [reflexivity|].
    cbn [map flat_map snd]. now rewrite IH.
  - apply (block_of_map cooked_line rich_line_ok); [exact cooked_line_ok|exact Hf].
  - apply Forall_map. eapply Forall_impl; [|exact Hrest].
    intros [n b] Hb. cbn [snd] in *.
    apply (block_of_map cooked_line rich_line_ok); [exact cooked_line_ok|exact Hb].
Qed.

(** ** Formulas *)

Lemma match_inline bef body rest :
  body <> [] -> absent cDollar body = true ->
  match_at Re.math bef ([36] ++ body ++ [36] ++ rest)
  = Some (mkState (rev ([36] ++ body ++ [36]) ++ bef) rest
            [(1%nat, [36] ++ body ++ [36])]).
Proof.
  intros Hne Hb. unfold match_at, Re.math. cbn [source multiline].
  destruct body as [|b0 body']; [contradiction|].
  assert (Hb0 : (b0 =? 36) = false).
  { apply (absent_in cDollar (b0 :: body')); [assumption|now left]. }
  rewrite m_group, m_alt.
  change (lit "$$") with (fold_right (fun a r => Seq (Char a) r) Empty [36; 36]).
  cbn [fold_right app].
  rewrite !m_seq, m_char, N.eqb_refl, m_seq, m_char, Hb0.
  cbn [or_else].
  unfold Ch. change (N_of_ascii "$") with 36.
  rewrite m_char, N.eqb_refl, m_seq. unfold lazy_star.
  rewrite (m_lazy_star_all false any _ _ _ _ _ eq_refl) by apply forallb_any.
  match goal with
  | |- lazy_try ?c _ _ _ _ = _ =>
      pose proof (lazy_try_skip c (b0 :: body') (36 :: bef) (36 :: rest) [] []) as L
  end.
  cbn [app] in L. rewrite L; clear L.
  2:{ intros p a q E. rewrite m_char.
      rewrite (absent_in cDollar (b0 :: body')); [reflexivity|assumption|].
      rewrite E. apply in_or_app. right. now left. }
  apply lazy_try_now. rewrite app_nil_r, m_char, N.eqb_refl. cbn [before after caps].
  replace (36 :: b0 :: body' ++ 36 :: rest) with ((36 :: b0 :: body' ++ [36]) ++ rest)
    by (cbn [app]; rewrite <- app_assoc; reflexivity).
  rewrite consumed_app. f_equal. f_equal.
  repeat (rewrite ?rev_app_distr; simpl rev; rewrite <- ?app_assoc; simpl app).
  reflexivity.
Qed.

Lemma match_span sp bef rest :
  span_ok sp ->
  match_at Re.math bef (span_text sp ++ rest)
  = Some (mkState (rev (span_text sp) ++ bef) rest [(1%nat, span_text sp)]).
Proof.
  destruct sp as [body|body]; cbn [span_ok span_text].
  - intros [Hne Hb]. rewrite <- !app_assoc. now apply match_inline.
  - intros Hb. rewrite <- !app_assoc. now apply match_display.
Qed.

Lemma math_first bef a aft :
  (a =? 36) = false ->
  first_ok (multiline Re.math) (source Re.math) (mkState bef (a :: aft) []) = false.
Proof. intros Ha. cbn. now rewrite Ha. Qed.

(** The extraction on a text with formulas, from any state of the array
    of formulas. *)
Lemma scan_math segs tail : forall mathBlocks bef,
  Forall seg_ok segs -> absent cDollar tail = true ->
  replace_scan Re.math shield mathBlocks bef (math_source segs tail) 0
  = (mathBlocks ++ map (fun seg => span_text (snd seg)) segs,
     shielded (length mathBlocks) segs tail).
Proof.
  induction segs as [|[t sp] segs IH]; intros mathBlocks bef Hall Htail.
  - cbn [math_source shielded map]. rewrite app_nil_r.
    apply scan_quiet_all.
    + apply (quiet_absent _ cDollar); [intros; now apply math_first|assumption].
    + apply match_at_first. reflexivity.
  - inversion Hall as [|? ? [Ht Hsp] Hsegs]; subst. cbn [fst snd] in Ht, Hsp.
    cbn [math_source shielded map snd].
    rewrite scan_quiet
      by (apply (quiet_absent _ cDollar); [intros; now apply math_first|assumption]).
    assert (Hne : span_text sp <> []) by (destruct sp; discriminate).
    rewrite (scan_hit Re.math shield _ _ _ _ _ Hne (match_span sp _ _ Hsp) eq_refl).
    cbv zeta. cbn [shield fst snd].
    rewrite IH by assumption.
    cbn [fst snd]. rewrite length_app. cbn [length]. rewrite Nat.add_1_r.
    now rewrite <- app_assoc.
Qed.

Lemma extract_formulas segs tail :
  Forall seg_ok segs -> absent cDollar tail = true ->
  extract (math_source segs tail)
  = (shielded 0 segs tail, map (fun seg => span_text (snd seg)) segs).
Proof.
  intros Hall Htail. unfold extract, replace_with.
  now rewrite (scan_math segs tail [] [] Hall Htail).
Qed.

Lemma get_substitution_text matched pre post t rest :
  absent 36 t = true ->
  get_substitution matched pre post [] (t ++ rest)
  = t ++ get_substitution matched pre post [] rest.
Proof.
  induction t as [|c t IH]; intros H; [reflexivity|].
  unfold absent in H. cbn [existsb] in H. rewrite negb_orb in H.
  apply andb_prop in H as [Hc Ht].
  cbn [app get_substitution]. rewrite N.eqb_sym in Hc. rewrite Hc. f_equal. now apply IH.
Qed.

Lemma get_substitution_literal matched pre post c rest :
  (c =? 36) = false -> (c =? 96) = false -> (c =? 38) = false -> (c =? 39) = false ->
  get_substitution matched pre post [] (36 :: c :: rest)
  = 36 :: c :: get_substitution matched pre post [] rest.
Proof.
  intros H36 H96 H38 H39.
  cbn [get_substitution]. cbn [N.eqb negb Pos.eqb]. rewrite H36, H96, H38, H39.
  assert (A : forall n, ((1 <=? n)%nat && (n <=? 0)%nat) = false) by (now intros [|n]).
  destruct (is_digit c) eqn:Ed; [|reflexivity].
  cbn [length]. rewrite A.
  destruct rest as [|d2 rest]; [reflexivity|].
  destruct (is_digit d2) eqn:Ed2; [|reflexivity]. cbn [andb].
  destruct (10 * digit_value c + digit_value d2 <=? 0)%nat eqn:E0; [|reflexivity].
  apply Nat.leb_le in E0.
  replace (1 <=? 10 * digit_value c + digit_value d2)%nat with false
    by (symmetry; apply Nat.leb_gt; lia).
  cbn [get_substitution].
  replace (d2 =? 36) with false; [reflexivity|].
  symmetry. clear - Ed2. char_facts.
Qed.

(** The replacement string of a formula expands to the body between
    single dollars. *)
Lemma get_substitution_span matched pre post sp :
  span_fine sp ->
  get_substitution matched pre post [] (span_text sp) = span_shown sp.
Proof.
  intros (Hok & _ & Hfirst). destruct sp as [body|body]; cbn [span_ok span_text span_shown] in *.
  - destruct Hok as [Hne Hb]. destruct body as [|c body]; [contradiction|].
    destruct Hfirst as (H38 & H96 & H39).
    assert (Hc : (c =? 36) = false) by (apply (absent_in cDollar (c :: body)); [assumption|now left]).
    assert (Hb' : absent 36 body = true).
    { unfold cDollar, absent in *. cbn [existsb] in Hb. rewrite negb_orb in Hb.
      now apply andb_prop in Hb as [_ Hb]. }
    cbn [app]. rewrite get_substitution_literal by assumption.
    now rewrite get_substitution_text.
  - cbn [app]. cbn [get_substitution]. cbn [N.eqb negb Pos.eqb].
    rewrite get_substitution_text by exact Hok. reflexivity.
Qed.

Lemma token_head i : exists r, token i = 95 :: 95 :: 95 :: 77 :: r.
Proof. eexists. reflexivity. Qed.

Lemma is_prefix_self p r : is_prefix p (p ++ r) = true.
Proof. induction p as [|a p IH]; [reflexivity|]. simpl. now rewrite N.eqb_refl. Qed.

Lemma skipn_self (p r : jsstring) : skipn (length p) (p ++ r) = r.
Proof. induction p as [|a p IH]; [reflexivity|exact IH]. Qed.

Lemma calm_tail c s : calm (c :: s) = true -> calm s = true.
Proof.
  unfold calm. cbn [includes]. rewrite negb_orb. intros H.
  now apply andb_prop in H as [_ H].
Qed.

Lemma calm_head c d e s :
  calm (c :: d :: e :: s) = true -> (95 =? c) && ((95 =? d) && (95 =? e)) = false.
Proof.
  unfold calm. cbn [includes]. rewrite negb_orb. intros H.
  apply andb_prop in H as [H _]. apply negb_true_iff in H.
  cbn [is_prefix str list_ascii_of_string map] in H.
  change (N_of_ascii "_") with 95 in H. now rewrite andb_true_r in H.
Qed.

Lemma ends_calm_tail c s : ends_calm (c :: s) = true -> ends_calm s = true.
Proof. destruct s; [reflexivity|exact (fun H => H)]. Qed.

(** No token starts inside a calm text, whatever follows the text. *)
Lemma no_token_at i c s r :
  calm (c :: s) = true -> is_prefix (token i) (c :: s ++ token i ++ r) = false.
Proof.
  intros Hc. destruct (token_head i) as [tl ->].
  destruct s as [|d [|e s]]; cbn [app is_prefix].
  - destruct (95 =? c); [|reflexivity]. cbn [andb].
    change (77 =? 95) with false. now rewrite !andb_false_r.
  - destruct (95 =? c); [|reflexivity]. destruct (95 =? d); [|reflexivity]. cbn [andb].
    change (77 =? 95) with false. now rewrite !andb_false_r.
  - pose proof (calm_head c d e _ Hc) as H.
    destruct (95 =? c); [|reflexivity]. destruct (95 =? d); [|reflexivity].
    destruct (95 =? e); [discriminate H|reflexivity].
Qed.

(** The first token of an index behind a calm text is found where it
    stands. *)
Lemma find_first_token i s r : forall pre,
  calm s = true ->
  find_first (token i) pre (s ++ token i ++ r) = Some (rev pre ++ s, r).
Proof.
  induction s as [|c s IH]; intros pre Hs.
  - cbn [app]. destruct (token i ++ r) eqn:E.
    + destruct (token_head i) as [tl Et]. rewrite Et in E. discriminate E.
    + rewrite <- E. unfold find_first.
      destruct (token i ++ r) eqn:E'; [discriminate E|]. rewrite <- E'.
      rewrite is_prefix_self, skipn_self, app_nil_r. reflexivity.
  - cbn [app find_first]. rewrite (no_token_at i c s r Hs).
    rewrite (IH (c :: pre) (calm_tail c s Hs)). cbn [rev]. now rewrite <- app_assoc.
Qed.

Lemma calm_app s t :
  calm s = true -> ends_calm s = true -> calm t = true -> calm (s ++ t) = true.
Proof.
  intros Hs He Ht. induction s as [|c s IH]; [exact Ht|].
  pose proof (IH (calm_tail c s Hs) (ends_calm_tail c s He)) as IH'.
  unfold calm in *. cbn [app includes]. rewrite negb_orb.
  apply negb_true_iff in IH'. rewrite IH'. rewrite andb_true_r. apply negb_true_iff.
  cbn [is_prefix str list_ascii_of_string map]. change (N_of_ascii "_") with 95.
  unfold ends_calm in He.
  destruct s as [|d [|e s]]; cbn [app last] in *.
  - apply negb_true_iff in He. rewrite N.eqb_sym, He. reflexivity.
  - apply negb_true_iff in He. rewrite (N.eqb_sym 95 d), He. now rewrite andb_false_r.
  - pose proof (calm_head c d e s) as H. unfold calm in H.
    rewrite andb_true_r. apply H. exact Hs.
Qed.

Lemma calm_app_head s c t :
  calm s = true -> (c =? 95) = false -> calm (c :: t) = true -> calm (s ++ c :: t) = true.
Proof.
  intros Hs Hc Ht. induction s as [|a s IH]; [exact Ht|].
  pose proof (IH (calm_tail a s Hs)) as IH'.
  unfold calm in *. cbn [app includes]. rewrite negb_orb.
  apply negb_true_iff in IH'. rewrite IH'. rewrite andb_true_r. apply negb_true_iff.
  cbn [is_prefix str list_ascii_of_string map]. change (N_of_ascii "_") with 95.
  rewrite N.eqb_sym in Hc.
  destruct s as [|d [|e s]]; cbn [app].
  - rewrite Hc. now rewrite andb_false_r.
  - rewrite Hc. now rewrite !andb_false_r.
  - rewrite andb_true_r. apply (calm_head a d e s). exact Hs.
Qed.

Lemma calm_span sp : span_fine sp -> calm (span_shown sp) = true.
Proof.
  intros (_ & Hb & _).
  assert (G : forall b, calm b = true -> calm ([36] ++ b ++ [36]) = true).
  { intros b Hb'. apply (calm_app [36]); [reflexivity|reflexivity|].
    clear - Hb'. induction b as [|c b IH]; [reflexivity|].
    pose proof (IH (calm_tail c b Hb')) as IH'.
    unfold calm in *. cbn [app includes]. rewrite negb_orb.
    apply negb_true_iff in IH'. rewrite IH'. rewrite andb_true_r. apply negb_true_iff.
    cbn [is_prefix str list_ascii_of_string map]. change (N_of_ascii "_") with 95.
    destruct b as [|d [|e b]]; cbn [app].
    - destruct (95 =? c); reflexivity.
    - destruct (95 =? c); [|reflexivity]. destruct (95 =? d); reflexivity.
    - rewrite andb_true_r. apply (calm_head c d e b). exact Hb'. }
  destruct sp as [b|b]; cbn [span_shown span_body] in *; now apply G.
Qed.

Lemma ends_calm_span s sp : ends_calm (s ++ span_shown sp) = true.
Proof.
  assert (G : forall b, ends_calm (s ++ [36] ++ b ++ [36]) = true).
  { intros b. unfold ends_calm.
    replace (s ++ [36] ++ b ++ [36]) with ((s ++ [36] ++ b) ++ [36])
      by (now rewrite <- !app_assoc).
    now rewrite last_last. }
  destruct sp; apply G.
Qed.

(** The restoration puts every formula where its token stands. *)
Lemma restore_formulas segs : forall i s tail,
  Forall seg_fine segs -> calm s = true -> ends_calm s = true ->
  restore_from i (map (fun seg => span_text (snd seg)) segs) (s ++ shielded i segs tail)
  = s ++ math_shown segs tail.
Proof.
  induction segs as [|[t sp] segs IH]; intros i s tail Hall Hs He; [reflexivity|].
  inversion Hall as [|? ? (Ht & Hct & Hsp) Hsegs]; subst. cbn [fst snd] in *.
  cbn [restore_from map shielded math_shown snd].
  unfold replace_string.
  rewrite app_assoc, (find_first_token i (s ++ t) _ [] (calm_app s t Hs He Hct)).
  cbn [rev app]. rewrite (get_substitution_span _ _ _ sp Hsp).
  replace ((s ++ t) ++ span_shown sp ++ shielded (S i) segs tail)
    with ((s ++ t ++ span_shown sp) ++ shielded (S i) segs tail)
    by (now rewrite <- !app_assoc).
  rewrite IH; [now rewrite <- !app_assoc|assumption| |].
  - apply calm_app; [assumption|assumption|].
    pose proof (calm_span sp Hsp) as Hcs.
    destruct sp as [b|b]; cbn [span_shown app] in *; now apply calm_app_head.
  - rewrite app_assoc. apply ends_calm_span.
Qed.

Lemma trim_start_app l b y :
  is_space b = false -> trim_start (l ++ b :: y) = trim_start l ++ b :: y.
Proof.
  intros Hb. induction l as [|c l IH]; simpl.
  - now rewrite Hb.
  - destruct (is_space c); [exact IH|reflexivity].
Qed.

(** [trim] of a text that opens with a code unit other than white space
    cuts the white space behind the last such code unit. *)
Lemma trim_tail a p b s :
  is_space a = false -> is_space b = false ->
  trim (a :: p ++ b :: s) = a :: p ++ b :: trim_end s.
Proof.
  intros Ha Hb. unfold trim. rewrite trim_start_keep by assumption.
  unfold trim_end.
  change (a :: p ++ b :: s) with ((a :: p) ++ b :: s).
  remember (a :: p) as x eqn:Ex.
  change (x ++ b :: s) with (x ++ [b] ++ s).
  rewrite !rev_app_distr, <- app_assoc. change (rev [b] ++ rev x) with (b :: rev x).
  rewrite trim_start_app by assumption.
  change (trim_start (rev s) ++ b :: rev x) with (trim_start (rev s) ++ [b] ++ rev x).
  rewrite !rev_app_distr, rev_involutive, <- app_assoc. now subst x.
Qed.

Lemma flat_map_line_break s : absent cNL s = true -> flat_map line_break s = s.
Proof.
  induction s as [|c s IH]; intros H; [reflexivity|].
  unfold absent in H. cbn [existsb] in H. rewrite negb_orb in H.
  apply andb_prop in H as [Hc Hs]. apply negb_true_iff in Hc.
  cbn [flat_map]. unfold line_break at 1. rewrite N.eqb_sym, Hc.
  cbn [app]. f_equal. now apply IH.
Qed.

(** A line of ordinary text is one paragraph. *)
Lemma convert_line l :
  ordinary_line l = true -> markdownToHTML l = str "<p>" ++ trim l ++ str "</p>".
Proof.
  intros Hl.
  assert (Hp : plain l = true) by (now destruct (ordinary_parts l Hl) as (c & r & _ & Hp & _)).
  assert (Hb : block_of rich_line_ok [RText [Plain l]]).
  { split; [discriminate|]. constructor; [|constructor].
    split; [exact Hl|]. split; [exact Hp|]. split; [intros []|exact I]. }
  pose proof (convert_rich_doc [RText [Plain l]] [] Hb (Forall_nil _)) as C.
  unfold doc_text, rich_doc_html, rich_source, raw_line, cooked_line in C.
  cbn [map lines flat_map line_source with_text block_html line_html] in C.
  unfold rich_text in C. cbn [map concat inline_source inline_html] in C.
  rewrite !app_nil_r in C. rewrite C. f_equal. f_equal.
  apply flat_map_line_break.
  destruct (ordinary_parts l Hl) as (c & r & -> & _ & Hs & _).
  destruct (trim_cons c r Hs) as (s1 & s2 & E & T). rewrite T.
  apply no_line_end_absent. apply plain_no_line_end in Hp.
  rewrite E in Hp. change (c :: s1 ++ s2) with ((c :: s1) ++ s2) in Hp.
  rewrite no_line_end_app in Hp. now apply andb_prop in Hp as [Hp _].
Qed.

Lemma shielded_app segs : forall i tail z,
  shielded i segs (tail ++ z) = shielded i segs tail ++ z.
Proof.
  induction segs as [|[t sp] segs IH]; intros i tail z; [reflexivity|].
  cbn [shielded]. now rewrite IH, <- !app_assoc.
Qed.

Lemma math_shown_app segs : forall tail z,
  math_shown segs (tail ++ z) = math_shown segs tail ++ z.
Proof.
  induction segs as [|[t sp] segs IH]; intros tail z; [reflexivity|].
  cbn [math_shown]. now rewrite IH, <- !app_assoc.
Qed.

Lemma token_last i : exists z, token i = (95 :: z) ++ [95].
Proof.
  unfold token. change placeholder with (str "___MATHJAX_PLACEHOLDER__" ++ [95]).
  eexists. rewrite !app_assoc. reflexivity.
Qed.

(** A shielded text with a formula ends with the token of the last
    formula, up to the last stretch of text. *)
Lemma shielded_last segs : forall i,
  segs <> [] -> exists c z, forall tail, shielded i segs tail = (c :: z) ++ 95 :: tail.
Proof.
  induction segs as [|[t sp] segs IH]; intros i Hne; [contradiction|].
  destruct segs as [|seg segs].
  - destruct (token_last i) as [z Ez]. cbn [shielded]. rewrite Ez.
    destruct t as [|c t].
    + exists 95, z. intros tail. cbn [app]. now rewrite <- app_assoc.
    + exists c, (t ++ 95 :: z). intros tail. cbn [app]. now rewrite <- !app_assoc.
  - destruct (IH (S i) ltac:(discriminate)) as (c & z & E).
    destruct (token_head i) as [tl Et].
    destruct t as [|c' t].
    + exists 95, (95 :: 95 :: 77 :: tl ++ c :: z). intros tail.
      change (shielded i (([], sp) :: seg :: segs) tail)
        with (token i ++ shielded (S i) (seg :: segs) tail).
      rewrite (E tail), Et. cbn [app]. now rewrite <- !app_assoc.
    + exists c', (t ++ token i ++ c :: z). intros tail.
      change (shielded i ((c' :: t, sp) :: seg :: segs) tail)
        with ((c' :: t) ++ token i ++ shielded (S i) (seg :: segs) tail).
      rewrite (E tail). cbn [app]. now rewrite <- !app_assoc.
Qed.

Lemma seg_fine_ok seg : seg_fine seg -> seg_ok seg.
Proof. intros (Ht & _ & Hok & _). now split. Qed.

Lemma math_source_ne segs tail : segs <> [] -> Forall seg_ok segs -> math_source segs tail <> [].
Proof.
  intros Hne Hall. destruct segs as [|[t sp] segs]; [contradiction|].
  cbn [math_source]. destruct t; [|discriminate]. destruct sp; discriminate.
Qed.

(** A message of one line with formulas: the markup is the paragraph
    with every formula between single dollars. *)
Lemma render_formulas segs tail :
  segs <> [] -> Forall seg_fine segs -> absent cDollar tail = true ->
  ordinary_line (shielded 0 segs tail) = true ->
  renderContent (math_source segs tail)
  = Some (str "<p>" ++ math_shown segs (trim_end tail) ++ str "</p>").
Proof.
  intros Hne Hall Htail Hline.
  assert (Hok : Forall seg_ok segs)
    by (eapply Forall_impl; [|exact Hall]; apply seg_fine_ok).
  unfold renderContent.
  destruct (math_source segs tail) eqn:E; [now apply math_source_ne in E|]. rewrite <- E.
  rewrite (extract_formulas segs tail Hok Htail).
  rewrite (convert_line _ Hline).
  destruct (shielded_last segs 0 Hne) as (c & z & S).
  assert (T : trim (shielded 0 segs tail) = shielded 0 segs (trim_end tail)).
  { rewrite !S. cbn [app]. apply trim_tail; [|reflexivity].
    destruct (ordinary_parts _ Hline) as (c' & r' & E' & _ & Hs & _).
    rewrite S in E'. cbn [app] in E'. injection E' as -> _. exact Hs. }
  rewrite T. unfold restore. rewrite <- shielded_app.
  rewrite (restore_formulas segs 0 (str "<p>") _ Hall eq_refl eq_refl).
  now rewrite math_shown_app.
Qed.

(** ** The callback of the table rule *)

Lemma split_on_absent sep s : absent sep s = true -> split_on sep s = [s].
Proof.
  induction s as [|c s IH]; intros H; [reflexivity|].
  unfold absent in H. cbn [existsb] in H. rewrite negb_orb in H.
  apply andb_prop in H as [Hc Hs]. apply negb_true_iff in Hc.
  cbn [split_on]. rewrite N.eqb_sym, Hc. now rewrite (IH Hs).
Qed.

Lemma split_on_app sep s t :
  absent sep s = true -> split_on sep (s ++ sep :: t) = s :: split_on sep t.
Proof.
  induction s as [|c s IH]; intros H.
  - cbn [app split_on]. now rewrite N.eqb_refl.
  - unfold absent in H. cbn [existsb] in H. rewrite negb_orb in H.
    apply andb_prop in H as [Hc Hs]. apply negb_true_iff in Hc.
    cbn [app split_on]. rewrite N.eqb_sym, Hc. now rewrite (IH Hs).
Qed.

(** [split] undoes the joining of cells that do not hold the separator. *)
Lemma split_join sep cells :
  cells <> [] -> Forall (fun c => absent sep c = true) cells ->
  split_on sep (join_char sep cells) = cells.
Proof.
  intros Hne Hall. induction cells as [|c cells IH]; [contradiction|].
  inversion Hall as [|? ? Hc Hcs]; subst.
  destruct cells as [|c' cells].
  - now apply split_on_absent.
  - change (join_char sep (c :: c' :: cells)) with (c ++ sep :: join_char sep (c' :: cells)).
    rewrite split_on_app by assumption. f_equal. apply IH; [discriminate|assumption].
Qed.

(** [slice(1, -1)] drops the first and the last element. *)
Lemma array_slice_middle {A} (l : list A) : array_slice 1 (-1) l = removelast (tl l).
Proof.
  unfold array_slice. cbn [Z.ltb Z.compare].
  destruct l as [|a l]; [reflexivity|].
  cbn [tl length]. rewrite removelast_firstn_len.
  replace (Z.to_nat (Z.min 1 (Z.of_nat (S (length l))))) with 1%nat by lia.
  cbn [skipn]. f_equal. lia.
Qed.

(** The cells of a written row, as the callback reads them. *)
Lemma row_cells cells :
  cells_ok cells -> array_slice 1 (-1) (split_on cPipe (table_row cells)) = cells.
Proof.
  intros [Hne Hall]. rewrite array_slice_middle. unfold table_row.
  cbn [app split_on]. rewrite N.eqb_refl. cbn [tl].
  assert (Hbar : Forall (fun c => absent cPipe c = true) cells)
    by (eapply Forall_impl; [|exact Hall]; now intros c [H _]).
  assert (S : split_on cPipe (join_char cPipe cells ++ [cPipe]) = cells ++ [[]]).
  { clear Hall. induction cells as [|c cells IH]; [contradiction|].
    inversion Hbar as [|? ? Hc Hcs]; subst.
    destruct cells as [|c' cells].
    - cbn [join_char]. now rewrite split_on_app.
    - change (join_char cPipe (c :: c' :: cells))
        with (c ++ cPipe :: join_char cPipe (c' :: cells)).
      rewrite <- app_assoc. cbn [app]. rewrite split_on_app by assumption.
      cbn [app]. f_equal. apply IH; [discriminate|assumption]. }
  rewrite S. apply removelast_last.
Qed.

Lemma lines_join ls : lines ls = join_char cNL ls.
Proof.
  induction ls as [|l ls IH]; [reflexivity|].
  destruct ls; [reflexivity|]. cbn [lines join_char] in *. now rewrite IH.
Qed.

Lemma absent_join sep ch cells :
  (ch =? sep) = false -> Forall (fun c => absent ch c = true) cells ->
  absent ch (join_char sep cells) = true.
Proof.
  intros Hch Hall. induction Hall as [|c cells Hc _ IH]; [reflexivity|].
  destruct cells as [|c' cells]; [exact Hc|].
  change (join_char sep (c :: c' :: cells)) with (c ++ [sep] ++ join_char sep (c' :: cells)).
  rewrite !absent_app, Hc, IH. unfold absent. cbn [existsb]. now rewrite Hch.
Qed.

Lemma trim_end_all_space s : all_space s = true -> trim_end s = [].
Proof.
  intros H. unfold trim_end.
  assert (R : all_space (rev s) = true).
  { apply forallb_forall. intros x Hx. apply in_rev in Hx.
    now apply (proj1 (forallb_forall _ _) H). }
  generalize (rev s) R. clear. intros l Hl.
  induction l as [|a l IH]; [reflexivity|]. simpl in *.
  apply andb_prop in Hl as [Ha Hl]. rewrite Ha. now apply IH.
Qed.

Lemma table_rows_shape rows :
  rows <> [] -> exists p, lines (map table_row rows) = cPipe :: p ++ [cPipe].
Proof.
  induction rows as [|r rows IH]; intros Hne; [contradiction|].
  destruct rows as [|r' rows].
  - exists (join_char cPipe r). reflexivity.
  - destruct (IH ltac:(discriminate)) as [p E].
    exists (join_char cPipe r ++ [cPipe] ++ cNL :: cPipe :: p).
    change (lines (map table_row (r :: r' :: rows)))
      with (table_row r ++ cNL :: lines (map table_row (r' :: rows))).
    rewrite E. unfold table_row. cbn [app]. rewrite <- !app_assoc. reflexivity.
Qed.

(** The table that the callback writes: the header row holds the cells
    between the first and the last one, a body row holds all its cells. *)
Lemma table_callback_cells matched separator header rows ending :
  header <> [] -> Forall (fun h => absent cPipe h = true) header ->
  rows <> [] -> Forall cells_ok rows -> all_space ending = true ->
  table_callback matched
    [Some (join_char cPipe header); separator;
     Some (lines (map table_row rows) ++ ending)]
  = str "<table><thead><tr>" ++ concat (map th (removelast (tl header)))
      ++ str "</tr></thead><tbody>" ++ concat (map tr rows) ++ str "</tbody></table>".
Proof.
  intros Hh Hhall Hr Hrall Hend. unfold table_callback, arg, capture_text.
  cbn [nth_error Nat.sub]. unfold join_empty.
  rewrite (split_join cPipe header Hh Hhall), array_slice_middle.
  assert (T : trim (lines (map table_row rows) ++ ending) = lines (map table_row rows)).
  { destruct (table_rows_shape rows Hr) as [p ->].
    cbn [app]. rewrite <- app_assoc. cbn [app].
    rewrite trim_tail by reflexivity. now rewrite trim_end_all_space. }
  rewrite T, lines_join, split_join.
  - f_equal. f_equal. f_equal. f_equal.
    rewrite map_map. clear - Hrall.
    induction Hrall as [|r rows Hrow _ IH]; [reflexivity|].
    cbn [map concat]. rewrite IH. f_equal. unfold tr.
    now rewrite (row_cells r Hrow).
  - destruct rows; [contradiction|discriminate].
  - apply Forall_map. eapply Forall_impl; [|exact Hrall].
    intros r [Hne Hall]. unfold table_row. rewrite !absent_app.
    rewrite (absent_join cPipe cNL); [reflexivity|reflexivity|].
    eapply Forall_impl; [|exact Hall]. now intros c [_ H].
Qed.

(** ** The message component *)

Lemma typing_rest p displayedText :
  shouldAnimate p = true ->
  (length (Types.text (message p)) <= length displayedText)%nat ->
  typing_effect p displayedText = NoUpdate.
Proof.
  intros Ha Hle. unfold typing_effect. rewrite Ha. cbn [negb].
  rewrite (proj2 (Nat.ltb_ge _ _) Hle).
  unfold shouldAnimate in Ha. apply andb_prop in Ha as [_ Hl]. now rewrite Hl.
Qed.



(** What a run of the effect leaves, case by case: the text at once
    where it does not animate, a timer for one more code unit where the
    displayed text is shorter than the text, and otherwise nothing. *)
Lemma run_effect_cases p st :
  let text := Types.text (message p) in
  (shouldAnimate p = false /\ run_effect p st = mkTyping text None) \/
  (shouldAnimate p = true /\ (length (displayed st) < length text)%nat /\
   exists d, run_effect p st
             = mkTyping (displayed st) (Some (d, firstn (S (length (displayed st))) text))) \/
  (shouldAnimate p = true /\ (length text <= length (displayed st))%nat /\
   run_effect p st = mkTyping (displayed st) None).
Proof.
  intros text. unfold run_effect, typing_effect. fold text.
  destruct (shouldAnimate p) eqn:Ha; cbn [negb]; [right|left; auto].
  destruct (length (displayed st) <? length text)%nat eqn:E.
  - apply Nat.ltb_lt in E. left. split; [reflexivity|]. split; [exact E|].
    destruct (nth_error text (length (displayed st))) eqn:N.
    + eexists. now rewrite Nat.add_1_r.
    + apply nth_error_None in N. lia.
  - apply Nat.ltb_ge in E. right. split; [reflexivity|]. split; [exact E|].
    assert (L : isLoading p = true).
    { unfold shouldAnimate in Ha. now apply andb_true_iff in Ha as [_ Ha]. }
    now rewrite L.
Qed.



(** A round: the effect runs, and its timer fires before anything else
    changes. *)
Lemma typing_round p st :
  shouldAnimate p = true ->
  (length (displayed st) < length (Types.text (message p)))%nat ->
  typeNextChar (run_effect p st)
  = mkTyping (firstn (S (length (displayed st))) (Types.text (message p))) None.
Proof.
  intros Ha Hlt.
  destruct (run_effect_cases p st) as [[E _]|[[_ [_ [d E]]]|[_ [Hle _]]]];
    [congruence| |cbn zeta in Hle; lia].
  now rewrite E.
Qed.

Lemma typing_round_rest p st :
  shouldAnimate p = true ->
  (length (Types.text (message p)) <= length (displayed st))%nat ->
  run_effect p st = mkTyping (displayed st) None.
Proof.
  intros Ha Hle. unfold run_effect. now rewrite (typing_rest p _ Ha Hle).
Qed.

Lemma typing_rounds_rest n p : forall d,
  shouldAnimate p = true ->
  (length (Types.text (message p)) <= length d)%nat ->
  typing_events (rounds n p) (mkTyping d None) = mkTyping d None.
Proof.
  intros d Ha Hle. induction n as [|n IH]; [reflexivity|].
  cbn [rounds typing_events fold_left typing_step].
  rewrite typing_round_rest by assumption. exact IH.
Qed.

(** Where no render overtakes a timer, every round shows one more code
    unit of the text, up to the whole text. *)
Lemma typing_rounds_prefix n p : forall st,
  shouldAnimate p = true ->
  (length (displayed st) < length (Types.text (message p)))%nat ->
  typing_events (rounds (S n) p) st
  = mkTyping (firstn (S n + length (displayed st)) (Types.text (message p))) None.
Proof.
  set (text := Types.text (message p)).
  induction n as [|n IH]; intros st Ha Hlt.
  - cbn [rounds typing_events fold_left typing_step]. now rewrite typing_round.
  - change (typing_events (rounds (S (S n)) p) st)
      with (typing_events (rounds (S n) p) (typeNextChar (run_effect p st))).
    rewrite typing_round by assumption. fold text.
    set (d := displayed st) in *.
    assert (L : length (firstn (S (length d)) text) = S (length d))
      by (rewrite length_firstn; lia).
    destruct (Nat.lt_ge_cases (S (length d)) (length text)) as [H|H].
    + rewrite IH; cbn [displayed]; [|assumption|now rewrite L].
      rewrite L. f_equal. f_equal. lia.
    + rewrite typing_rounds_rest; [|assumption|fold text; lia].
      f_equal. rewrite !firstn_all2; trivial; lia.
Qed.

(** A displayed text as long as the text: no render with these
    properties and no timer changes it. *)
Lemma typing_stays p d evs :
  shouldAnimate p = true ->
  (length (Types.text (message p)) <= length d)%nat ->
  Forall (fun e => e = Render p \/ e = TimerFires) evs ->
  typing_events evs (mkTyping d None) = mkTyping d None.
Proof.
  intros Ha Hle Hevs. induction Hevs as [|e evs [He|He] _ IH]; [reflexivity|..];
    subst e; cbn [typing_events fold_left typing_step].
  - rewrite typing_round_rest by assumption. exact IH.
  - exact IH.
Qed.

Lemma typing_shows_answer p :
  isTyping p = true ->
  shouldAnimate p = true /\ isStableBotMessage p = false /\
  showFollowUpActions p = false /\ showApplyScheduleButton p = false /\
  showSpeechButtons p = false.
Proof.
  unfold isTyping, shouldAnimate, isStableBotMessage, showFollowUpActions,
    showApplyScheduleButton, showSpeechButtons, settled, isUser.
  destruct (isLastMessage p), (isLoading p), (is_model (Types.role (message p)));
    cbn [andb orb negb]; try discriminate.
  intros _. repeat split; now rewrite ?andb_false_r.
Qed.

(** ** A list item behind a blank line *)

(** The item literal starts at the empty line before the item: its white
    space takes the line end. *)
Lemma match_unordered_behind bef sp mk txt q :
  line_start bef -> all_space sp = true -> (mk =? 42) || (mk =? 45) = true ->
  no_line_end txt = true -> line_end q ->
  match_at Re.unordered bef (sp ++ mk :: 32 :: txt ++ q)
  = Some (mkState (rev (sp ++ mk :: 32 :: txt) ++ bef) q [(2%nat, txt); (1%nat, [mk])]).
Proof.
  intros Hbef Hsp Hmk Htxt Hq. unfold match_at, Re.unordered. cbn [source multiline].
  rewrite m_seq, m_bol, at_bol_line_start by assumption.
  rewrite m_seq. unfold star, white.
  rewrite (m_star true (Class false [CSpace]) _ eq_refl);
    [|now apply forallb_space_class|].
  2:{ unfold stops, class_matches. simpl.
      apply orb_prop in Hmk as [H|H]; apply N.eqb_eq in H; subst mk; reflexivity. }
  apply greedy_try_all.
  rewrite m_seq, m_group, (m_atom true (Class false [cc "*"; cc "-"]) _ eq_refl).
  replace (class_matches false [cc "*"; cc "-"] mk) with true
    by (symmetry; unfold cc; simpl N_of_ascii; char_facts).
  cbn [before after caps].
  rewrite m_seq. unfold Ch. change (N_of_ascii " ") with 32.
  rewrite m_char, N.eqb_refl, m_group.
  rewrite (m_star true Dot _ eq_refl) by assumption.
  apply greedy_try_all.
  cbn [before after caps]. rewrite consumed_app.
  change (mk :: 32 :: txt ++ q) with ([mk] ++ 32 :: txt ++ q). rewrite consumed_app.
  f_equal. f_equal.
  rewrite !rev_app_distr. simpl rev. rewrite <- !app_assoc. reflexivity.
Qed.

Lemma space_not_line_end c : is_space c = false -> is_line_terminator c = false.
Proof. unfold is_space. intros H. now apply orb_false_iff in H as [_ H]. Qed.

Lemma flat_map_line_break_nl s t :
  absent cNL s = true -> absent cNL t = true ->
  flat_map line_break (s ++ cNL :: t) = s ++ str "<br>" ++ t.
Proof.
  intros Hs Ht. rewrite flat_map_app. cbn [flat_map].
  rewrite !flat_map_line_break by assumption. reflexivity.
Qed.

(** A list item behind a paragraph and a blank line: the item rule takes
    the blank line away, and the list lands inside the paragraph. *)
Lemma list_behind_blank_line p mk t :
  ordinary_line p = true -> (mk =? 42) || (mk =? 45) = true -> plain t = true ->
  markdownToHTML (p ++ [cNL; cNL] ++ mk :: 32 :: t)
  = str "<p>" ++ p ++ str "<br><ul><li>" ++ t ++ str "</li></ul></p>".
Proof.
  intros Hp Hmk Ht.
  destruct (ordinary_parts p Hp) as (c & r & E & Hpl & Hs & H45 & Hd).
  destruct (plain_parts p Hpl) as [Hnl Ha]. destruct (plain_parts t Ht) as [Hnlt Hat].
  assert (Hc : forall ch, In ch markup_chars -> (c =? ch) = false)
    by (intros ch Hch; now apply (plain_not_char p c r)).
  assert (Hmk' : forall ch, In ch (str "#`|>") -> absent ch [mk] = true).
  { intros ch Hch. simpl in Hch.
    apply orb_prop in Hmk as [H|H]; apply N.eqb_eq in H; subst mk;
      decompose [or] Hch; try contradiction; subst ch; reflexivity. }
  assert (A : forall ch, In ch (str "#`|>") ->
            absent ch (p ++ [cNL; cNL] ++ mk :: 32 :: t) = true).
  { intros ch Hch.
    change (mk :: 32 :: t) with ([mk] ++ [32] ++ t).
    rewrite !absent_app, (Hmk' ch Hch).
    rewrite (Ha ch), (Hat ch) by (simpl in Hch |- *; tauto).
    simpl in Hch; decompose [or] Hch; try contradiction; subst ch; reflexivity. }
  unfold markdownToHTML, block_rules, inline_rules, list_rules.
  rewrite (headings_absent _ (A 35 ltac:(simpl; tauto))).
  rewrite (fences_absent _ (A 96 ltac:(simpl; tauto))).
  rewrite (tables_absent _ (A 124 ltac:(simpl; tauto))).
  rewrite (blockquotes_absent _ (A 62 ltac:(simpl; tauto))).
  set (html := p ++ cNL :: str "<ul><li>" ++ t ++ str "</li></ul>").
  assert (U : unordered_items (p ++ [cNL; cNL] ++ mk :: 32 :: t) = html).
  { unfold unordered_items, replace_tmpl, replace_with.
    assert (Q : quiet Re.unordered [] p ([cNL; cNL] ++ mk :: 32 :: t)).
    { rewrite E. apply quiet_cons.
      - cbn [app]. apply unordered_not_at; try assumption. apply Hc. simpl; tauto.
      - apply (quiet_inside Re.unordered _ _ _ _ _ eq_refl); [now apply space_not_line_end|].
        rewrite E in Hnl. simpl in Hnl. now apply andb_prop in Hnl as [_ H]. }
    rewrite (scan_quiet Re.unordered _ _ _ _ _ Q). cbn [snd fst].
    cbn [app]. rewrite scan_cons_none.
    2:{ rewrite E. simpl rev. rewrite <- app_assoc. cbn [app].
        apply (match_at_inside Re.unordered _ _ _ _ _ eq_refl); [now apply space_not_line_end|].
        rewrite E in Hnl. simpl in Hnl. now apply andb_prop in Hnl as [_ H]. }
    cbn [snd].
    pose proof (match_unordered_behind (cNL :: rev p ++ []) [cNL] mk t [] eq_refl eq_refl
                  Hmk Hnlt I) as M.
    replace ([cNL] ++ mk :: 32 :: t ++ []) with (([cNL] ++ mk :: 32 :: t) ++ []) in M
      by (cbn [app]; now rewrite !app_nil_r).
    change (cNL :: mk :: 32 :: t) with ([cNL] ++ mk :: 32 :: t).
    rewrite <- (app_nil_r ([cNL] ++ mk :: 32 :: t)) at 1.
    rewrite (scan_hit Re.unordered _ _ _ _ _ _ (ne_cons _ _) M eq_refl).
    cbv zeta. cbn [fst snd].
    rewrite scan_nil_none by (now apply unordered_not_in_space).
    cbn [snd]. unfold html. rewrite app_nil_r. f_equal. }
  rewrite U.
  assert (O : ordered_items html = html).
  { apply replace_tmpl_quiet.
    - unfold html. apply quiet_app.
      + rewrite E. apply quiet_cons.
        * cbn [app]. now apply ordered_not_at.
        * apply (quiet_inside Re.ordered _ _ _ _ _ eq_refl); [now apply space_not_line_end|].
          rewrite E in Hnl. simpl in Hnl. now apply andb_prop in Hnl as [_ H].
      + apply quiet_cons.
        * rewrite E. simpl rev. rewrite <- app_assoc. cbn [app].
          apply (match_at_inside Re.ordered _ _ _ _ _ eq_refl); [now apply space_not_line_end|].
          rewrite E in Hnl. simpl in Hnl. now apply andb_prop in Hnl as [_ H].
        * apply quiet_cons; [apply ordered_not_at_tag|].
          apply (quiet_inside Re.ordered _ _ _ _ _ eq_refl); [reflexivity|].
          change (no_line_end (str "ul><li>" ++ t ++ str "</li></ul>") = true).
          now rewrite !no_line_end_app, Hnlt.
    - unfold html. rewrite app_nil_r.
      replace (p ++ cNL :: str "<ul><li>" ++ t ++ str "</li></ul>")
        with ((p ++ cNL :: str "<ul><li>" ++ t ++ str "</li></ul") ++ [62])
        by (rewrite <- !app_assoc; cbn [app]; rewrite <- !app_assoc; reflexivity).
      rewrite rev_app_distr. cbn [rev app].
      apply (match_at_first). reflexivity. }
  rewrite O.
  assert (H60 : absent 60 p = true) by (apply Ha; simpl; tauto).
  assert (H60t : absent 60 t = true) by (apply Hat; simpl; tauto).
  assert (QM : forall k, quiet (merge_re k) [] html []).
  { intros k. unfold html. apply quiet_app.
    - apply (quiet_absent _ 60); [intros; now apply merge_first|exact H60].
    - apply quiet_cons; [apply match_at_first; now apply merge_first|].
      change (str "<ul><li>" ++ t ++ str "</li></ul>")
        with ([60; 117; 108; 62; 60; 108; 105; 62] ++ t
                ++ [60; 47; 108; 105; 62; 60; 47; 117; 108; 62]).
      apply quiet_app; [destruct k; quiet_literal|].
      apply quiet_app; [|destruct k; quiet_literal].
      apply (quiet_absent _ 60); [intros; now apply merge_first|exact H60t]. }
  assert (M1 : merge_ul_rule html = html).
  { apply replace_tmpl_quiet; [exact (QM Unordered)|]. apply match_at_first. reflexivity. }
  assert (M2 : merge_ol_rule html = html).
  { apply replace_tmpl_quiet; [exact (QM Ordered)|]. apply match_at_first. reflexivity. }
  rewrite M1, M2.
  assert (B : forall ch, In ch (str "*~`[") -> absent ch html = true).
  { intros ch Hch. unfold html.
    change (p ++ cNL :: str "<ul><li>" ++ t ++ str "</li></ul>")
      with (p ++ (cNL :: str "<ul><li>") ++ t ++ str "</li></ul>").
    rewrite !absent_app.
    rewrite (Ha ch), (Hat ch) by (simpl in Hch |- *; tauto).
    simpl in Hch; decompose [or] Hch; try contradiction; subst ch; reflexivity. }
  rewrite (bold_absent _ (B 42 ltac:(simpl; tauto))).
  rewrite (italic_absent _ (B 42 ltac:(simpl; tauto))).
  rewrite (strike_absent _ (B 126 ltac:(simpl; tauto))).
  rewrite (inline_code_absent _ (B 96 ltac:(simpl; tauto))).
  rewrite (links_absent _ (B 91 ltac:(simpl; tauto))).
  assert (Hnlx : no_line_end (str "<ul><li>" ++ t ++ str "</li></ul>") = true)
    by (now rewrite !no_line_end_app, Hnlt).
  assert (QB : quiet Re.blank_lines [] html []).
  { unfold html. apply quiet_app.
    - apply (quiet_absent _ cNL); [first_never|now apply no_line_end_absent].
    - apply quiet_cons.
      + unfold match_at, Re.blank_lines. cbn [source multiline].
        rewrite m_seq, m_char, N.eqb_refl, m_seq. unfold star, white.
        change ((str "<ul><li>" ++ t ++ str "</li></ul>") ++ [])
          with ([] ++ 60 :: (str "ul><li>" ++ t ++ str "</li></ul>") ++ []).
        rewrite (m_star false (Class false [CSpace]) _ eq_refl); [|reflexivity|reflexivity].
        reflexivity.
      + apply (quiet_absent _ cNL); [first_never|now apply no_line_end_absent]. }
  unfold paragraphs, regex_split.
  assert (Eh : html = c :: (r ++ cNL :: str "<ul><li>" ++ t ++ str "</li></ul") ++ [62]).
  { unfold html. rewrite E. cbn [app]. f_equal. rewrite <- !app_assoc. cbn [app].
    rewrite <- !app_assoc. reflexivity. }
  rewrite Eh in QB |- *.
  rewrite (split_scan_quiet _ _ [] [] QB).
  cbn [rev app map join_empty concat]. rewrite app_nil_r.
  rewrite wrap_text_br; [|assumption|apply Hc; simpl; tauto].
  rewrite trim_keep by (assumption || reflexivity).
  rewrite <- Eh. unfold html.
  rewrite flat_map_line_break_nl by (now apply no_line_end_absent).
  rewrite <- !app_assoc. reflexivity.
Qed.

(** ** The index inside a token *)

Lemma uint_chars_revapp d : forall d',
  uint_chars (Decimal.revapp d d') = uint_chars (Decimal.rev d) ++ uint_chars d'.
Proof.
  unfold Decimal.rev.
  induction d as [|d IH|d IH|d IH|d IH|d IH|d IH|d IH|d IH|d IH|d IH]; intros d';
    [reflexivity|..];
    cbn [Decimal.revapp]; rewrite IH, (IH (_ Decimal.Nil)), <- app_assoc; reflexivity.
Qed.

(** The numeral of the library, last digit apart. *)
Lemma to_lu_digit q r :
  (q <> 0)%nat -> (r < 10)%nat ->
  uint_chars (Decimal.rev (DecimalNat.Unsigned.to_lu (10 * q + r)))
  = uint_chars (Decimal.rev (DecimalNat.Unsigned.to_lu q)) ++ [48 + N.of_nat r].
Proof.
  intros Hq Hr. rewrite Nat.add_comm.
  assert (E : forall k, DecimalNat.Unsigned.to_lu (k + 10 * q)
                = Nat.iter k Decimal.Little.succ (Decimal.D0 (DecimalNat.Unsigned.to_lu q))).
  { induction k as [|k IH].
    - now apply DecimalNat.Unsigned.to_lu_tenfold.
    - cbn [Nat.add Nat.iter nat_rect]. now rewrite DecimalNat.Unsigned.to_lu_succ, IH. }
  rewrite E.
  do 10 (destruct r as [|r]; [cbn [Nat.iter nat_rect Decimal.Little.succ];
    unfold Decimal.rev at 1; cbn [Decimal.revapp]; rewrite uint_chars_revapp; reflexivity|]).
  lia.
Qed.

Lemma to_uint_chars n :
  str (NilZero.string_of_uint (Nat.to_uint n)) = uint_chars (Nat.to_uint n).
Proof.
  unfold uint_chars.
  destruct (Nat.to_uint n) eqn:E; try reflexivity.
  pose proof (DecimalNat.Unsigned.of_to n) as H. rewrite E in H. cbn in H. subst n.
  discriminate.
Qed.

Lemma decimal_from_chars fuel : forall n,
  (n < fuel)%nat -> decimal_from fuel n = uint_chars (Nat.to_uint n).
Proof.
  induction fuel as [|fuel IH]; intros n Hn; [lia|].
  cbn [decimal_from].
  destruct (n <? 10)%nat eqn:E.
  - apply Nat.ltb_lt in E.
    do 10 (destruct n as [|n]; [reflexivity|]). lia.
  - apply Nat.ltb_ge in E.
    rewrite IH.
    + rewrite !DecimalNat.Unsigned.to_uint_alt.
      rewrite (Nat.div_mod_eq n 10) at 3.
      rewrite to_lu_digit; [reflexivity| |apply Nat.mod_upper_bound; lia].
      intros H. apply Nat.div_small_iff in H; lia.
    + assert (n / 10 < n)%nat by (apply Nat.div_lt; lia). lia.
Qed.

(** The index of a token is written as its decimal numeral. *)
Lemma number_to_string_decimal n : number_to_string n = decimal n.
Proof.
  unfold number_to_string, decimal.
  rewrite to_uint_chars. symmetry. apply decimal_from_chars. lia.
Qed.

Lemma token_numbered i : token i = numbered_token i.
Proof. unfold token, numbered_token, placeholder. now rewrite number_to_string_decimal. Qed.

Lemma shielded_numbered segs tail : forall i, shielded i segs tail = numbered i segs tail.
Proof.
  induction segs as [|[t sp] segs IH]; intros i; [reflexivity|].
  cbn [shielded numbered]. now rewrite IH, token_numbered.
Qed.

(** ** Further properties *)

Ltac doc_ok :=
  repeat (cbv [block_of rich_line_ok plain_text marked];
          cbn [pieces_ok piece_ok markup_ok is_span opens_plain snd];
          match goal with
          | |- _ /\ _ => split
          | |- Forall _ _ => constructor
          | |- In _ _ => simpl; tauto
          | |- _ <> _ => discriminate
          | |- _ = _ => reflexivity
          | |- False -> _ => intros []
          | |- True -> _ => intros _
          | |- _ => exact I
          end).

Lemma extract_no_math s : absent cDollar s = true -> extract s = (s, []).
Proof.
  intros H. unfold extract.
  rewrite (replace_absent Re.math shield cDollar); try assumption; try reflexivity.
  intros bef a aft Ha. now apply math_first.
Qed.

Lemma absent_dollar_space s : all_space s = true -> absent cDollar s = true.
Proof.
  intros Hs. apply absent_forall. intros a Ha.
  assert (H : is_space a = true) by now apply (proj1 (forallb_forall _ _) Hs).
  unfold cDollar. clear - H. char_facts.
Qed.

(** X1. Reading aloud: the text handed to the speech synthesis is the
    message text without its math marks, taken out in one pass from left
    to right: every [$], and every backslash that one of [( ) [ ]]
    follows, together with that character.  No [$] is ever spoken. *)
Theorem X1_spoken_text_has_no_math_marks (text : jsstring) :
  textToSpeak text = strip_marks text /\
  absent cDollar (textToSpeak text) = true.
Proof.
  split; [apply textToSpeak_strip|].
  rewrite textToSpeak_strip. now apply (strip_marks_no_dollar (length text)).
Qed.

(** X2. A text of white space only converts to the empty markup, and a
    message of white space only is rendered as an empty [div]. *)
Theorem X2_white_space_converts_to_nothing (s : jsstring) (Hs : all_space s = true) :
  markdownToHTML s = [] /\ (s <> [] -> renderContent s = Some []).
Proof.
  split; [now apply convert_all_space|].
  intros Hne. unfold renderContent.
  rewrite (extract_no_math s (absent_dollar_space s Hs)).
  destruct s; [contradiction|]. cbn [restore restore_from].
  now rewrite convert_all_space.
Qed.

Lemma X2_white_space_converts_to_nothing_witness :
  markdownToHTML (lines [str "  "; str " "]) = [] /\
  (lines [str "  "; str " "] <> [] -> renderContent (lines [str "  "; str " "]) = Some []).
Proof. apply (X2_white_space_converts_to_nothing (lines [str "  "; str " "])). reflexivity. Defined.

(** X3. Documents of paragraphs, headings and quotations with inline
    markup.  The blocks of the document are separated by one or more
    empty lines.  A line is text, a heading of level one to six, or a
    quotation; its text is made of pieces: plain text, bold, italic,
    struck text, inline code and links, a piece of markup being followed
    by plain text or by the end of the line.  The converter writes every
    line with its tags and its pieces converted, keeps the line ends
    inside a block, and joins the blocks without a separator.  A block
    that opens with a line of text comes out as one paragraph, its line
    ends turned into [<br>] (headings and quotations on later lines stay
    inside that paragraph); a block that opens with a heading or a
    quotation is not wrapped, and the text lines behind it keep their
    line ends. *)
Theorem X3_document_with_inline_markup
    (first : list rich_line) (rest : list (nat * list rich_line))
    (Hfirst : block_of rich_line_ok first)
    (Hrest : Forall (fun p => block_of rich_line_ok (snd p)) rest) :
  markdownToHTML (doc_text rich_source first rest) = rich_doc_html first rest.
Proof. now apply convert_rich_doc. Qed.

Lemma X3_document_with_inline_markup_witness :
  markdownToHTML
    (lines [str "# **Big** title";
            str "intro with `code` and [a link](http://x.y)";
            str "";
            str "second *para* ~~old~~ end";
            str "> a quotation";
            str ""; str "";
            str "> quoted **q**"])
  = str "<h1><strong>Big</strong> title</h1>" ++ [cNL] ++ str "intro with "
      ++ code_open ++ str "code</code> and <a href=" ++ dq ++ str "http://x.y" ++ dq
      ++ link_attributes ++ str "a link</a>"
      ++ str "<p>second <em>para</em> <del>old</del> end<br>"
      ++ str "<blockquote>a quotation</blockquote></p>"
      ++ str "<blockquote>quoted <strong>q</strong></blockquote>".
Proof.
  apply (X3_document_with_inline_markup
           [RHeading "1" "#" [Bold (str "Big"); Plain (str " title")];
            RText [Plain (str "intro with "); Code (str "code"); Plain (str " and ");
                   Link (str "a link") (str "http://x.y")]]
           [(0%nat, [RText [Plain (str "second "); Italic (str "para"); Plain (str " ");
                            Strike (str "old"); Plain (str " end")];
                     RQuote [Plain (str "a quotation")]]);
            (1%nat, [RQuote [Plain (str "quoted "); Bold (str "q")]])]);
    doc_ok.
Defined.

(** X4. A list item behind a paragraph and an empty line.  The white
    space that the item literal allows before the marker takes the line
    end of the empty line, so the rule removes the empty line with the
    item: the list is no block of its own, it lands inside the paragraph
    of the text before it. *)
Theorem X4_list_behind_blank_line_joins_paragraph (p t : jsstring) (mk : N)
    (Hp : ordinary_line p = true) (Hmk : (mk =? 42) || (mk =? 45) = true)
    (Ht : plain t = true) :
  markdownToHTML (p ++ [cNL; cNL] ++ mk :: 32 :: t)
  = str "<p>" ++ p ++ str "<br><ul><li>" ++ t ++ str "</li></ul></p>".
Proof. now apply list_behind_blank_line. Qed.

Lemma X4_list_behind_blank_line_joins_paragraph_witness :
  markdownToHTML (lines [str "Shopping:"; str ""; str "- milk"])
  = str "<p>Shopping:<br><ul><li>milk</li></ul></p>".
Proof.
  apply (X4_list_behind_blank_line_joins_paragraph (str "Shopping:") (str "milk") 45);
    reflexivity.
Defined.

(** X5. The extraction of formulas.  In a text whose formulas are
    well formed (a body without [$] between single dollars, not empty, or
    between double dollars) and whose other text holds no [$], every
    formula is replaced by its token
    "___MATHJAX_PLACEHOLDER___i___MATHJAX_PLACEHOLDER___", where [i] is
    its number in the order of the text, counted from zero and written
    in decimal, and the array of formulas holds the formulas in that
    order. *)
Theorem X5_formulas_are_numbered_in_order
    (segs : list (jsstring * math_span)) (tail : jsstring)
    (Hsegs : Forall seg_ok segs) (Htail : absent cDollar tail = true) :
  extract (math_source segs tail)
  = (numbered 0 segs tail, map (fun seg => span_text (snd seg)) segs).
Proof. rewrite <- shielded_numbered. now apply extract_formulas. Qed.

Lemma X5_formulas_are_numbered_in_order_witness :
  extract (str "a $x$ b $$y$$ c $z$ $d$ $e$ $f$ $g$ $h$ $i$ $j$ $k$.")
  = (str "a ___MATHJAX_PLACEHOLDER___0___MATHJAX_PLACEHOLDER___ b ___MATHJAX_PLACEHOLDER___1___MATHJAX_PLACEHOLDER___ c ___MATHJAX_PLACEHOLDER___2___MATHJAX_PLACEHOLDER___ ___MATHJAX_PLACEHOLDER___3___MATHJAX_PLACEHOLDER___ ___MATHJAX_PLACEHOLDER___4___MATHJAX_PLACEHOLDER___ ___MATHJAX_PLACEHOLDER___5___MATHJAX_PLACEHOLDER___ ___MATHJAX_PLACEHOLDER___6___MATHJAX_PLACEHOLDER___ ___MATHJAX_PLACEHOLDER___7___MATHJAX_PLACEHOLDER___ ___MATHJAX_PLACEHOLDER___8___MATHJAX_PLACEHOLDER___ ___MATHJAX_PLACEHOLDER___9___MATHJAX_PLACEHOLDER___ ___MATHJAX_PLACEHOLDER___10___MATHJAX_PLACEHOLDER___.",
     [str "$x$"; str "$$y$$"; str "$z$"; str "$d$"; str "$e$"; str "$f$"; str "$g$";
      str "$h$"; str "$i$"; str "$j$"; str "$k$"]).
Proof.
  apply (X5_formulas_are_numbered_in_order
           [(str "a ", InlineMath (str "x")); (str " b ", DisplayMath (str "y"));
            (str " c ", InlineMath (str "z")); (str " ", InlineMath (str "d"));
            (str " ", InlineMath (str "e")); (str " ", InlineMath (str "f"));
            (str " ", InlineMath (str "g")); (str " ", InlineMath (str "h"));
            (str " ", InlineMath (str "i")); (str " ", InlineMath (str "j"));
            (str " ", InlineMath (str "k"))] (str ".")).
  - repeat constructor; discriminate.
  - reflexivity.
Defined.

(** X6. The restoration.  In a markup where the tokens of the formulas
    stand in the order of their indices, and where neither the text
    between them nor a formula holds three underscores in a row, every
    token is replaced by its formula: the first occurrence that [replace]
    looks for is the token itself.  What is put in is the formula as the
    replacement patterns of [replace] expand it: the body between single
    dollars, also for a formula that was written between double
    dollars. *)
Theorem X6_restore_puts_formulas_back
    (segs : list (jsstring * math_span)) (i : nat) (s tail : jsstring)
    (Hsegs : Forall seg_fine segs) (Hs : calm s = true) (He : ends_calm s = true) :
  restore_from i (map (fun seg => span_text (snd seg)) segs) (s ++ shielded i segs tail)
  = s ++ math_shown segs tail.
Proof. now apply restore_formulas. Qed.

Lemma X6_restore_puts_formulas_back_witness :
  restore (str "<p>a " ++ token 0 ++ str " b_1 " ++ token 1 ++ str "</p>")
    [str "$x_i$"; str "$$y$$"]
  = str "<p>a $x_i$ b_1 $y$</p>".
Proof.
  apply (X6_restore_puts_formulas_back
           [(str "a ", InlineMath (str "x_i")); (str " b_1 ", DisplayMath (str "y"))]
           0 (str "<p>") (str "</p>")).
  - repeat constructor; discriminate.
  - reflexivity.
  - reflexivity.
Defined.

(** X7. A message of one line of ordinary text with formulas, from end to
    end: the markup is the paragraph of the text, and every formula
    stands in its place, its body untouched by the markdown rules, between
    single dollars.  A formula written between double dollars therefore
    comes out as an inline formula. *)
Theorem X7_formulas_pass_through_the_renderer
    (segs : list (jsstring * math_span)) (tail : jsstring)
    (Hne : segs <> []) (Hsegs : Forall seg_fine segs)
    (Htail : absent cDollar tail = true)
    (Hline : ordinary_line (shielded 0 segs tail) = true) :
  renderContent (math_source segs tail)
  = Some (str "<p>" ++ math_shown segs (trim_end tail) ++ str "</p>").
Proof. now apply render_formulas. Qed.

Lemma X7_formulas_pass_through_the_renderer_witness :
  renderContent (str "Energy $E=m*c^2*k$ and $$a_1+b_2$$ done ")
  = Some (str "<p>Energy $E=m*c^2*k$ and $a_1+b_2$ done</p>").
Proof.
  apply (X7_formulas_pass_through_the_renderer
           [(str "Energy ", InlineMath (str "E=m*c^2*k"));
            (str " and ", DisplayMath (str "a_1+b_2"))] (str " done ")).
  - discriminate.
  - repeat constructor; discriminate.
  - reflexivity.
  - reflexivity.
Defined.

(** X8. The callback of the table rule.  For a header capture of cells
    joined by bars and a body capture of rows written with a bar before,
    between and behind their cells, the table holds a header cell for
    every cell of the header but the first and the last one, and a body
    row with a cell for every cell of the row; the text of a cell is
    trimmed. *)
Theorem X8_table_callback_cells
    (matched : jsstring) (separator : option jsstring)
    (header : list jsstring) (rows : list (list jsstring)) (ending : jsstring)
    (Hheader : header <> []) (Hbars : Forall (fun h => absent cPipe h = true) header)
    (Hrows : rows <> []) (Hcells : Forall cells_ok rows)
    (Hending : all_space ending = true) :
  table_callback matched
    [Some (join_char cPipe header); separator;
     Some (lines (map table_row rows) ++ ending)]
  = str "<table><thead><tr>" ++ concat (map th (removelast (tl header)))
      ++ str "</tr></thead><tbody>" ++ concat (map tr rows) ++ str "</tbody></table>".
Proof. now apply table_callback_cells. Qed.

Lemma X8_table_callback_cells_witness :
  table_callback (str "")
    [Some (str " a | b | c "); Some (str "---|---|---");
     Some (lines [str "| 1 | 2 | 3 |"; str "| 4 | 5 | 6 |"] ++ [cNL])]
  = str "<table><thead><tr><th>b</th></tr></thead><tbody>"
      ++ str "<tr><td>1</td><td>2</td><td>3</td></tr>"
      ++ str "<tr><td>4</td><td>5</td><td>6</td></tr></tbody></table>".
Proof.
  apply (X8_table_callback_cells (str "") (Some (str "---|---|---"))
           [str " a "; str " b "; str " c "]
           [[str " 1 "; str " 2 "; str " 3 "]; [str " 4 "; str " 5 "; str " 6 "]] [cNL]).
  - discriminate.
  - repeat constructor.
  - discriminate.
  - repeat constructor; discriminate.
  - reflexivity.
Defined.



(** X10. While the answer is streamed, a displayed text that is at
    least as long as the message text is never changed, whatever it
    holds: the branch of the effect that is to set the final text asks
    for [!isLoading], which cannot hold behind the early return.  The
    run of the effect asks for no update, and no sequence of renders with
    these properties and of timers changes the displayed text or leaves a
    timer. *)
Theorem X10_typing_never_corrects_a_long_text
    (p : ChatMessageProps) (displayedText : jsstring) (evs : list typing_event)
    (Ha : shouldAnimate p = true)
    (Hle : (length (Types.text (message p)) <= length displayedText)%nat)
    (Hevs : Forall (fun e => e = Render p \/ e = TimerFires) evs) :
  typing_effect p displayedText = NoUpdate /\
  typing_events evs (mkTyping displayedText None) = mkTyping displayedText None.
Proof.
  split; [now apply typing_rest|].
  exact (typing_stays p displayedText evs Ha Hle Hevs).
Qed.

Lemma X10_typing_never_corrects_a_long_text_witness :
  let p := mkProps (Types.mkMessage Types.model (str "new") None None)
             true true false false false in
  typing_effect p (str "older") = NoUpdate /\
  typing_events [Render p; TimerFires; Render p; Render p] (mkTyping (str "older") None)
  = mkTyping (str "older") None.
Proof.
  intros p.
  apply (X10_typing_never_corrects_a_long_text p (str "older")
           [Render p; TimerFires; Render p; Render p]).
  - reflexivity.
  - simpl. lia.
  - repeat (apply Forall_cons; [first [left; reflexivity|right; reflexivity]|]).
    apply Forall_nil.
Defined.

(** X11. While the component shows the typing indicator, the answer is
    being animated, MathJax is not asked to typeset, and none of the
    follow-up actions, the schedule button and the speaker and share
    buttons is shown. *)
Theorem X11_nothing_to_click_while_typing (p : ChatMessageProps)
    (Ht : isTyping p = true) :
  shouldAnimate p = true /\ isStableBotMessage p = false /\
  showFollowUpActions p = false /\ showApplyScheduleButton p = false /\
  showSpeechButtons p = false.
Proof. now apply typing_shows_answer. Qed.

Lemma X11_nothing_to_click_while_typing_witness :
  let p := mkProps (Types.mkMessage Types.model (str "| a |---") None None)
             true true true true true in
  shouldAnimate p = true /\ isStableBotMessage p = false /\
  showFollowUpActions p = false /\ showApplyScheduleButton p = false /\
  showSpeechButtons p = false.
Proof.
  apply (X11_nothing_to_click_while_typing
           (mkProps (Types.mkMessage Types.model (str "| a |---") None None)
              true true true true true)).
  reflexivity.
Defined.

(** X12. The typing animation where nothing overtakes the timers.  If
    the properties stay the same while the answer is animated, and every
    timer fires before the next render, then each round of a render and
    its timer shows one more code unit of the message text: after
    [n + 1] rounds from a displayed text shorter than the message text,
    the displayed text is the message text up to [n + 1] code units more
    than it had, and the whole text once that many are not left; no timer
    is left pending. *)
Theorem X12_typing_types_the_text_when_timers_fire
    (n : nat) (p : ChatMessageProps) (st : typing_state)
    (Ha : shouldAnimate p = true)
    (Hlt : (length (displayed st) < length (Types.text (message p)))%nat) :
  typing_events (rounds (S n) p) st
  = mkTyping (firstn (S n + length (displayed st)) (Types.text (message p))) None.
Proof. now apply typing_rounds_prefix. Qed.

Lemma X12_typing_types_the_text_when_timers_fire_witness :
  let p := mkProps (Types.mkMessage Types.model (str "Hello") None None)
             true true false false false in
  typing_events [Render p; TimerFires; Render p; TimerFires; Render p; TimerFires]
    (mkTyping (str "H") (Some (Typing, str "stale")))
  = mkTyping (str "Hell") None.
Proof.
  intros p.
  apply (X12_typing_types_the_text_when_timers_fire 2 p
           (mkTyping (str "H") (Some (Typing, str "stale")))).
  - reflexivity.
  - simpl. lia.
Defined.
